(** * Trabalho 2 (grafos): Floyd-Warshall engine and synthetic graph generators

    A shallow embedding of [Questão 2/floyd.py] and
    [Questão 3/GeradorDeGrafos.py], with the properties the specification
    states about them. *)

From Stdlib Require Import ZArith Lia Floats.
From stdpp Require Import base decidable option list numbers sorting gmap relations.

Set Default Proof Using "Type".
(* Decimal float literals denote the nearest binary64, as in Python. *)
Set Warnings "-inexact-float".
Open Scope Z_scope.

(** * Python outcomes

    A Python call either returns a value or raises.  Loops that Python
    leaves unbounded ([while]) are run on a budget of iterations; [Diverge]
    is the outcome of a budget that ran out, never of the Python code. *)

Inductive exn : Type :=
  | IndexError
  | KeyError
  | ValueError
  | ZeroDivisionError
  | OverflowError.

Inductive outcome (A : Type) : Type :=
  | Ok (a : A)
  | Raise (e : exn)
  | Diverge.
Arguments Ok {A} a.
Arguments Raise {A} e.
Arguments Diverge {A}.

Definition obind {A B} (m : outcome A) (f : A → outcome B) : outcome B :=
  match m with
  | Ok a => f a
  | Raise e => Raise e
  | Diverge => Diverge
  end.

#[global] Instance outcome_bind : MBind outcome := λ A B f m, obind m f.
#[global] Instance outcome_ret : MRet outcome := λ A a, Ok a.

(** [for x in xs: s = body(s, x)] with an exception leaving the loop. *)
Fixpoint for_each {A S} (xs : list A) (body : S → A → outcome S) (s : S) : outcome S :=
  match xs with
  | [] => Ok s
  | x :: xs' => s' ← body s x; for_each xs' body s'
  end.

(** [range(n)] for a natural bound. *)
Definition range (n : nat) : list nat := seq 0 n.

(** [l[i]] for a non-negative index. *)
Definition lget {A} (l : list A) (i : nat) : outcome A :=
  match l !! i with
  | Some x => Ok x
  | None => Raise IndexError
  end.

(** [l[i] = x] for a non-negative index. *)
Definition lset {A} (l : list A) (i : nat) (x : A) : outcome (list A) :=
  if decide (i < length l)%nat then Ok (<[i := x]> l) else Raise IndexError.

(** [m[i][j]] and [m[i][j] = x] on a list of rows (the rows are distinct
    objects: they come from a comprehension). *)
Definition mget {A} (m : list (list A)) (i j : nat) : outcome A :=
  row ← lget m i; lget row j.

Definition mset {A} (m : list (list A)) (i j : nat) (x : A) : outcome (list (list A)) :=
  row ← lget m i; row' ← lset row j x; lset m i row'.

(** * Questão 2: floyd.py *)

(** An int converts to a float when it rounds to a finite binary64: below
    [2^1024 - 2^970] in magnitude.  Python raises [OverflowError] on the
    others, also where an int meets a float in a sum. *)
Definition double_limit : Z := 2 ^ 1024 - 2 ^ 970.

Definition fits_double (z : Z) : bool := bool_decide (Z.abs z < double_limit).

(** Distances: an integer weight or [float('inf')].  Only [+], [<] and [>]
    are applied to them, and no operand is ever [-inf] or a NaN. *)
Inductive dist_t : Type :=
  | Fin (w : Z)
  | Inf.

(** [a + b]: two ints add exactly; [inf] and an int add to [inf] once the
    int is converted. *)
Definition dadd (a b : dist_t) : outcome dist_t :=
  match a, b with
  | Fin x, Fin y => Ok (Fin (x + y))
  | Inf, Inf => Ok Inf
  | Inf, Fin y | Fin y, Inf => if fits_double y then Ok Inf else Raise OverflowError
  end.

Definition dlt (a b : dist_t) : bool :=
  match a, b with
  | Fin x, Fin y => bool_decide (x < y)
  | Fin _, Inf => true
  | Inf, _ => false
  end.

Definition dgt (a b : dist_t) : bool := dlt b a.

(** Modelled from the spec: the Graph container of [grafo.py], which is not
    among the sources.  Its read contract is the enumeration of the vertices
    and of the edges with their endpoints and weight, in insertion order;
    a vertex is identified by its label, labels being unique in a graph.
    The edges enumerated are directed: an undirected graph holds each of
    its edges as the pair of the two directed ones. *)
Record Graph : Type := mkGraph {
  directed : bool;
  vertices_of : list Z;
  edges_of : list (Z * Z * Z)
}.

(** Modelled from the spec: [g.insert_vertex(nome)]. *)
Definition insert_vertex (g : Graph) (nome : Z) : Graph :=
  mkGraph (directed g) (vertices_of g ++ [nome]) (edges_of g).

(** Modelled from the spec: the directed edges that stand for the edge
    from [u] to [v]. *)
Definition arcs_of_edge (direcionado : bool) (e : Z * Z * Z) : list (Z * Z * Z) :=
  if direcionado then [e] else [e; (e.1.2, e.1.1, e.2)].

(** Modelled from the spec: [g.insert_edge(u, v, peso)]. *)
Definition insert_edge (g : Graph) (u v peso : Z) : Graph :=
  mkGraph (directed g) (vertices_of g)
          (edges_of g ++ arcs_of_edge (directed g) (u, v, peso)).

(** [criar_grafo]: the second component of the state collects the labels
    of [mapeamento_vertices]; an edge with an unknown endpoint is skipped
    (with a printed warning, collected in the third component). *)
Definition criar_grafo (vertices_nomes : list Z) (arestas_dados : list (Z * Z * Z))
    (direcionado : bool) : Graph * list Z * list (Z * Z) :=
  let g0 := mkGraph direcionado [] [] in
  let '(g1, mapeamento) :=
    foldl (λ '(g, m) nome, (insert_vertex g nome, m ++ [nome])) (g0, []) vertices_nomes in
  let '(g2, avisos) :=
    foldl (λ '(g, av) '(u_nome, v_nome, peso),
             if bool_decide (u_nome ∈ mapeamento) && bool_decide (v_nome ∈ mapeamento)
             then (insert_edge g u_nome v_nome peso, av)
             else (g, av ++ [(u_nome, v_nome)]))
          (g1, []) arestas_dados in
  (g2, mapeamento, avisos).

(** [{v: i for i, v in enumerate(vertices)}] *)
Definition enumerate_map (vertices : list Z) : gmap Z nat :=
  foldl (λ m '(i, v), <[v := i]> m) ∅ (imap (λ i v, (i, v)) vertices).

Definition dict_get (m : gmap Z nat) (k : Z) : outcome nat :=
  match m !! k with
  | Some i => Ok i
  | None => Raise KeyError
  end.

Definition matrices : Type := list (list dist_t) * list (list (option nat)).

(** Lines 30-32: the diagonal. *)
Definition init_diagonal (n : nat) (s : matrices) : outcome matrices :=
  for_each (range n)
    (λ '(dist, prox) i,
       dist' ← mset dist i i (Fin 0);
       prox' ← mset prox i i (Some i);
       Ok (dist', prox'))
    s.

(** Lines 34-40: one edge. *)
Definition seed_edge (v_para_idx : gmap Z nat) (s : matrices) (aresta : Z * Z * Z)
    : outcome matrices :=
  let '(dist, prox) := s in
  let '(u, v, peso) := aresta in
  i ← dict_get v_para_idx u;
  j ← dict_get v_para_idx v;
  dij ← mget dist i j;
  if dlt (Fin peso) dij then
    dist' ← mset dist i j (Fin peso);
    prox' ← mset prox i j (Some j);
    Ok (dist', prox')
  else Ok (dist, prox).

(** Lines 46-50: the body of the triple loop. *)
Definition relax (k i : nat) (s : matrices) (j : nat) : outcome matrices :=
  let '(dist, prox) := s in
  dik ← mget dist i k;
  dkj ← mget dist k j;
  custo_via_k ← dadd dik dkj;
  dij ← mget dist i j;
  if dgt dij custo_via_k then
    dist' ← mset dist i j custo_via_k;
    pik ← mget prox i k;
    prox' ← mset prox i j pik;
    Ok (dist', prox')
  else Ok (dist, prox).

Definition relax_all (n : nat) (s : matrices) : outcome matrices :=
  for_each (range n)
    (λ s k, for_each (range n) (λ s i, for_each (range n) (relax k i) s) s) s.

(** Lines 52-54: the labels for which the alert is printed. *)
Definition alertas (dist : list (list dist_t)) (vertices : list Z) : outcome (list Z) :=
  for_each (range (length vertices))
    (λ out i,
       dii ← mget dist i i;
       if dlt dii (Fin 0) then (v ← lget vertices i; Ok (out ++ [v])) else Ok out)
    [].

(** [floyd_warshall]: the returned triple, and the labels alerted on the
    way. *)
Definition floyd_warshall (g : Graph)
    : outcome (list (list dist_t) * list (list (option nat)) * list Z * list Z) :=
  let vertices := merge_sort Z.le (vertices_of g) in
  let n := length vertices in
  let v_para_idx := enumerate_map vertices in
  let dist := replicate n (replicate n Inf) in
  let prox := replicate n (replicate n None) in
  s0 ← init_diagonal n (dist, prox);
  s1 ← for_each (edges_of g) (seed_edge v_para_idx) s0;
  '(dist, prox) ← relax_all n s1;
  avisos ← alertas dist vertices;
  Ok (dist, prox, vertices, avisos).

(** The values [reconstruir_caminho_floyd] can hand back. *)
Inductive pyval : Type :=
  | PyNone
  | PyInf
  | PyList (labels : list Z)
  | PyTuple (a b : pyval).

(** The pair [(None, float('inf'))] of lines 60 and 70. *)
Definition no_path : pyval := PyTuple PyNone PyInf.

(** Lines 65-74, from the loop test on; [fuel] bounds the number of
    evaluations of the test. *)
Fixpoint caminho_loop (fuel : nat) (prox : list (list (option nat))) (vertices : list Z)
    (j atual_idx : nat) (caminho : list Z) : outcome pyval :=
  match fuel with
  | O => Diverge
  | S fuel' =>
      if decide (atual_idx = j) then
        vj ← lget vertices j;
        Ok (PyList (caminho ++ [vj]))
      else
        va ← lget vertices atual_idx;
        nxt ← mget prox atual_idx j;
        match nxt with
        | None => Ok no_path
        | Some a => caminho_loop fuel' prox vertices j a (caminho ++ [va])
        end
  end.

Definition reconstruir_caminho_floyd (fuel : nat) (i j : nat)
    (prox : list (list (option nat))) (vertices : list Z) : outcome pyval :=
  pij ← mget prox i j;
  match pij with
  | None => Ok no_path
  | Some _ => caminho_loop fuel prox vertices j i []
  end.

(** The scenario of the [__main__] block. *)
Definition lista_vertices : list Z := [1; 2; 3; 4; 5; 6].

Definition lista_arestas : list (Z * Z * Z) :=
  [ (1, 2, 2); (3, 1, -4); (3, 2, 3); (3, 4, -7); (4, 1, 2);
    (5, 3, 10); (5, 4, 5); (5, 6, 4); (6, 1, 5); (6, 4, 1) ].

Definition G_direcionado : Graph := (criar_grafo lista_vertices lista_arestas true).1.1.

(** * Python numbers used by the generators *)

(** [math.ceil(math.sqrt(n))], [math.ceil(n / c)] and
    [math.ceil(math.log2(n))] on ints, and [int(0.15 * k)]: each is the
    conversion to an int of a double computed from ints.  For arguments
    below [2^46] the double lies on the same side of every integer as the
    exact value, so the result is the exact ceiling (or floor); the
    definitions give that value.  [math.sqrt] raises on a negative
    argument, the true division on a zero divisor. *)
Definition ceil_sqrt (n : Z) : outcome Z :=
  if bool_decide (n < 0) then Raise ValueError else Ok (Z.sqrt_up n).

Definition ceil_div (n c : Z) : outcome Z :=
  if bool_decide (c = 0) then Raise ZeroDivisionError else Ok (- ((- n) / c)).

Definition ceil_log2 (n : Z) : Z := Z.log2_up n.

Definition int_15_percent (k : nat) : nat := Z.to_nat (15 * Z.of_nat k / 100).

(** [range(k)] and [l[:k]] for an int [k]. *)
Definition zrange (k : Z) : list Z := Z.of_nat <$> seq 0 (Z.to_nat k).

Definition slice_to {A} (l : list A) (k : Z) : list A :=
  if bool_decide (0 ≤ k) then take (Z.to_nat k) l
  else take (length l - Z.to_nat (- k)) l.

(** A Python float is a binary64, as is [float]. *)
Definition py_float (z : Z) : float := SF2Prim (binary_normalize prec emax z 0 false).

(** A Python number: an int or a float.  An int that meets a float in an
    operation is converted first, which raises when it is too large. *)
Inductive num : Type :=
  | NInt (z : Z)
  | NFloat (f : float).

Definition float_of_int (z : Z) : outcome float :=
  if fits_double z then Ok (py_float z) else Raise OverflowError.

Definition to_float (x : num) : outcome float :=
  match x with
  | NInt z => float_of_int z
  | NFloat f => Ok f
  end.

(** [b - a]: exact on two ints. *)
Definition nsub (b a : num) : outcome num :=
  match b, a with
  | NInt x, NInt y => Ok (NInt (x - y))
  | _, _ => fb ← to_float b; fa ← to_float a; Ok (NFloat (fb - fa)%float)
  end.

(** [f > z] for a float and an int: Python compares the exact values. *)
Definition float_gt_int (f : float) (z : Z) : bool :=
  match Prim2SF f with
  | S754_zero _ => bool_decide (z < 0)
  | S754_finite s m e =>
      let v := if s then Z.neg m else Z.pos m in
      if bool_decide (0 ≤ e) then bool_decide (z < v * 2 ^ e)
      else bool_decide (z * 2 ^ (- e) < v)
  | S754_infinity s => negb s
  | S754_nan => false
  end.

(** [a / b] on floats. *)
Definition fdiv (a b : float) : outcome float :=
  if (b =? 0)%float then Raise ZeroDivisionError else Ok (a / b)%float.

(** [math.sqrt] on a float. *)
Definition math_sqrt (x : float) : outcome float :=
  if (x <? 0)%float then Raise ValueError else Ok (PrimFloat.sqrt x).

(** [max(a, b)]: the first argument unless the second is greater. *)
Definition fmax (a b : float) : float := if (a <? b)%float then b else a.

Definition math_pi : float := 3.141592653589793%float.

(** [int(round(w))]: [round] gives the nearest int, the even one on a tie;
    it raises on an infinity or a NaN. *)
Definition round_half_even (m : Z) (e : Z) : Z :=
  if bool_decide (0 ≤ e) then m * 2 ^ e
  else
    let d := 2 ^ (- e) in
    let q := m / d in
    let r := m mod d in
    if bool_decide (2 * r < d) then q
    else if bool_decide (d < 2 * r) then q + 1
    else if Z.even q then q else q + 1.

Definition int_round (w : float) : outcome Z :=
  match Prim2SF w with
  | S754_zero _ => Ok 0
  | S754_finite s m e =>
      let k := round_half_even (Z.pos m) e in
      Ok (if s then - k else k)
  | S754_infinity _ => Raise OverflowError
  | S754_nan => Raise ValueError
  end.

(** * The random module

    [random.Random] is the Mersenne Twister.  The generators call
    [random()], [uniform], [shuffle] and [sample] on an instance they seed
    themselves.  [random()] is computed from two 32-bit outputs; [shuffle]
    and [sample] draw their indices by rejection, so that they return at
    all is a property of the stream.  The core below is what a generator
    state is; the methods built on rejection come with their contract:
    [shuffle] permutes, and [sample] returns as many elements as asked. *)

Record RandomCore : Type := mkRandomCore {
  rng : Type;
  rng_seed : Z → rng;                         (* Random(seed), seed an int *)
  rng_random : rng → float * rng              (* rnd.random() *)
}.

Record PyRandom : Type := mkPyRandom {
  core :> RandomCore;
  rng_shuffle : ∀ A : Type, list A → rng core → list A * rng core;
  rng_sample : ∀ A : Type, list A → nat → rng core → list A * rng core;
  rng_shuffle_perm : ∀ (A : Type) (l : list A) (g : rng core), (rng_shuffle A l g).1 ≡ₚ l;
  rng_sample_length : ∀ (A : Type) (l : list A) (k : nat) (g : rng core),
    (k ≤ length l)%nat → length (rng_sample A l k g).1 = k
}.
Arguments rng_shuffle _ {A} l g.
Arguments rng_sample _ {A} l k g.

(** [random.Random(seed)]: an int seeds the generator; [None] makes it
    read the system's entropy, 624 words of 32 bits, and seed itself with
    them as with the int they spell (the last word not being zero), which
    is [os_entropy]. *)
Definition Random (R : RandomCore) (os_entropy : Z) (seed : option Z) : rng R :=
  match seed with
  | Some s => rng_seed R s
  | None => rng_seed R os_entropy
  end.

(** [rnd.uniform(a, b)] is [a + (b - a) * self.random()]. *)
Definition uniform (R : RandomCore) (a b : num) (g : rng R) : outcome (float * rng R) :=
  d ← nsub b a;
  let '(r, g') := rng_random R g in
  fd ← to_float d;
  fa ← to_float a;
  Ok ((fa + fd * r)%float, g').

(** [rnd.sample(population, k)] *)
Definition sample (R : PyRandom) {A} (population : list A) (k : Z) (g : rng R)
    : outcome (list A * rng R) :=
  if bool_decide (0 ≤ k ≤ Z.of_nat (length population))
  then Ok (rng_sample R population (Z.to_nat k) g)
  else Raise ValueError.

(** * Questão 3: GeradorDeGrafos.py *)

(** A dict in insertion order: its items.  The comprehensions below insert
    pairwise distinct keys. *)
Fixpoint assoc {K V} `{EqDecision K} (k : K) (d : list (K * V)) : option V :=
  match d with
  | [] => None
  | (k', v) :: d' => if decide (k = k') then Some v else assoc k d'
  end.

Definition _label (i : Z) : Z := i.

(** An unweighted edge: a pair of labels. *)
Abbreviation edge := (Z * Z)%type (only parsing).

Section weights.
Context (R : RandomCore) (os_entropy : Z).

(** One pass of the loop of [_assign_weights]. *)
Definition weigh (w_min w_max : Z) (controlled : bool) (long_tail_frac : float)
    (s : rng R * list (Z * Z * Z)) (e : edge) : outcome (rng R * list (Z * Z * Z)) :=
  let '(rnd, weighted) := s in
  let '(u, v) := e in
  '(w, rnd) ←
    (if negb controlled then uniform R (NInt w_min) (NInt w_max) rnd
     else
       let '(x, rnd) := rng_random R rnd in
       if (x <? long_tail_frac)%float
       then
         f ← float_of_int w_max;
         uniform R (NFloat (f * 0.6 + 1)%float) (NInt w_max) rnd
       else
         f ← float_of_int w_max;
         let top := (f * 0.3)%float in
         (* [max(w_min+1, w_max*0.3)]: the first unless the second is greater *)
         uniform R (NInt w_min)
                   (if float_gt_int top (w_min + 1) then NFloat top else NInt (w_min + 1))
                   rnd);
  k ← int_round w;
  Ok (rnd, weighted ++ [(u, v, k)]).

Definition _assign_weights (edges : list edge) (seed : option Z) (w_min w_max : Z)
    (controlled : bool) (long_tail_frac : float) : outcome (list (Z * Z * Z)) :=
  let rnd := Random R os_entropy seed in
  '(_, weighted) ← for_each edges (weigh w_min w_max controlled long_tail_frac) (rnd, []);
  Ok weighted.

Definition build_weighted_graph (vertices : list Z) (edges_pairs : list edge)
    (seed : option Z) (w_min w_max : Z) (controlled : bool)
    : outcome (list Z * list (Z * Z * Z)) :=
  weighted ← _assign_weights edges_pairs seed w_min w_max controlled 0.05%float;
  Ok (vertices, weighted).
End weights.

(** The lattice cells, row by row, cut to [n_vertices] of them. *)
Definition grid_coords (rows cols n_vertices : Z) : list (Z * Z) :=
  slice_to (r ← zrange rows; c ← zrange cols; [(r, c)]) n_vertices.

Definition index_items (coords : list (Z * Z)) : list ((Z * Z) * nat) :=
  imap (λ i rc, (rc, i)) coords.

(** [if key in index_of: edges.append((vertices[i], vertices[index_of[key]]))] *)
Definition link (index_of : list ((Z * Z) * nat)) (vertices : list Z) (i : nat)
    (key : Z * Z) (edges : list edge) : outcome (list edge) :=
  match assoc key index_of with
  | Some k => u ← lget vertices i; v ← lget vertices k; Ok (edges ++ [(u, v)])
  | None => Ok edges
  end.

(** The body of the loop of lines 76-87. *)
Definition grid_step (index_of : list ((Z * Z) * nat)) (vertices : list Z)
    (connect_diagonals : bool) (edges : list edge) (item : (Z * Z) * nat)
    : outcome (list edge) :=
  let '((r, c), i) := item in
  edges ← link index_of vertices i (r, c + 1) edges;
  edges ← link index_of vertices i (r + 1, c) edges;
  if connect_diagonals then
    edges ← link index_of vertices i (r + 1, c + 1) edges;
    link index_of vertices i (r + 1, c - 1) edges
  else Ok edges.

Section grid.
Context (R : RandomCore) (os_entropy : Z).

Definition grid_graph (n_vertices : Z) (seed : option Z) (connect_diagonals : bool)
    : outcome (list Z * list edge) :=
  let rnd := Random R os_entropy seed in
  cols ← ceil_sqrt n_vertices;
  rows ← ceil_div n_vertices cols;
  let coords := grid_coords rows cols n_vertices in
  let index_of := index_items coords in
  let vertices := (λ i : nat, _label (Z.of_nat i + 1)) <$> range (length coords) in
  edges ← for_each index_of (grid_step index_of vertices connect_diagonals) [];
  Ok (vertices, edges).
End grid.

(** The nested [find] of [grid_maze_like], on the list [parent] it closes
    over; [fuel] bounds the evaluations of the loop test. *)
Fixpoint find (fuel : nat) (parent : list nat) (a : nat) : outcome (nat * list nat) :=
  match fuel with
  | O => Diverge
  | S fuel' =>
      pa ← lget parent a;
      if decide (pa ≠ a) then
        gp ← lget parent pa;
        parent ← lset parent a gp;
        a ← lget parent a;
        find fuel' parent a
      else Ok (a, parent)
  end.

(** A chain of parents visits no index twice, so as many tests as there
    are indices, and one more, always suffice. *)
Definition find_budget (parent : list nat) : nat := S (length parent).

Definition union (parent : list nat) (a b : nat) : outcome (list nat) :=
  '(ra, parent) ← find (find_budget parent) parent a;
  '(rb, parent) ← find (find_budget parent) parent b;
  lset parent ra rb.

(** One pass of the loop of lines 131-136. *)
Definition kruskal_step (s : list nat * list edge) (e : edge)
    : outcome (list nat * list edge) :=
  let '(parent, edges) := s in
  let '(u, v) := e in
  let ui := Z.to_nat (u - 1) in
  let vi := Z.to_nat (v - 1) in
  '(ru, parent) ← find (find_budget parent) parent ui;
  '(rv, parent) ← find (find_budget parent) parent vi;
  if decide (ru ≠ rv) then
    parent ← union parent ui vi;
    Ok (parent, edges ++ [(u, v)])
  else Ok (parent, edges).

(** The body of the loop of lines 107-114. *)
Definition possible_step (index_of : list ((Z * Z) * nat)) (vertices : list Z)
    (possible : list edge) (item : (Z * Z) * nat) : outcome (list edge) :=
  let '((r, c), i) := item in
  possible ← link index_of vertices i (r, c + 1) possible;
  link index_of vertices i (r + 1, c) possible.

(** What [grid_maze_like] builds on the way. *)
Record maze_run : Type := mkMaze {
  mz_vertices : list Z;
  mz_possible : list edge;      (* the candidate edges of the grid *)
  mz_tree : list edge;          (* [edges] after the union-find loop *)
  mz_candidates : list edge;    (* [candidates], shuffled *)
  mz_extras : nat               (* [extras] *)
}.

Section maze.
Context (R : PyRandom) (os_entropy : Z).

Definition maze_trace (n_vertices : Z) (seed : option Z) : outcome maze_run :=
  '(vertices, _) ← grid_graph R os_entropy n_vertices seed false;
  let n := Z.of_nat (length vertices) in
  cols ← ceil_sqrt n;
  rows ← ceil_div n cols;
  let coords := grid_coords rows cols n in
  let index_of := index_items coords in
  possible ← for_each index_of (possible_step index_of vertices) [];
  let rnd := Random R os_entropy seed in
  let parent := range (length vertices) in
  let '(shuffled, rnd) := rng_shuffle R possible rnd in
  '(_, edges) ← for_each shuffled kruskal_step (parent, []);
  let extras := int_15_percent (length possible) in
  let candidates :=
    filter (λ e : edge, (e ∉ edges) ∧ ((e.2, e.1) ∉ edges)) possible in
  let '(candidates, rnd) := rng_shuffle R candidates rnd in
  Ok (mkMaze vertices possible edges candidates extras).

Definition grid_maze_like (n_vertices : Z) (seed : option Z)
    : outcome (list Z * list edge) :=
  t ← maze_trace n_vertices seed;
  Ok (mz_vertices t, mz_tree t ++ take (mz_extras t) (mz_candidates t)).
End maze.

(** [dx*dx + dy*dy <= radius*radius] for two points. *)
Definition within (radius : float) (p q : float * float) : bool :=
  let dx := (p.1 - q.1)%float in
  let dy := (p.2 - q.2)%float in
  (dx * dx + dy * dy <=? radius * radius)%float.

Section geometric.
Context (R : RandomCore) (os_entropy : Z).
(** [math.log] on an int. *)
Variable math_log : Z → float.

(** Lines 156-157. *)
Definition default_radius (n_vertices : Z) : outcome float :=
  let factor := 1.5%float in
  let l := math_log (Z.max 2 n_vertices) in
  f ← float_of_int n_vertices;
  q ← fdiv l (math_pi * f)%float;
  s ← math_sqrt (fmax 1e-9 q);
  Ok (factor * s)%float.

(** [[(rnd.random(), rnd.random()) for _ in range(k)]] *)
Fixpoint draw_points (k : nat) (rnd : rng R) : list (float * float) * rng R :=
  match k with
  | O => ([], rnd)
  | S k' =>
      let '(x, rnd) := rng_random R rnd in
      let '(y, rnd) := rng_random R rnd in
      let '(rest, rnd) := draw_points k' rnd in
      ((x, y) :: rest, rnd)
  end.

(** The double loop of lines 161-167. *)
Definition close_pairs (n : nat) (points : list (float * float)) (vertices : list Z)
    (radius : float) : outcome (list edge) :=
  for_each (range n)
    (λ edges i,
       pi ← lget points i;
       for_each (seq (S i) (n - S i))
         (λ edges j,
            pj ← lget points j;
            if within radius pi pj then
              u ← lget vertices i; v ← lget vertices j; Ok (edges ++ [(u, v)])
            else Ok edges)
         edges)
    [].

Definition random_geometric_graph (n_vertices : Z) (seed : option Z)
    (radius : option float) : outcome (list Z * list edge) :=
  let rnd := Random R os_entropy seed in
  let '(points, rnd) := draw_points (Z.to_nat n_vertices) rnd in
  radius ← match radius with
           | None => default_radius n_vertices
           | Some r => Ok r
           end;
  let vertices := (λ i, _label (i + 1)) <$> zrange n_vertices in
  edges ← close_pairs (Z.to_nat n_vertices) points vertices radius;
  Ok (vertices, edges).
End geometric.

(** [d[k]] on a dict. *)
Definition dict_at {V} (d : gmap Z V) (k : Z) : outcome V :=
  match d !! k with
  | Some v => Ok v
  | None => Raise KeyError
  end.

(** [adj[u].append(v); adj[v].append(u)] *)
Definition add_adjacent (adj : gmap Z (list Z)) (e : edge) : outcome (gmap Z (list Z)) :=
  let '(u, v) := e in
  lu ← dict_at adj u;
  let adj := <[u := lu ++ [v]]> adj in
  lv ← dict_at adj v;
  Ok (<[v := lv ++ [u]]> adj).

(** The inner loop of the search, lines 211-213. *)
Definition visit (s : gset Z * list Z) (nb : Z) : gset Z * list Z :=
  let '(visited, q) := s in
  if decide (nb ∈ visited) then (visited, q) else ({[nb]} ∪ visited, q ++ [nb]).

(** The [while q] loop; [fuel] bounds the number of vertices popped. *)
Fixpoint bfs (fuel : nat) (adj : gmap Z (list Z)) (q : list Z) (visited : gset Z)
    : outcome (gset Z) :=
  match q with
  | [] => Ok visited
  | x :: q =>
      match fuel with
      | O => Diverge
      | S fuel' =>
          nbs ← dict_at adj x;
          let '(visited, q) := foldl visit (visited, q) nbs in
          bfs fuel' adj q visited
      end
  end.

(** Lines 192-198: the edges from one surviving vertex. *)
Definition cube_edges_from (index_map : gmap Z Z) (d : Z) (edges : list edge) (b : Z)
    : outcome (list edge) :=
  for_each (zrange d)
    (λ edges bit,
       let nb := Z.lxor b (Z.shiftl 1 bit) in
       if bool_decide (is_Some (index_map !! nb)) && bool_decide (b < nb) then
         u ← dict_at index_map b; v ← dict_at index_map nb; Ok (edges ++ [(u, v)])
       else Ok edges)
    edges.

(** Lines 200-218: keep the component of the first vertex.  A vertex
    enters the queue once, so no more vertices are popped than there are. *)
Definition keep_component (vertices : list Z) (edges : list edge)
    : outcome (list Z * list edge) :=
  match vertices with
  | [] => Ok (vertices, edges)
  | start :: _ =>
      let adj : gmap Z (list Z) := foldl (λ m v, <[v := []]> m) ∅ vertices in
      adj ← for_each edges add_adjacent adj;
      visited ← bfs (length vertices) adj [start] {[start]};
      if decide (size visited < length vertices)%nat then
        Ok (filter (λ v, v ∈ visited) vertices,
            filter (λ e : edge, (e.1 ∈ visited) ∧ (e.2 ∈ visited)) edges)
      else Ok (vertices, edges)
  end.

Section hypercube.
Context (R : PyRandom) (os_entropy : Z).

Definition hypercube_graph (n_vertices : Z) (seed : option Z)
    : outcome (list Z * list edge) :=
  let rnd := Random R os_entropy seed in
  let d := ceil_log2 (Z.max 1 n_vertices) in
  let N := 2 ^ d in
  let vertices_binary := zrange N in
  vertices_binary ←
    (if bool_decide (n_vertices < N) then
       let remove_count := N - n_vertices in
       '(drawn, _) ← sample R vertices_binary remove_count rnd;
       let to_remove : gset Z := list_to_set drawn in
       Ok (filter (λ v, v ∉ to_remove) vertices_binary)
     else Ok vertices_binary);
  let index_map : gmap Z Z :=
    foldl (λ m '(i, b), <[b := Z.of_nat i + 1]> m) ∅
          (imap (λ i b, (i, b)) vertices_binary) in
  vertices ← mapM (dict_at index_map) vertices_binary;
  edges ← for_each vertices_binary (cube_edges_from index_map d) [];
  keep_component vertices edges.
End hypercube.

(** The [meta] dict of an entry of [make_all_graphs]. *)
Record meta : Type := mkMeta {
  raw_edges : nat;
  actual_vertices : option nat   (* only the hypercube records it *)
}.

Record entry : Type := mkEntry {
  en_vertices : list Z;
  en_edges : list (Z * Z * Z);
  en_meta : meta
}.

Record all_graphs : Type := mkAll {
  ag_grid : gmap Z entry;
  ag_maze : gmap Z entry;
  ag_geometric : gmap Z entry;
  ag_hypercube : gmap Z entry
}.

Section runner.
Context (R : PyRandom) (os_entropy : Z) (math_log : Z → float).

(** The body of the loop of [make_all_graphs]. *)
Definition make_graphs_for (seed w_min w_max : Z) (controlled_weights : bool)
    (result : all_graphs) (n : Z) : outcome all_graphs :=
  '(v_g, e_g) ← grid_graph R os_entropy n (Some seed) false;
  '(vs, ws) ← build_weighted_graph R os_entropy v_g e_g (Some (seed + 1 + n))
                w_min w_max controlled_weights;
  let grid := <[n := mkEntry vs ws (mkMeta (length e_g) None)]> (ag_grid result) in
  '(v_m, e_m) ← grid_maze_like R os_entropy n (Some seed);
  '(vs, ws) ← build_weighted_graph R os_entropy v_m e_m (Some (seed + 2 + n))
                w_min w_max controlled_weights;
  let maze := <[n := mkEntry vs ws (mkMeta (length e_m) None)]> (ag_maze result) in
  '(v_r, e_r) ← random_geometric_graph R os_entropy math_log n (Some seed) None;
  '(vs, ws) ← build_weighted_graph R os_entropy v_r e_r (Some (seed + 3 + n))
                w_min w_max controlled_weights;
  let geometric :=
    <[n := mkEntry vs ws (mkMeta (length e_r) None)]> (ag_geometric result) in
  '(v_h, e_h) ← hypercube_graph R os_entropy n (Some seed);
  '(vs, ws) ← build_weighted_graph R os_entropy v_h e_h (Some (seed + 4 + n))
                w_min w_max controlled_weights;
  let hypercube :=
    <[n := mkEntry vs ws (mkMeta (length e_h) (Some (length v_h)))]>
      (ag_hypercube result) in
  Ok (mkAll grid maze geometric hypercube).

Definition make_all_graphs (sizes : list Z) (seed w_min w_max : Z)
    (controlled_weights : bool) : outcome all_graphs :=
  for_each sizes (make_graphs_for seed w_min w_max controlled_weights)
           (mkAll ∅ ∅ ∅ ∅).
End runner.

(** * The Mersenne Twister of CPython

    [random.Random] as [Modules/_randommodule.c] implements it: the state
    is 624 words of 32 bits and a position; an int seeds it through
    [init_by_array] on the 32-bit words of its absolute value. *)

Definition u32 (x : Z) : Z := Z.land x 0xffffffff.

Definition mt_N : nat := 624.
Definition mt_M : nat := 397.

Fixpoint init_genrand_from (k : nat) (mti : Z) (prev : Z) : list Z :=
  match k with
  | O => []
  | S k' =>
      let x := u32 (1812433253 * Z.lxor prev (Z.shiftr prev 30) + mti) in
      x :: init_genrand_from k' (mti + 1) x
  end.

Definition init_genrand (s : Z) : list Z :=
  u32 s :: init_genrand_from (mt_N - 1) 1 (u32 s).

(** [if (i >= N) { mt[0] = mt[N-1]; i = 1; }] *)
Definition wrap_index (mt : list Z) (i : nat) : list Z * nat :=
  if decide (mt_N ≤ i)%nat then (<[0%nat := mt !!! (mt_N - 1)%nat]> mt, 1%nat) else (mt, i).

Fixpoint key_loop (k : nat) (init_key : list Z) (mt : list Z) (i j : nat) : list Z * nat :=
  match k with
  | O => (mt, i)
  | S k' =>
      let prev := mt !!! (i - 1)%nat in
      let x := u32 (Z.lxor (mt !!! i) (u32 (Z.lxor prev (Z.shiftr prev 30) * 1664525))
                    + init_key !!! j + Z.of_nat j) in
      let '(mt, i) := wrap_index (<[i := x]> mt) (S i) in
      let j := if decide (length init_key ≤ S j)%nat then 0%nat else S j in
      key_loop k' init_key mt i j
  end.

Fixpoint mix_loop (k : nat) (mt : list Z) (i : nat) : list Z :=
  match k with
  | O => mt
  | S k' =>
      let prev := mt !!! (i - 1)%nat in
      let x := u32 (Z.lxor (mt !!! i) (u32 (Z.lxor prev (Z.shiftr prev 30) * 1566083941))
                    - Z.of_nat i) in
      let '(mt, i) := wrap_index (<[i := x]> mt) (S i) in
      mix_loop k' mt i
  end.

Definition init_by_array (init_key : list Z) : list Z :=
  let mt := init_genrand 19650218 in
  let '(mt, i) := key_loop (max mt_N (length init_key)) init_key mt 1 0 in
  let mt := mix_loop (mt_N - 1) mt i in
  <[0%nat := 0x80000000]> mt.

(** The 32-bit words of a non-negative int, the least significant first;
    [fuel] bounds their number. *)
Fixpoint words_of (fuel : nat) (a : Z) : list Z :=
  match fuel with
  | O => []
  | S fuel' => if bool_decide (a = 0) then [] else u32 a :: words_of fuel' (Z.shiftr a 32)
  end.

Definition key_of_seed (seed : Z) : list Z :=
  let a := Z.abs seed in
  if bool_decide (a = 0) then [0] else words_of (S (Z.to_nat (Z.log2 a))) a.

(** The state: the words and the position of the next one. *)
Definition mt_state : Type := list Z * nat.

Definition mt_seed (seed : Z) : mt_state := (init_by_array (key_of_seed seed), mt_N).

(** The regeneration of the 624 words: word [kk] from words [kk], [kk+1]
    and [kk+M], the indices taken modulo 624. *)
Definition twist_word (mt : list Z) (kk : nat) : list Z :=
  let y := Z.lor (Z.land (mt !!! kk) 0x80000000)
                 (Z.land (mt !!! ((kk + 1) `mod` mt_N)%nat) 0x7fffffff) in
  let mag := if Z.testbit y 0 then 0x9908b0df else 0 in
  <[kk := Z.lxor (Z.lxor (mt !!! ((kk + mt_M) `mod` mt_N)%nat) (Z.shiftr y 1)) mag]> mt.

Definition temper (y : Z) : Z :=
  let y := Z.lxor y (Z.shiftr y 11) in
  let y := Z.lxor y (Z.land (Z.shiftl y 7) 0x9d2c5680) in
  let y := Z.lxor y (Z.land (Z.shiftl y 15) 0xefc60000) in
  Z.lxor y (Z.shiftr y 18).

Definition genrand_uint32 (s : mt_state) : Z * mt_state :=
  let '(mt, index) := s in
  let '(mt, index) :=
    if decide (mt_N ≤ index)%nat then (foldl twist_word mt (range mt_N), 0%nat)
    else (mt, index) in
  (temper (mt !!! index), (mt, S index)).

(** [(a*67108864.0+b)*(1.0/9007199254740992.0)] with [a], [b] the top 27
    and 26 bits of two outputs. *)
Definition mt_random (s : mt_state) : float * mt_state :=
  let '(x, s) := genrand_uint32 s in
  let '(y, s) := genrand_uint32 s in
  let a := py_float (Z.shiftr x 5) in
  let b := py_float (Z.shiftr y 6) in
  (((a * 67108864 + b) * (1 / 9007199254740992))%float, s).

Definition MersenneTwister : RandomCore := mkRandomCore mt_state mt_seed mt_random.

(** A seed for which the two first points drawn coincide: the int whose
    32-bit words, the least significant first, are [2024 - j] at position
    [j] of 624, but for the six words from position 400 on. *)
Definition twin_seed_words : list Z :=
  ((λ j : nat, 2024 - Z.of_nat j) <$> seq 0 400) ++
  [0x102d57bd; 0x5bf5840a; 0xa353d435; 0x8c1a1e4c; 0x558de08c; 0x873cc22e] ++
  ((λ j : nat, 2024 - Z.of_nat j) <$> seq 406 218).

Definition twin_seed : Z := foldr (λ w acc, w + 2 ^ 32 * acc) 0 twin_seed_words.

(** ** The methods of [random.py] on the twister

    [getrandbits], [_randbelow], [shuffle] and [sample] as [Lib/random.py]
    and [_randommodule.c] write them.  The two rejection loops are cut after
    [draw_budget] draws, where they settle for a value in range: a run that
    gets there has left Python's behaviour. *)

Definition draw_budget : nat := 64.

(** [getrandbits(k)] for [k > 0]: the top bits of one output when
    [k <= 32], else words filled from the least significant one. *)
Fixpoint getrandbits_words (words : nat) (k : Z) (s : mt_state) : Z * mt_state :=
  match words with
  | O => (0, s)
  | S words' =>
      let '(r, s) := genrand_uint32 s in
      let r := if bool_decide (k < 32) then Z.shiftr r (32 - k) else r in
      let '(hi, s) := getrandbits_words words' (k - 32) s in
      (r + 2 ^ 32 * hi, s)
  end.

Definition getrandbits (k : Z) (s : mt_state) : Z * mt_state :=
  getrandbits_words (Z.to_nat ((k - 1) / 32 + 1)) k s.

Fixpoint randbelow_loop (fuel : nat) (n k : Z) (r : Z) (s : mt_state) : Z * mt_state :=
  if bool_decide (r < n) then (r, s)
  else
    match fuel with
    | O => (r `mod` n, s)
    | S fuel' => let '(r, s) := getrandbits k s in randbelow_loop fuel' n k r s
    end.

(** [_randbelow(n)] for [n > 0]; [n.bit_length()] is [Z.log2 n + 1]. *)
Definition randbelow (n : Z) (s : mt_state) : Z * mt_state :=
  let k := Z.log2 n + 1 in
  let '(r, s) := getrandbits k s in
  randbelow_loop draw_budget n k r s.

(** [x[i], x[j] = x[j], x[i]] *)
Definition swap {A} (x : list A) (i j : nat) : list A :=
  match x !! i, x !! j with
  | Some xi, Some xj => <[j := xi]> (<[i := xj]> x)
  | _, _ => x
  end.

(** [for i in reversed(range(1, len(x))): j = randbelow(i + 1); swap] with
    [k] the number of indices left, the next one being [k]. *)
Fixpoint shuffle_from {A} (k : nat) (x : list A) (s : mt_state) : list A * mt_state :=
  match k with
  | O => (x, s)
  | S k' =>
      let '(j, s) := randbelow (Z.of_nat k + 1) s in
      shuffle_from k' (swap x k (Z.to_nat j)) s
  end.

Definition mt_shuffle (A : Type) (x : list A) (s : mt_state) : list A * mt_state :=
  shuffle_from (length x - 1) x s.

(** The pool branch of [sample]: [i] counts the picks made. *)
Fixpoint sample_pool {A} (k : nat) (i : nat) (pool : list A) (s : mt_state)
    : list A * mt_state :=
  match k with
  | O => ([], s)
  | S k' =>
      let n := length pool in
      let '(j, s) := randbelow (Z.of_nat (n - i)) s in
      let picked := option_list (pool !! Z.to_nat j) in
      let pool := from_option (λ y, <[Z.to_nat j := y]> pool) pool (pool !! (n - i - 1)%nat) in
      let '(rest, s) := sample_pool k' (S i) pool s in
      (picked ++ rest, s)
  end.

Fixpoint fresh_index (fuel : nat) (n : Z) (selected : list Z) (j : Z) (s : mt_state)
    : Z * mt_state :=
  if bool_decide (j ∉ selected) then (j, s)
  else
    match fuel with
    | O => (j, s)
    | S fuel' => let '(j, s) := randbelow n s in fresh_index fuel' n selected j s
    end.

(** The set branch of [sample]. *)
Fixpoint sample_set {A} (k : nat) (population : list A) (selected : list Z) (s : mt_state)
    : list A * mt_state :=
  match k with
  | O => ([], s)
  | S k' =>
      let n := Z.of_nat (length population) in
      let '(j, s) := randbelow n s in
      let '(j, s) := fresh_index draw_budget n selected j s in
      let picked := option_list (population !! Z.to_nat j) in
      let '(rest, s) := sample_set k' population (j :: selected) s in
      (picked ++ rest, s)
  end.

(** [setsize]: 21, and [4 ** ceil(log(3k, 4))] more when [k > 5]. *)
Definition setsize (k : nat) : Z :=
  if decide (5 < k)%nat then 21 + 4 ^ ((Z.log2_up (3 * Z.of_nat k) + 1) / 2) else 21.

Definition mt_sample (A : Type) (population : list A) (k : nat) (s : mt_state)
    : list A * mt_state :=
  if bool_decide (Z.of_nat (length population) ≤ setsize k)
  then sample_pool k 0 population s
  else sample_set k population [] s.

Lemma swap_perm {A} (x : list A) (i j : nat) : swap x i j ≡ₚ x.
Proof.
  unfold swap.
  destruct (x !! i) as [xi|] eqn:Hi; [|done].
  destruct (x !! j) as [xj|] eqn:Hj; [|done].
  apply Permutation_inj. split.
  { by rewrite !length_insert. }
  exists (λ k, if decide (k = i) then j else if decide (k = j) then i else k).
  split.
  - intros a b. repeat case_decide; intros; subst; congruence.
  - intros k. pose proof (lookup_lt_Some _ _ _ Hi). pose proof (lookup_lt_Some _ _ _ Hj).
    destruct (decide (k = i)) as [->|Hki].
    + rewrite Hj. destruct (decide (i = j)) as [->|Hij].
      * rewrite list_lookup_insert_eq; [congruence | by rewrite length_insert].
      * rewrite list_lookup_insert_ne by done. by rewrite list_lookup_insert_eq.
    + destruct (decide (k = j)) as [->|Hkj].
      * rewrite Hi. rewrite list_lookup_insert_eq; [done | by rewrite length_insert].
      * by rewrite !list_lookup_insert_ne.
Qed.

Lemma shuffle_from_perm {A} (k : nat) (x : list A) (s : mt_state) :
  (shuffle_from k x s).1 ≡ₚ x.
Proof.
  revert x s. induction k as [|k IH]; intros x s; [done|].
  cbn [shuffle_from]. destruct (randbelow _ s) as [j s'].
  rewrite IH. apply swap_perm.
Qed.

Lemma mt_shuffle_perm (A : Type) (l : list A) (g : rng MersenneTwister) :
  (mt_shuffle A l g).1 ≡ₚ l.
Proof. apply shuffle_from_perm. Qed.

Lemma randbelow_loop_lt fuel n k r s : 0 < n → (randbelow_loop fuel n k r s).1 < n.
Proof.
  intros Hn. revert r s. induction fuel as [|fuel IH]; intros r s; simpl.
  - case_bool_decide; [done|]. simpl. apply Z.mod_pos_bound. lia.
  - case_bool_decide; [done|]. destruct (getrandbits k s) as [r' s']. apply IH.
Qed.

Lemma randbelow_lt n s : 0 < n → (randbelow n s).1 < n.
Proof.
  intros Hn. unfold randbelow. destruct (getrandbits _ s) as [r s'].
  by apply randbelow_loop_lt.
Qed.

Lemma fresh_index_lt fuel n selected j s :
  0 < n → j < n → (fresh_index fuel n selected j s).1 < n.
Proof.
  intros Hn. revert j s. induction fuel as [|fuel IH]; intros j s Hj; simpl.
  - by case_bool_decide.
  - case_bool_decide; [done|].
    pose proof (randbelow_lt n s Hn). destruct (randbelow n s) as [j' s']. by apply IH.
Qed.

Lemma sample_pool_length {A} (k i : nat) (pool : list A) (s : mt_state) :
  (i + k ≤ length pool)%nat → length (sample_pool k i pool s).1 = k.
Proof.
  revert i pool s. induction k as [|k IH]; intros i pool s Hk; [done|].
  cbn [sample_pool].
  pose proof (randbelow_lt (Z.of_nat (length pool - i)) s ltac:(lia)) as Hj.
  destruct (randbelow _ s) as [j s1]. simpl in Hj.
  destruct (lookup_lt_is_Some_2 pool (Z.to_nat j) ltac:(lia)) as [x Hx].
  destruct (lookup_lt_is_Some_2 pool (length pool - i - 1) ltac:(lia)) as [y Hy].
  rewrite Hx, Hy. simpl.
  specialize (IH (S i) (<[Z.to_nat j := y]> pool) s1).
  rewrite length_insert in IH. specialize (IH ltac:(lia)).
  destruct (sample_pool k (S i) _ s1) as [rest s2]. simpl in *. by rewrite IH.
Qed.

Lemma sample_set_length {A} (k : nat) (population : list A) (selected : list Z)
    (s : mt_state) :
  (k ≤ length population)%nat → length (sample_set k population selected s).1 = k.
Proof.
  intros Hk. revert selected s. induction k as [|k IH]; intros selected s; [done|].
  cbn [sample_set].
  pose proof (randbelow_lt (Z.of_nat (length population)) s ltac:(lia)) as Hj.
  destruct (randbelow _ s) as [j s1]. simpl in Hj.
  pose proof (fresh_index_lt draw_budget (Z.of_nat (length population)) selected j s1
                ltac:(lia) Hj) as Hj'.
  destruct (fresh_index _ _ selected j s1) as [j' s2]. simpl in Hj'.
  destruct (lookup_lt_is_Some_2 population (Z.to_nat j') ltac:(lia)) as [x Hx].
  rewrite Hx. simpl.
  specialize (IH ltac:(lia) (j' :: selected) s2).
  destruct (sample_set k population _ s2) as [rest s3]. simpl in *. by rewrite IH.
Qed.

Lemma mt_sample_length (A : Type) (l : list A) (k : nat) (g : rng MersenneTwister) :
  (k ≤ length l)%nat → length (mt_sample A l k g).1 = k.
Proof.
  intros Hk. unfold mt_sample. case_bool_decide.
  - by apply sample_pool_length.
  - by apply sample_set_length.
Qed.

(** [random.Random] with all the methods the generators call. *)
Definition Twister : PyRandom :=
  mkPyRandom MersenneTwister mt_shuffle mt_sample mt_shuffle_perm mt_sample_length.

(** The first draws of [random.Random(42)], as CPython gives them. *)
Example mt_random_42 :
  (mt_random (mt_seed 42)).1 = 0.6394267984578837%float.
Proof. by vm_compute. Qed.

Example mt_shuffle_42 :
  (mt_shuffle Z (zrange 10) (mt_seed 42)).1 = [7; 3; 2; 8; 5; 6; 9; 4; 0; 1].
Proof. by vm_compute. Qed.

Example mt_sample_42 :
  (mt_sample Z (zrange 16) 5 (mt_seed 42)).1 = [3; 0; 11; 4; 15].
Proof. by vm_compute. Qed.

(** * Loops that do not raise *)

Lemma bind_Ok {A B} (m : outcome A) (f : A → outcome B) (a : A) :
  m = Ok a → (m ≫= f) = f a.
Proof. by intros ->. Qed.

Lemma bind_Ok_inv {A B} (m : outcome A) (f : A → outcome B) (b : B) :
  (m ≫= f) = Ok b → ∃ a, m = Ok a ∧ f a = Ok b.
Proof. destruct m as [a| |]; [|done..]. intros H. by exists a. Qed.

Lemma lget_Some {A} (l : list A) (i : nat) (x : A) : l !! i = Some x → lget l i = Ok x.
Proof. intros H. unfold lget. by rewrite H. Qed.

Lemma lset_lt {A} (l : list A) (i : nat) (x : A) :
  (i < length l)%nat → lset l i x = Ok (<[i := x]> l).
Proof. intros H. unfold lset. by rewrite decide_True. Qed.

(** Unfold the binds of the goal that have a value. *)
Ltac obind := cbn [mbind outcome_bind obind].

(** A loop whose body keeps an invariant of the elements done and the
    state, and returns under it, returns with it. *)
Lemma for_each_ind {A S} (P : list A → S → Prop) (xs : list A)
    (body : S → A → outcome S) (s : S) :
  P [] s →
  (∀ done x rest s, xs = done ++ x :: rest → P done s →
     ∃ s', body s x = Ok s' ∧ P (done ++ [x]) s') →
  ∃ s', for_each xs body s = Ok s' ∧ P xs s'.
Proof.
  intros H0 Hstep.
  assert (∀ done rest s, xs = done ++ rest → P done s →
            ∃ s', for_each rest body s = Ok s' ∧ P xs s') as Hgen.
  { intros done rest. revert done. induction rest as [|x rest IH]; intros done s1 Hxs HP.
    - exists s1. rewrite app_nil_r in Hxs. by subst.
    - destruct (Hstep done x rest s1 Hxs HP) as (s2 & Hb & HP2).
      simpl. rewrite Hb. simpl. apply (IH (done ++ [x])); [|done].
      by rewrite <-(assoc_L (++)). }
  by apply (Hgen [] xs s).
Qed.

(** Run the loop of the goal under the invariant [P]. *)
Ltac loop_inv P :=
  match goal with
  | |- context [for_each ?xs ?b ?s] =>
      let H := fresh "Hloop" in
      destruct (for_each_ind P xs b s) as (? & H & ?); [ | | rewrite H; cbn [mbind outcome_bind obind]]
  end.

Lemma for_each_app {A S} (xs ys : list A) (body : S → A → outcome S) (s : S) :
  for_each (xs ++ ys) body s = (for_each xs body s ≫= for_each ys body).
Proof.
  revert s. induction xs as [|x xs IH]; intros s; [done|].
  simpl. destruct (body s x); simpl; [apply IH|done..].
Qed.

(** * The grid *)

(** The labels [1..k]. *)
Definition labels (k : nat) : list Z := (λ i : nat, _label (Z.of_nat i + 1)) <$> range k.

Lemma labels_length k : length (labels k) = k.
Proof. unfold labels, range. by rewrite length_fmap, length_seq. Qed.

Lemma labels_lookup k i : (i < k)%nat → labels k !! i = Some (Z.of_nat i + 1).
Proof.
  intros H. unfold labels, range. rewrite list_lookup_fmap, lookup_seq_lt by done. done.
Qed.

Lemma lget_labels k i : (i < k)%nat → lget (labels k) i = Ok (Z.of_nat i + 1).
Proof. intros H. unfold lget. by rewrite labels_lookup. Qed.

Lemma elem_of_labels k u : u ∈ labels k ↔ 1 ≤ u ≤ Z.of_nat k.
Proof.
  unfold labels, range, _label. rewrite list_elem_of_fmap. split.
  - intros (i & -> & Hi). apply elem_of_seq in Hi. lia.
  - intros H. exists (Z.to_nat (u - 1)). split; [lia|]. apply elem_of_seq. lia.
Qed.

Lemma zrange_labels n : (λ i, _label (i + 1)) <$> zrange n = labels (Z.to_nat n).
Proof. unfold zrange, labels, range. by rewrite <-list_fmap_compose. Qed.

Lemma ceil_sqrt_pos n : 1 ≤ n → ∃ cols, ceil_sqrt n = Ok cols ∧ 1 ≤ cols.
Proof.
  intros H. exists (Z.sqrt_up n). unfold ceil_sqrt.
  rewrite bool_decide_eq_false_2 by lia. split; [done|].
  pose proof (Z.sqrt_up_pos n). lia.
Qed.

Lemma ceil_div_covers n cols :
  1 ≤ cols → ∃ rows, ceil_div n cols = Ok rows ∧ n ≤ rows * cols.
Proof.
  intros H. exists (- (- n / cols)). unfold ceil_div.
  rewrite bool_decide_eq_false_2 by lia. split; [done|].
  pose proof (Z.mul_div_le (- n) cols). nia.
Qed.

(** The cells of one row, and of the rows from [r0] on. *)
Lemma row_cells (r : Z) (cols : nat) :
  ((Z.of_nat <$> seq 0 cols) ≫= λ c, [(r, c)]) = (λ c : nat, (r, Z.of_nat c)) <$> seq 0 cols.
Proof.
  generalize 0%nat. induction cols as [|cols IH]; intros s; [done|].
  simpl. by rewrite IH.
Qed.

Definition cells_from (r0 rows cols : nat) : list (Z * Z) :=
  (Z.of_nat <$> seq r0 rows) ≫= λ r, (Z.of_nat <$> seq 0 cols) ≫= λ c, [(r, c)].

Lemma cells_from_S r0 rows cols :
  cells_from r0 (S rows) cols
  = ((λ c : nat, (Z.of_nat r0, Z.of_nat c)) <$> seq 0 cols) ++ cells_from (S r0) rows cols.
Proof. unfold cells_from. simpl. by rewrite row_cells. Qed.

Lemma cells_from_length r0 rows cols : length (cells_from r0 rows cols) = (rows * cols)%nat.
Proof.
  revert r0. induction rows as [|rows IH]; intros r0; [done|].
  rewrite cells_from_S, length_app, IH, length_fmap, length_seq. done.
Qed.

Lemma cells_from_lookup r0 rows cols (r c : nat) :
  (r < rows)%nat → (c < cols)%nat →
  cells_from r0 rows cols !! (r * cols + c)%nat = Some (Z.of_nat (r0 + r), Z.of_nat c).
Proof.
  revert r0 r. induction rows as [|rows IH]; intros r0 r Hr Hc; [lia|].
  rewrite cells_from_S. destruct r as [|r].
  - rewrite lookup_app_l by (rewrite length_fmap, length_seq; lia).
    rewrite list_lookup_fmap, lookup_seq_lt by lia. simpl. do 3 f_equal. lia.
  - rewrite lookup_app_r by (rewrite length_fmap, length_seq; lia).
    rewrite length_fmap, length_seq.
    replace (S r * cols + c - cols)%nat with (r * cols + c)%nat by lia.
    rewrite (IH (S r0) r) by lia. do 3 f_equal. lia.
Qed.

Lemma grid_coords_cells rows cols n :
  0 ≤ n →
  grid_coords rows cols n = take (Z.to_nat n) (cells_from 0 (Z.to_nat rows) (Z.to_nat cols)).
Proof.
  intros H. unfold grid_coords, slice_to, cells_from, zrange.
  by rewrite bool_decide_eq_true_2.
Qed.

Section grid_facts.
Variables (rows cols n : Z).
Hypothesis Hcols : 1 ≤ cols.
Hypothesis Hn : 0 ≤ n.
Hypothesis Hcover : n ≤ rows * cols.

Let coords := grid_coords rows cols n.

Lemma grid_coords_length : length coords = Z.to_nat n.
Proof using Hcols Hn Hcover.
  unfold coords. rewrite grid_coords_cells by done.
  rewrite length_take, cells_from_length. nia.
Qed.

Lemma grid_coords_lookup (r c : Z) :
  0 ≤ r → 0 ≤ c < cols → r * cols + c < n →
  coords !! Z.to_nat (r * cols + c) = Some (r, c).
Proof using Hcols Hn Hcover.
  intros Hr Hc Hlt. unfold coords. rewrite grid_coords_cells by done.
  rewrite lookup_take_lt by lia.
  replace (Z.to_nat (r * cols + c)) with (Z.to_nat r * Z.to_nat cols + Z.to_nat c)%nat by nia.
  rewrite cells_from_lookup by nia. simpl. do 2 f_equal; lia.
Qed.

(** Every position holds the cell of its row and column. *)
Lemma grid_coords_at (k : nat) :
  (k < Z.to_nat n)%nat →
  ∃ r c, 0 ≤ r ∧ 0 ≤ c < cols ∧ Z.of_nat k = r * cols + c ∧ coords !! k = Some (r, c).
Proof using Hcols Hn Hcover.
  intros Hk. exists (Z.of_nat k / cols), (Z.of_nat k `mod` cols).
  pose proof (Z.div_mod (Z.of_nat k) cols ltac:(lia)) as Hdm.
  pose proof (Z.mod_pos_bound (Z.of_nat k) cols ltac:(lia)) as Hm.
  assert (0 ≤ Z.of_nat k / cols) by (apply Z.div_pos; lia).
  split_and!; [done|lia|lia|lia|].
  rewrite <-(grid_coords_lookup (Z.of_nat k / cols) (Z.of_nat k `mod` cols)); [|lia..].
  f_equal. lia.
Qed.

Lemma grid_coords_inv (k : nat) (r c : Z) :
  coords !! k = Some (r, c) →
  0 ≤ r ∧ 0 ≤ c < cols ∧ Z.of_nat k = r * cols + c ∧ (k < Z.to_nat n)%nat.
Proof using Hcols Hn Hcover.
  intros H. pose proof (lookup_lt_Some _ _ _ H) as Hk. rewrite grid_coords_length in Hk.
  destruct (grid_coords_at k Hk) as (r' & c' & ? & ? & ? & H').
  rewrite H in H'. injection H' as -> ->. done.
Qed.
End grid_facts.

(** ** The dict [index_of] *)

Lemma assoc_imap_Some {K} `{EqDecision K} (g : nat → nat) (keys : list K) (key : K) (k : nat) :
  assoc key (imap (λ i rc, (rc, g i)) keys) = Some k →
  ∃ i, keys !! i = Some key ∧ k = g i.
Proof.
  revert g. induction keys as [|x keys IH]; intros g; [done|].
  simpl. destruct (decide (key = x)) as [->|Hne].
  - intros [= <-]. by exists 0%nat.
  - intros H. apply (IH (g ∘ S)) in H as (i & Hi & ->). by exists (S i).
Qed.

Lemma assoc_imap_elem {K} `{EqDecision K} (g : nat → nat) (keys : list K) (key : K) :
  key ∈ keys → is_Some (assoc key (imap (λ i rc, (rc, g i)) keys)).
Proof.
  revert g. induction keys as [|x keys IH]; intros g Hin; [by apply elem_of_nil in Hin|].
  simpl. destruct (decide (key = x)) as [->|Hne]; [by eexists|].
  apply (IH (g ∘ S)). apply elem_of_cons in Hin as [?|?]; done.
Qed.

Lemma index_items_Some (coords : list (Z * Z)) key k :
  assoc key (index_items coords) = Some k → coords !! k = Some key.
Proof. intros H. apply (assoc_imap_Some id) in H as (i & Hi & ->). done. Qed.

Lemma index_items_is_Some (coords : list (Z * Z)) key :
  key ∈ coords → is_Some (assoc key (index_items coords)).
Proof. apply (assoc_imap_elem id). Qed.

Lemma index_items_elem coords rc i : (rc, i) ∈ index_items coords ↔ coords !! i = Some rc.
Proof.
  unfold index_items. rewrite elem_of_lookup_imap. split.
  - intros (j & y & [= -> ->] & H). done.
  - intros H. by exists i, rc.
Qed.

Definition link_edges (index_of : list ((Z * Z) * nat)) (i : nat) (key : Z * Z) : list edge :=
  match assoc key index_of with
  | Some k => [(Z.of_nat i + 1, Z.of_nat k + 1)]
  | None => []
  end.

Lemma link_labels coords i key edges :
  (i < length coords)%nat →
  link (index_items coords) (labels (length coords)) i key edges
  = Ok (edges ++ link_edges (index_items coords) i key).
Proof.
  intros Hi. unfold link, link_edges.
  destruct (assoc key (index_items coords)) as [k|] eqn:E; [|by rewrite app_nil_r].
  apply index_items_Some, lookup_lt_Some in E.
  by rewrite !lget_labels.
Qed.

(** What one cell adds to the edges. *)
Definition cell_edges (index_of : list ((Z * Z) * nat)) (connect_diagonals : bool)
    (item : (Z * Z) * nat) : list edge :=
  let '((r, c), i) := item in
  link_edges index_of i (r, c + 1) ++ link_edges index_of i (r + 1, c) ++
  (if connect_diagonals
   then link_edges index_of i (r + 1, c + 1) ++ link_edges index_of i (r + 1, c - 1)
   else []).

Lemma grid_step_labels coords cd edges item :
  item ∈ index_items coords →
  grid_step (index_items coords) (labels (length coords)) cd edges item
  = Ok (edges ++ cell_edges (index_items coords) cd item).
Proof.
  destruct item as [[r c] i]. intros Hin.
  apply index_items_elem, lookup_lt_Some in Hin.
  unfold grid_step, cell_edges. rewrite link_labels by done. simpl.
  rewrite link_labels by done. simpl. destruct cd.
  - rewrite link_labels by done. simpl. rewrite link_labels by done.
    by rewrite <-!(assoc_L (++)).
  - by rewrite app_nil_r, <-!(assoc_L (++)).
Qed.

Lemma possible_step_grid_step index_of vertices possible item :
  possible_step index_of vertices possible item = grid_step index_of vertices false possible item.
Proof.
  destruct item as [[r c] i]. unfold possible_step, grid_step.
  destruct (link index_of vertices i (r, c + 1) possible); simpl; [|done..].
  by destruct (link index_of vertices i (r + 1, c) a).
Qed.

Lemma for_each_ext {A S} (xs : list A) (f g : S → A → outcome S) (s : S) :
  (∀ s x, f s x = g s x) → for_each xs f s = for_each xs g s.
Proof.
  intros H. revert s. induction xs as [|x xs IH]; intros s; [done|].
  simpl. rewrite H. destruct (g s x); simpl; auto.
Qed.

(** The loop over the cells: each adds its edges, in order. *)
Lemma grid_loop coords cd :
  for_each (index_items coords)
           (grid_step (index_items coords) (labels (length coords)) cd) []
  = Ok (index_items coords ≫= cell_edges (index_items coords) cd).
Proof.
  destruct (for_each_ind
    (λ done edges, edges = done ≫= cell_edges (index_items coords) cd)
    (index_items coords)
    (grid_step (index_items coords) (labels (length coords)) cd) [])
    as (edges & -> & ->); [done| |done].
  intros done x rest edges Hsplit ->.
  eexists. split.
  - apply grid_step_labels. rewrite Hsplit. set_solver.
  - rewrite bind_app. simpl. by rewrite app_nil_r.
Qed.

(** [grid_graph] on a positive count: the labels [1..n] and the edges of
    the cells. *)
Definition grid_index (n : Z) : list ((Z * Z) * nat) :=
  index_items (grid_coords (- (- n / Z.sqrt_up n)) (Z.sqrt_up n) n).

Lemma grid_graph_Ok (R : RandomCore) (os_entropy : Z) (n : Z) (seed : option Z) (cd : bool) :
  1 ≤ n →
  grid_graph R os_entropy n seed cd
  = Ok (labels (Z.to_nat n), grid_index n ≫= cell_edges (grid_index n) cd).
Proof.
  intros Hn. unfold grid_graph, grid_index.
  destruct (ceil_sqrt_pos n Hn) as (cols & Hcols & Hc1).
  destruct (ceil_div_covers n cols Hc1) as (rows & Hrows & Hcov).
  assert (cols = Z.sqrt_up n) as Ec.
  { unfold ceil_sqrt in Hcols. rewrite bool_decide_eq_false_2 in Hcols by lia. congruence. }
  assert (rows = - (- n / cols)) as Er.
  { unfold ceil_div in Hrows. rewrite bool_decide_eq_false_2 in Hrows by lia. congruence. }
  rewrite Hcols. simpl. rewrite Hrows. simpl. rewrite <-Ec, <-Er.
  change (λ i : nat, _label (Z.of_nat i + 1)) with (λ i : nat, _label (Z.of_nat i + 1)).
  fold (labels (length (grid_coords rows cols n))).
  rewrite grid_loop. simpl.
  by rewrite (grid_coords_length rows cols n) by lia.
Qed.

(** * Properties of the Floyd-Warshall engine *)

(** The entry [prox[a][j]], when both indices are in range. *)
Definition cell (prox : list (list (option nat))) (a j : nat) : option (option nat) :=
  row ← prox !! a; row !! j.

(** The walk of [reconstruir_caminho_floyd] towards [j], from the index it
    stands on: it arrives ([true]) or meets an unset entry ([false]). *)
Inductive walk_ends (prox : list (list (option nat))) (j : nat) : nat → bool → Prop :=
  | walk_arrives : walk_ends prox j j true
  | walk_unset a : a ≠ j → cell prox a j = Some None → walk_ends prox j a false
  | walk_hop a b r :
      a ≠ j → cell prox a j = Some (Some b) → walk_ends prox j b r → walk_ends prox j a r.

(** The number of hops of a walk. *)
Inductive walk_hops (prox : list (list (option nat))) (j : nat) : nat → nat → Prop :=
  | hops_arrives : walk_hops prox j j 0
  | hops_unset a : a ≠ j → cell prox a j = Some None → walk_hops prox j a 0
  | hops_hop a b k :
      a ≠ j → cell prox a j = Some (Some b) → walk_hops prox j b k → walk_hops prox j a (S k).

Lemma mget_cell {A} (m : list (list A)) (a j : nat) (x : A) :
  mget m a j = Ok x ↔ (row ← m !! a; row !! j) = Some x.
Proof.
  unfold mget, lget. destruct (m !! a) as [row|]; simpl; [|naive_solver].
  destruct (row !! j); naive_solver.
Qed.

Lemma mget_unset (prox : list (list (option nat))) (a j : nat) :
  cell prox a j = Some None → mget prox a j = Ok None.
Proof. intros H. by apply mget_cell. Qed.

Lemma cell_lt prox a j x : cell prox a j = Some x → (a < length prox)%nat.
Proof.
  unfold cell. destruct (prox !! a) eqn:E; [|done]. intros _. by eapply lookup_lt_Some.
Qed.

Lemma lget_lt {A} (l : list A) (i : nat) : (i < length l)%nat → ∃ x, lget l i = Ok x.
Proof. intros H. unfold lget. destruct (lookup_lt_is_Some_2 l i H) as [x ->]. eauto. Qed.

Lemma walk_ends_hops prox j a r : walk_ends prox j a r → ∃ k, walk_hops prox j a k.
Proof.
  induction 1 as [|a Ha Hc|a b r Ha Hc _ [k IH]].
  - exists 0%nat. constructor.
  - exists 0%nat. by constructor.
  - exists (S k). by econstructor.
Qed.

(** A walk that meets an unset entry makes the loop return the pair, whatever
    budget is left after its hops. *)
Lemma caminho_loop_unset prox vertices j a k fuel caminho :
  length vertices = length prox →
  walk_ends prox j a false → walk_hops prox j a k → (k < fuel)%nat →
  caminho_loop fuel prox vertices j a caminho = Ok no_path.
Proof.
  intros Hlen Hw. revert k fuel caminho.
  remember false as r eqn:Hr.
  induction Hw as [|a Ha Hc|a b r Ha Hc Hw IH]; intros k fuel caminho Hk Hfuel; [done|..].
  - destruct fuel as [|fuel]; [lia|]. simpl.
    rewrite decide_False by done.
    destruct (lget_lt vertices a) as [va ->]; [rewrite Hlen; by eapply cell_lt|].
    simpl. by rewrite (mget_unset _ _ _ Hc).
  - inversion Hk as [|? ? Hc'|? b' k' _ Hc' Hk']; subst; [done|congruence|].
    assert (b' = b) as -> by congruence.
    destruct fuel as [|fuel]; [lia|]. simpl.
    rewrite decide_False by done.
    destruct (lget_lt vertices a) as [va ->]; [rewrite Hlen; by eapply cell_lt|].
    simpl. assert (mget prox a j = Ok (Some b)) as -> by by apply mget_cell.
    simpl. eapply IH; [done|done|lia].
Qed.

(** The shape of whatever the loop returns. *)
Lemma caminho_loop_shape fuel prox vertices j a caminho v :
  caminho_loop fuel prox vertices j a caminho = Ok v →
  (v = no_path ∧ walk_ends prox j a false) ∨
  (∃ rest, v = PyList (caminho ++ rest) ∧ rest ≠ [] ∧ walk_ends prox j a true).
Proof.
  revert a caminho. induction fuel as [|fuel IH]; intros a caminho; [done|].
  simpl. destruct (decide (a = j)) as [->|Ha].
  - destruct (lget vertices j) as [vj| |]; simpl; [|done..].
    intros [= <-]. right. exists [vj]. split_and!; [done|done|constructor].
  - destruct (lget vertices a) as [va| |]; simpl; [|done..].
    destruct (mget prox a j) as [nxt| |] eqn:Hm; simpl; [|done..].
    apply mget_cell in Hm. destruct nxt as [b|].
    + intros H. apply IH in H as [[-> Hw]|(rest & -> & _ & Hw)].
      * left. split; [done|]. by eapply walk_hop.
      * right. exists (va :: rest). rewrite <-(assoc_L (++)). split_and!; [done|done|].
        by eapply walk_hop.
    + intros [= <-]. left. split; [done|]. by constructor.
Qed.

Definition is_pair (v : pyval) : bool :=
  match v with
  | PyTuple _ _ => true
  | _ => false
  end.

(** An unset [prox[i][j]] is answered before the loop, on any budget. *)
Lemma reconstruir_unset_entry fuel i j prox vertices :
  cell prox i j = Some None → reconstruir_caminho_floyd fuel i j prox vertices = Ok no_path.
Proof. intros H. unfold reconstruir_caminho_floyd. by rewrite (mget_unset _ _ _ H). Qed.

(** C7: on a next-hop matrix and an ordering of the same size, when
    [prox[i][j]] is unset, or when the walk from [i] meets an unset entry
    before it reaches [j], [reconstruir_caminho_floyd] returns the pair
    [(None, inf)]: it neither raises nor runs on. *)
Theorem reconstruir_no_path (prox : list (list (option nat))) (vertices : list Z)
    (i j : nat) :
  length vertices = length prox →
  cell prox i j = Some None ∨ walk_ends prox j i false →
  ∃ fuel0, ∀ fuel, (fuel0 ≤ fuel)%nat →
    reconstruir_caminho_floyd fuel i j prox vertices = Ok (PyTuple PyNone PyInf).
Proof.
  intros Hlen [Hc|Hw].
  - exists 0%nat. intros fuel _. by apply reconstruir_unset_entry.
  - destruct (walk_ends_hops _ _ _ _ Hw) as [k Hk].
    exists (S k). intros fuel Hfuel.
    inversion Hw as [|a Ha Hc|a b r Ha Hc Hw']; subst.
    + by apply reconstruir_unset_entry.
    + unfold reconstruir_caminho_floyd.
      assert (mget prox i j = Ok (Some b)) as -> by by apply mget_cell.
      simpl. eapply caminho_loop_unset; [done|done|done|lia].
Qed.

Definition prox_broken : list (list (option nat)) :=
  [ [Some 0%nat; Some 1%nat; Some 1%nat];
    [None; Some 1%nat; None];
    [None; None; Some 2%nat] ].

Lemma reconstruir_no_path_witness :
  ∃ fuel0, ∀ fuel, (fuel0 ≤ fuel)%nat →
    reconstruir_caminho_floyd fuel 0 2 prox_broken [10; 20; 30] = Ok (PyTuple PyNone PyInf).
Proof.
  apply (reconstruir_no_path prox_broken [10; 20; 30] 0 2).
  - reflexivity.
  - right. apply (walk_hop _ _ 0%nat 1%nat); [lia | reflexivity |].
    apply walk_unset; [lia | reflexivity].
Defined.

(** C10: what [reconstruir_caminho_floyd] returns has one of two shapes.
    When there is no path ([prox[i][j]] unset, or an unset entry met on
    the walk) it is the pair [(None, inf)]; when the walk arrives it is the
    bare list of labels, which is not a pair and carries no cost. *)
Theorem reconstruir_result_shape (fuel i j : nat) (prox : list (list (option nat)))
    (vertices : list Z) (v : pyval) :
  reconstruir_caminho_floyd fuel i j prox vertices = Ok v →
  (v = PyTuple PyNone PyInf ∧ is_pair v = true ∧
     (cell prox i j = Some None ∨ walk_ends prox j i false)) ∨
  (∃ caminho, v = PyList caminho ∧ is_pair v = false ∧ caminho ≠ [] ∧
     walk_ends prox j i true).
Proof.
  unfold reconstruir_caminho_floyd.
  destruct (mget prox i j) as [pij| |] eqn:Hm; simpl; [|done..].
  apply mget_cell in Hm. destruct pij as [b|].
  - intros H. apply caminho_loop_shape in H as [[-> Hw]|(rest & -> & Hne & Hw)].
    + left. auto.
    + right. exists rest. auto.
  - intros [= <-]. left. auto.
Qed.

Definition prox_chain : list (list (option nat)) :=
  [ [Some 0%nat; Some 1%nat; Some 1%nat];
    [None; Some 1%nat; Some 2%nat];
    [None; None; Some 2%nat] ].

Lemma reconstruir_result_shape_witness :
  (PyList [10; 20; 30] = PyTuple PyNone PyInf ∧ is_pair (PyList [10; 20; 30]) = true ∧
     (cell prox_chain 0 2 = Some None ∨ walk_ends prox_chain 2 0 false)) ∨
  (∃ caminho, PyList [10; 20; 30] = PyList caminho ∧ is_pair (PyList [10; 20; 30]) = false ∧
     caminho ≠ [] ∧ walk_ends prox_chain 2 0 true).
Proof.
  apply (reconstruir_result_shape 5 0 2 prox_chain [10; 20; 30]). reflexivity.
Defined.

(** The indices of the labels in the ordering, as the [__main__] block
    looks them up. *)
Definition idx_map_fw (vertices : list Z) : gmap Z nat := enumerate_map vertices.

(** C1: on the graph of the [__main__] block the engine alerts on no
    vertex, gives distance 7 from label 5 to label 2, reconstructs the path
    5, 3, 4, 1, 2 between them, and leaves 0 at the diagonal entry of
    label 1. *)
Theorem floyd_main_scenario :
  ∃ dist prox vertices idx_inicio idx_fim idx_ciclo,
    floyd_warshall G_direcionado = Ok (dist, prox, vertices, []) ∧
    dict_get (idx_map_fw vertices) 5 = Ok idx_inicio ∧
    dict_get (idx_map_fw vertices) 2 = Ok idx_fim ∧
    dict_get (idx_map_fw vertices) 1 = Ok idx_ciclo ∧
    mget dist idx_inicio idx_fim = Ok (Fin 7) ∧
    (∀ fuel, reconstruir_caminho_floyd (5 + fuel) idx_inicio idx_fim prox vertices
             = Ok (PyList [5; 3; 4; 1; 2])) ∧
    mget dist idx_ciclo idx_ciclo = Ok (Fin 0).
Proof.
  destruct (floyd_warshall G_direcionado) as [[[[dist prox] vertices] avisos]| |] eqn:E;
    vm_compute in E; [|discriminate..].
  injection E as <- <- <- <-.
  eexists _, _, _, 4%nat, 1%nat, 0%nat.
  split_and!; vm_compute; reflexivity.
Qed.

(** ** The engine on a negative cycle *)

(** Labels 1 and 2 on a cycle of weight -2, and label 3 past it. *)
Definition G_ciclo : Graph :=
  (criar_grafo [1; 2; 3] [(1, 2, 1); (2, 1, -3); (2, 3, 1)] true).1.1.

Definition prox_ciclo : list (list (option nat)) :=
  [ [Some 1%nat; Some 1%nat; Some 1%nat];
    [Some 0%nat; Some 0%nat; Some 0%nat];
    [None; None; Some 2%nat] ].

(** The alert names both vertices of the cycle, and the matrices are
    returned all the same. *)
Example floyd_ciclo :
  floyd_warshall G_ciclo
  = Ok ([ [Fin (-2); Fin (-1); Fin 0]; [Fin (-5); Fin (-4); Fin (-3)]; [Inf; Inf; Fin 0] ],
        prox_ciclo, [1; 2; 3], [1; 2]).
Proof. by vm_compute. Qed.

(** On those matrices the walk from label 1 to label 3 goes round the
    cycle: no budget lets it return. *)
Lemma caminho_ciclo fuel : ∀ caminho,
  caminho_loop fuel prox_ciclo [1; 2; 3] 2 0 caminho = Diverge ∧
  caminho_loop fuel prox_ciclo [1; 2; 3] 2 1 caminho = Diverge.
Proof.
  induction fuel as [|fuel IH]; intros caminho; [done|].
  split; cbn; apply IH.
Qed.

Example reconstruir_ciclo fuel :
  reconstruir_caminho_floyd fuel 0 2 prox_ciclo [1; 2; 3] = Diverge.
Proof. unfold reconstruir_caminho_floyd. cbn. apply caminho_ciclo. Qed.

(** An edge to a label that is no vertex is left out, with a warning. *)
Example criar_grafo_aviso :
  criar_grafo [1; 2] [(1, 2, 1); (2, 7, -3)] true
  = (mkGraph true [1; 2] [(1, 2, 1)], [1; 2], [(2, 7)]).
Proof. by vm_compute. Qed.

(** * The random geometric graph *)

Section geometric_facts.
Context (R : RandomCore).

Lemma draw_points_length k (g : rng R) : length (draw_points R k g).1 = k.
Proof.
  revert g. induction k as [|k IH]; intros g; [done|].
  simpl. destruct (rng_random R g) as [x g1]. destruct (rng_random R g1) as [y g2].
  specialize (IH g2). destruct (draw_points R k g2) as [rest g3]. simpl in *. by rewrite IH.
Qed.
End geometric_facts.

(** The edge a pair of indices contributes. *)
Definition pair_edge (points : list (float * float)) (radius : float) (i j : nat) : list edge :=
  match points !! i, points !! j with
  | Some p, Some q => if within radius p q then [(Z.of_nat i + 1, Z.of_nat j + 1)] else []
  | _, _ => []
  end.

Lemma close_pairs_inner n points radius i p edges :
  length points = n → points !! i = Some p → (i < n)%nat →
  for_each (seq (S i) (n - S i))
    (λ edges j,
       pj ← lget points j;
       if within radius p pj then
         u ← lget (labels n) i; v ← lget (labels n) j; Ok (edges ++ [(u, v)])
       else Ok edges) edges
  = Ok (edges ++ (seq (S i) (n - S i) ≫= pair_edge points radius i)).
Proof.
  intros Hlen Hp Hi.
  loop_inv (λ (done : list nat) s, s = edges ++ (done ≫= pair_edge points radius i));
    [by rewrite app_nil_r| |by subst].
  intros done j rest s Hsplit ->.
  assert (j ∈ seq (S i) (n - S i)) as Hj by (rewrite Hsplit; set_solver).
  apply elem_of_seq in Hj.
  destruct (lookup_lt_is_Some_2 points j ltac:(lia)) as [q Hq].
  cbn beta. assert (lget points j = Ok q) as -> by (unfold lget; by rewrite Hq). simpl.
  rewrite bind_app. simpl. rewrite app_nil_r.
  assert (pair_edge points radius i j
          = if within radius p q then [(Z.of_nat i + 1, Z.of_nat j + 1)] else []) as ->
    by (unfold pair_edge; by rewrite Hp, Hq).
  destruct (within radius p q).
  - rewrite !lget_labels by lia. simpl. eexists. split; [done|]. by rewrite !(assoc_L (++)).
  - eexists. split; [done|]. by rewrite app_nil_r.
Qed.

Lemma close_pairs_eq n points radius :
  length points = n →
  close_pairs n points (labels n) radius
  = Ok (range n ≫= λ i, seq (S i) (n - S i) ≫= pair_edge points radius i).
Proof.
  intros Hlen. unfold close_pairs.
  loop_inv (λ (done : list nat) s,
              s = done ≫= λ i, seq (S i) (n - S i) ≫= pair_edge points radius i);
    [done| |by subst].
  intros done i rest s Hsplit ->.
  assert (i ∈ range n) as Hi by (rewrite Hsplit; set_solver).
  apply elem_of_seq in Hi.
  destruct (lookup_lt_is_Some_2 points i ltac:(lia)) as [p Hp].
  cbn beta. assert (lget points i = Ok p) as -> by (unfold lget; by rewrite Hp). simpl.
  rewrite (close_pairs_inner n points radius i p) by (done || lia).
  eexists. split; [done|]. rewrite bind_app. simpl. by rewrite app_nil_r.
Qed.

Lemma elem_of_pairs n points radius (u v : Z) :
  (u, v) ∈ (range n ≫= λ i, seq (S i) (n - S i) ≫= pair_edge points radius i) ↔
  ∃ (i j : nat) p q, (i < j < n)%nat ∧ points !! i = Some p ∧ points !! j = Some q ∧
     within radius p q = true ∧ u = Z.of_nat i + 1 ∧ v = Z.of_nat j + 1.
Proof.
  rewrite list_elem_of_bind. split.
  - intros (i & Hin & Hi). apply list_elem_of_bind in Hin as (j & Hin & Hj).
    apply elem_of_seq in Hi, Hj. unfold pair_edge in Hin.
    destruct (points !! i) as [p|] eqn:Hp; [|by apply elem_of_nil in Hin].
    destruct (points !! j) as [q|] eqn:Hq; [|by apply elem_of_nil in Hin].
    destruct (within radius p q) eqn:Hw; [|by apply elem_of_nil in Hin].
    apply list_elem_of_singleton in Hin as [= -> ->].
    exists i, j, p, q. split_and!; (done || lia).
  - intros (i & j & p & q & Hij & Hp & Hq & Hw & -> & ->).
    exists i. split; [|apply elem_of_seq; lia].
    apply list_elem_of_bind. exists j. split; [|apply elem_of_seq; lia].
    unfold pair_edge. rewrite Hp, Hq, Hw. by apply list_elem_of_singleton.
Qed.

(** The points [random_geometric_graph] draws. *)
Definition points_of (R : RandomCore) (os_entropy : Z) (n_vertices : Z) (seed : option Z)
    : list (float * float) :=
  (draw_points R (Z.to_nat n_vertices) (Random R os_entropy seed)).1.

Lemma geometric_given_radius (R : RandomCore) os_entropy math_log n seed radius :
  random_geometric_graph R os_entropy math_log n seed (Some radius)
  = Ok (labels (Z.to_nat n),
        range (Z.to_nat n) ≫= λ i,
          seq (S i) (Z.to_nat n - S i) ≫=
            pair_edge (points_of R os_entropy n seed) radius i).
Proof.
  unfold random_geometric_graph, points_of.
  pose proof (draw_points_length R (Z.to_nat n) (Random R os_entropy seed)) as Hlen.
  destruct (draw_points R (Z.to_nat n) (Random R os_entropy seed)) as [points g]. simpl in *.
  rewrite zrange_labels, close_pairs_eq by done. done.
Qed.

(** C6, as the code has it: with [radius = 0] the graph has the vertices
    [1..n] and an edge for exactly the pairs of points that pass the test
    [dx*dx + dy*dy <= 0], those drawn at the same place; the edge list is
    empty exactly when no two points drawn pass it, as when there is a
    single point. *)
Theorem geometric_radius_zero (R : RandomCore) (os_entropy : Z) (math_log : Z → float)
    (n : Z) (seed : option Z) :
  ∃ edges,
    random_geometric_graph R os_entropy math_log n seed (Some 0%float)
      = Ok (labels (Z.to_nat n), edges) ∧
    (∀ u v, (u, v) ∈ edges ↔
       ∃ (i j : nat) p q, (i < j < Z.to_nat n)%nat ∧
         points_of R os_entropy n seed !! i = Some p ∧
         points_of R os_entropy n seed !! j = Some q ∧
         within 0 p q = true ∧ u = Z.of_nat i + 1 ∧ v = Z.of_nat j + 1) ∧
    (edges = [] ↔
       ∀ (i j : nat) p q, (i < j)%nat →
         points_of R os_entropy n seed !! i = Some p →
         points_of R os_entropy n seed !! j = Some q →
         within 0 p q = false) ∧
    (n ≤ 1 → edges = []).
Proof.
  eexists. split; [apply geometric_given_radius|].
  set (edges := range (Z.to_nat n) ≫= _).
  assert (∀ u v, (u, v) ∈ edges ↔
       ∃ (i j : nat) p q, (i < j < Z.to_nat n)%nat ∧
         points_of R os_entropy n seed !! i = Some p ∧
         points_of R os_entropy n seed !! j = Some q ∧
         within 0 p q = true ∧ u = Z.of_nat i + 1 ∧ v = Z.of_nat j + 1) as Hmem.
  { intros u v. apply elem_of_pairs. }
  split_and!; [done| |].
  - split.
    + intros Hnil i j p q Hij Hp Hq.
      destruct (within 0 p q) eqn:Hw; [|done]. exfalso.
      assert ((Z.of_nat i + 1, Z.of_nat j + 1) ∈ edges) as Hin.
      { apply Hmem. exists i, j, p, q. split_and!; try done.
        apply lookup_lt_Some in Hq. unfold points_of in Hq.
        rewrite draw_points_length in Hq. lia. }
      rewrite Hnil in Hin. by apply elem_of_nil in Hin.
    + intros Hfar. destruct edges as [|[u v] rest] eqn:E; [done|]. exfalso.
      destruct (proj1 (Hmem u v)) as (i & j & p & q & Hij & Hp & Hq & Hw & _).
      { by left. }
      rewrite (Hfar i j p q) in Hw; [done|lia|done|done].
  - intros Hn. subst edges. destruct (Z.to_nat n) as [|[|k]] eqn:E; [done|done|lia].
Qed.

(** C6 as stated fails: seeded with [twin_seed] the twister draws the two
    first points at the same place, and [radius = 0] joins them. *)
Lemma geometric_radius_zero_edge :
  random_geometric_graph MersenneTwister 0 (λ _, 0%float) 2 (Some twin_seed) (Some 0%float)
  = Ok ([1; 2], [(1, 2)]).
Proof. vm_compute. reflexivity. Qed.

Lemma twin_seed_points :
  points_of MersenneTwister 0 2 (Some twin_seed)
  = [ (0.47009071843107064, 0.72826429142320759);
      (0.47009071843107064, 0.72826429142320759) ]%float.
Proof. vm_compute. reflexivity. Qed.

(** [math.log] where the runs below call it: at 2. *)
Definition log_at_two : Z → float := λ _, 0.6931471805599453%float.

(** * Degenerate sizes *)

(** The argument of [math.sqrt] in the default radius is never negative. *)
Lemma fmax_not_negative (q : float) : (fmax 1e-9 q <? 0)%float = false.
Proof.
  unfold fmax. destruct (1e-9 <? q)%float eqn:E; [|by vm_compute].
  rewrite ltb_spec in E. rewrite ltb_spec.
  destruct (Prim2SF q) as [s|s| |s m e]; try done.
  - by destruct s.
  - by destruct s.
Qed.

Lemma default_radius_one (math_log : Z → float) :
  ∃ r, default_radius math_log 1 = Ok r.
Proof.
  unfold default_radius, fdiv. change (float_of_int 1) with (Ok (py_float 1)).
  cbn [mbind outcome_bind obind].
  replace (math_pi * py_float 1 =? 0)%float with false by (by vm_compute).
  simpl. unfold math_sqrt. rewrite fmax_not_negative. simpl. eauto.
Qed.

Section single_vertex.
Context (R : PyRandom) (os_entropy : Z) (math_log : Z → float).

Lemma grid_graph_one seed cd : grid_graph R os_entropy 1 seed cd = Ok ([1], []).
Proof. by destruct cd. Qed.

Lemma shuffle_nil {A} (g : rng R) : (rng_shuffle R (@nil A) g).1 = [].
Proof. apply Permutation_nil_r. apply rng_shuffle_perm. Qed.

Lemma grid_maze_like_one seed : grid_maze_like R os_entropy 1 seed = Ok ([1], []).
Proof.
  unfold grid_maze_like, maze_trace. rewrite grid_graph_one. simpl.
  pose proof (shuffle_nil (A:=Z * Z) (Random R os_entropy seed)) as H1.
  destruct (rng_shuffle R [] (Random R os_entropy seed)) as [sh g1]. simpl in H1. subst sh.
  simpl. rewrite filter_nil.
  pose proof (shuffle_nil (A:=Z * Z) g1) as H2.
  destruct (rng_shuffle R [] g1) as [sh g2]. simpl in H2. subst sh. done.
Qed.

Lemma random_geometric_graph_one seed radius :
  random_geometric_graph R os_entropy math_log 1 seed radius = Ok ([1], []).
Proof.
  unfold random_geometric_graph.
  pose proof (draw_points_length R (Z.to_nat 1) (Random R os_entropy seed)) as Hlen.
  destruct (draw_points R (Z.to_nat 1) (Random R os_entropy seed)) as [points g].
  simpl in Hlen. destruct points as [|p [|? ?]]; try done.
  destruct radius as [r|]; [done|].
  destruct (default_radius_one math_log) as [r ->]. done.
Qed.

Lemma hypercube_graph_one seed : hypercube_graph R os_entropy 1 seed = Ok ([1], []).
Proof. by vm_compute. Qed.

Lemma assign_weights_nil seed w_min w_max controlled frac :
  _assign_weights R os_entropy [] seed w_min w_max controlled frac = Ok [].
Proof. done. Qed.
End single_vertex.

(** * Counts that are not positive *)

Section nonpositive.
Context (R : PyRandom) (os_entropy : Z) (math_log : Z → float).

Lemma nonpositive_count (n : Z) (seed : option Z) (connect_diagonals : bool)
    (radius : float) :
  n ≤ 0 →
  grid_graph R os_entropy n seed connect_diagonals
  = Raise (if decide (n = 0) then ZeroDivisionError else ValueError) ∧
  grid_maze_like R os_entropy n seed
  = Raise (if decide (n = 0) then ZeroDivisionError else ValueError) ∧
  random_geometric_graph R os_entropy math_log n seed (Some radius) = Ok ([], []) ∧
  (n = 0 → random_geometric_graph R os_entropy math_log n seed None = Raise ZeroDivisionError) ∧
  (n < 0 → hypercube_graph R os_entropy n seed = Raise ValueError).
Proof.
  intros Hn. destruct (decide (n = 0)) as [->|Hne].
  { split_and!; [reflexivity|reflexivity|reflexivity|reflexivity|lia]. }
  assert (grid_graph R os_entropy n seed connect_diagonals = Raise ValueError) as Hgrid.
  { unfold grid_graph, ceil_sqrt. rewrite bool_decide_eq_true_2; [done|lia]. }
  assert (grid_graph R os_entropy n seed false = Raise ValueError) as Hgrid'.
  { unfold grid_graph, ceil_sqrt. rewrite bool_decide_eq_true_2; [done|lia]. }
  split_and!; [done| | |done|intros _].
  - unfold grid_maze_like, maze_trace. by rewrite Hgrid'.
  - rewrite geometric_given_radius. by replace (Z.to_nat n) with 0%nat by lia.
  - unfold hypercube_graph. replace (Z.max 1 n) with 1 by lia.
    change (ceil_log2 1) with 0. change (2 ^ 0) with 1.
    rewrite bool_decide_eq_true_2 by lia. unfold sample.
    rewrite bool_decide_eq_false_2; [done|]. change (length (zrange 1)) with 1%nat. lia.
Qed.
End nonpositive.

(** C3, as the code has it: no generator checks its target count, and a
    count that is not positive is not always refused.  Given a radius,
    [random_geometric_graph] returns the empty graph on it; [grid_graph]
    and [grid_maze_like] fail on it where they compute the lattice, by
    dividing by zero columns on [0] and in [math.sqrt] below; and
    [hypercube_graph] fails on a negative count in [sample].  On the single
    vertex, and on an empty edge list to weigh, each returns the trivial
    structure. *)
Theorem generators_check_no_count (R : PyRandom) (os_entropy : Z)
    (math_log : Z → float) (n : Z) (seed : option Z) (connect_diagonals : bool)
    (given : float) (radius : option float) (w_min w_max : Z) (controlled : bool)
    (frac : float) :
  n ≤ 0 →
  (random_geometric_graph R os_entropy math_log n seed (Some given) = Ok ([], []) ∧
   grid_graph R os_entropy n seed connect_diagonals
   = Raise (if decide (n = 0) then ZeroDivisionError else ValueError) ∧
   grid_maze_like R os_entropy n seed
   = Raise (if decide (n = 0) then ZeroDivisionError else ValueError) ∧
   (n < 0 → hypercube_graph R os_entropy n seed = Raise ValueError)) ∧
  (grid_graph R os_entropy 1 seed connect_diagonals = Ok ([1], []) ∧
   grid_maze_like R os_entropy 1 seed = Ok ([1], []) ∧
   random_geometric_graph R os_entropy math_log 1 seed radius = Ok ([1], []) ∧
   hypercube_graph R os_entropy 1 seed = Ok ([1], []) ∧
   _assign_weights R os_entropy [] seed w_min w_max controlled frac = Ok []).
Proof.
  intros Hn.
  destruct (nonpositive_count R os_entropy math_log n seed connect_diagonals given Hn)
    as (Hgrid & Hmaze & Hgeo & _ & Hcube).
  split; split_and!.
  - exact Hgeo.
  - exact Hgrid.
  - exact Hmaze.
  - exact Hcube.
  - apply grid_graph_one.
  - apply grid_maze_like_one.
  - apply random_geometric_graph_one.
  - apply hypercube_graph_one.
  - apply assign_weights_nil.
Qed.

Lemma generators_check_no_count_witness :
  (random_geometric_graph Twister 0 log_at_two (-3) (Some 42) (Some 0.5%float) = Ok ([], []) ∧
   grid_graph Twister 0 (-3) (Some 42) true = Raise ValueError ∧
   grid_maze_like Twister 0 (-3) (Some 42) = Raise ValueError ∧
   (-3 < 0 → hypercube_graph Twister 0 (-3) (Some 42) = Raise ValueError)) ∧
  (grid_graph Twister 0 1 (Some 42) true = Ok ([1], []) ∧
   grid_maze_like Twister 0 1 (Some 42) = Ok ([1], []) ∧
   random_geometric_graph Twister 0 log_at_two 1 (Some 42) None = Ok ([1], []) ∧
   hypercube_graph Twister 0 1 (Some 42) = Ok ([1], []) ∧
   _assign_weights Twister 0 [] (Some 42) 1 20 false 0.05%float = Ok []).
Proof.
  apply (generators_check_no_count Twister 0 log_at_two (-3) (Some 42) true 0.5%float None
           1 20 false 0.05%float).
  lia.
Defined.

(** C3 as stated fails: a target count of 0 makes [hypercube_graph]
    return the empty graph, [grid_graph] divide by zero, and a negative
    count makes [random_geometric_graph] return the empty graph. *)
Lemma invalid_count_not_rejected :
  hypercube_graph Twister 0 0 (Some 42) = Ok ([], []) ∧
  grid_graph Twister 0 0 (Some 42) false = Raise ZeroDivisionError ∧
  random_geometric_graph Twister 0 log_at_two (-3) (Some 42) None = Ok ([], []).
Proof. split_and!; by vm_compute. Qed.

(** * Seeds *)

(** C9: [grid_graph] on a positive count returns, and what it returns is
    the same whatever the seed (and whatever entropy an absent seed would
    draw from): the generator it constructs is never consumed. *)
Theorem grid_graph_seed_independent (R : RandomCore) (ent1 ent2 : Z) (n : Z)
    (s1 s2 : option Z) (connect_diagonals : bool) :
  1 ≤ n →
  ∃ vertices edges,
    grid_graph R ent1 n s1 connect_diagonals = Ok (vertices, edges) ∧
    grid_graph R ent2 n s2 connect_diagonals = Ok (vertices, edges).
Proof. intros Hn. eexists _, _. split; by apply grid_graph_Ok. Qed.

Lemma grid_graph_seed_independent_witness :
  ∃ vertices edges,
    grid_graph MersenneTwister 0 9 (Some 1) false = Ok (vertices, edges) ∧
    grid_graph MersenneTwister 7 9 None false = Ok (vertices, edges).
Proof. apply (grid_graph_seed_independent MersenneTwister 0 7 9 (Some 1) None false). lia. Defined.

(** The 3 x 3 lattice of the specification. *)
Example grid_graph_nine :
  grid_graph MersenneTwister 0 9 (Some 1) false
  = Ok ([1; 2; 3; 4; 5; 6; 7; 8; 9],
        [(1, 2); (1, 4); (2, 3); (2, 5); (3, 6); (4, 5); (4, 7); (5, 6); (5, 8); (6, 9);
         (7, 8); (8, 9)]).
Proof. by vm_compute. Qed.

(** * Connectivity *)

(** Two labels are linked by a list of edges when a walk along edges,
    taken in either direction, leads from one to the other. *)
Definition linked (E : list (Z * Z)) : relation Z := rtsc (λ u v, (u, v) ∈ E).

#[local] Instance linked_equiv E : Equivalence (linked E).
Proof. unfold linked. apply _. Qed.

Lemma linked_edge E u v : (u, v) ∈ E → linked E u v.
Proof. intros H. by apply rtsc_lr. Qed.

Lemma linked_mono E E' u v : (∀ e, e ∈ E → e ∈ E') → linked E u v → linked E' u v.
Proof.
  intros Hsub. unfold linked, rtsc.
  apply rtc_subrel. intros x y [H|H]; [left|right]; auto.
Qed.

(** Edges whose ends are linked by [E'] link nothing that [E'] does not. *)
Lemma linked_within E E' u v :
  (∀ a b, (a, b) ∈ E → linked E' a b) → linked E u v → linked E' u v.
Proof.
  intros Hsub H. induction H as [x|x y z [Hxy|Hyx] _ IH]; [done|..].
  - etrans; [by apply Hsub|done].
  - etrans; [symmetry; by apply Hsub|done].
Qed.

(** * The union-find forest of [grid_maze_like] *)

(** The number of parent links from an index to its root. *)
Inductive height (p : list nat) : nat → nat → Prop :=
  | height_root a : p !! a = Some a → height p a 0
  | height_up a b k : p !! a = Some b → b ≠ a → height p b k → height p a (S k).

Lemma height_fun p a k1 k2 : height p a k1 → height p a k2 → k1 = k2.
Proof.
  intros H. revert k2. induction H as [a Ha|a b k Ha Hb _ IH]; intros k2 H2.
  - inversion H2; subst; [done|congruence].
  - inversion H2 as [|? b' k' Ha' Hb' Hh']; subst; [congruence|].
    assert (b' = b) as -> by congruence. f_equal. by apply IH.
Qed.

Lemma height_lt p a k : height p a k → (a < length p)%nat.
Proof. destruct 1; by eapply lookup_lt_Some. Qed.

(** The chain to the root visits distinct indices, so it is shorter than
    the list. *)
Lemma height_chain p a k :
  height p a k →
  ∃ l, length l = S k ∧ NoDup l ∧
       ∀ x, x ∈ l → ∃ j, (j ≤ k)%nat ∧ height p x j.
Proof.
  induction 1 as [a Ha|a b k Ha Hb Hh (l & Hlen & Hnd & Hl)].
  - exists [a]. split_and!; [done|apply NoDup_singleton|].
    intros x ->%list_elem_of_singleton. exists 0%nat. split; [done|by constructor].
  - exists (a :: l). split_and!.
    + simpl. by rewrite Hlen.
    + apply NoDup_cons. split; [|done].
      intros Hin. destruct (Hl a Hin) as (j & Hj & Hhj).
      assert (height p a (S k)) as Hha by by econstructor.
      pose proof (height_fun _ _ _ _ Hhj Hha). lia.
    + intros x [->|Hin]%elem_of_cons.
      * exists (S k). split; [done|by econstructor].
      * destruct (Hl x Hin) as (j & Hj & Hhj). exists j. split; [lia|done].
Qed.

Lemma height_bound p a k : height p a k → (k < length p)%nat.
Proof.
  intros H. destruct (height_chain p a k H) as (l & Hlen & Hnd & Hl).
  assert (l ⊆+ seq 0 (length p)) as Hsub.
  { apply NoDup_submseteq; [done|]. intros x Hx.
    destruct (Hl x Hx) as (j & _ & Hj). apply elem_of_seq.
    pose proof (height_lt _ _ _ Hj). lia. }
  apply submseteq_length in Hsub. rewrite length_seq in Hsub. lia.
Qed.

(** Path halving, [parent[a] = parent[parent[a]]], lengthens no chain. *)
Lemma halve_height p a pa gp :
  p !! a = Some pa → pa ≠ a → p !! pa = Some gp →
  ∀ k x, height p x k → ∃ k', (k' ≤ k)%nat ∧ height (<[a := gp]> p) x k'.
Proof.
  intros Ha Hpa Hgp k.
  induction (lt_wf k) as [k _ IH]. intros x Hx.
  pose proof (lookup_lt_Some _ _ _ Ha) as Hlt.
  inversion Hx as [? Hroot|? b k0 Hxb Hb Hh]; subst.
  - exists 0%nat. split; [done|]. constructor.
    rewrite list_lookup_insert_ne; [done|]. intros ->. congruence.
  - destruct (decide (x = a)) as [->|Hxa].
    + assert (b = pa) as -> by congruence.
      destruct (decide (gp = a)) as [->|Hgpa].
      { exists 0%nat. split; [lia|]. constructor. by rewrite list_lookup_insert_eq. }
      inversion Hh as [? Hroot|? gp' k1 Hpb Hg Hh1]; subst.
      * assert (gp = pa) as -> by congruence.
        destruct (IH 0%nat ltac:(lia) pa Hh) as (k' & Hk' & Hh').
        exists (S k'). split; [lia|]. econstructor; [|done|done].
        by rewrite list_lookup_insert_eq.
      * assert (gp' = gp) as -> by congruence.
        destruct (IH k1 ltac:(lia) gp Hh1) as (k' & Hk' & Hh').
        exists (S k'). split; [lia|]. econstructor; [|done|done].
        by rewrite list_lookup_insert_eq.
    + destruct (IH k0 ltac:(lia) b Hh) as (k' & Hk' & Hh').
      exists (S k'). split; [lia|]. econstructor; [|done|done].
      by rewrite list_lookup_insert_ne.
Qed.

(** [parent[ra] = rb] on two roots keeps every chain finite. *)
Lemma link_roots_height p ra rb :
  p !! ra = Some ra → p !! rb = Some rb →
  ∀ k x, height p x k → ∃ k', height (<[ra := rb]> p) x k'.
Proof.
  intros Hra Hrb. destruct (decide (ra = rb)) as [->|Hne].
  { rewrite list_insert_id by done. eauto. }
  pose proof (lookup_lt_Some _ _ _ Hra) as Hlt.
  induction 1 as [x Hx|x b k Hx Hb Hh [k' IH]].
  - destruct (decide (x = ra)) as [->|Hxa].
    + exists 1%nat. econstructor; [by rewrite list_lookup_insert_eq|done|].
      constructor. by rewrite list_lookup_insert_ne.
    + exists 0%nat. constructor. by rewrite list_lookup_insert_ne.
  - exists (S k'). econstructor; [|done|done].
    rewrite list_lookup_insert_ne; [done|]. intros ->. congruence.
Qed.

(** The label of an index, and the invariant of the forest against the
    edges kept so far: every index is linked to its parent, and reaches a
    root. *)
Definition label_of (a : nat) : Z := Z.of_nat a + 1.

Record uf_inv (E : list (Z * Z)) (p : list nat) : Prop := mk_uf_inv {
  uf_parent a : (a < length p)%nat →
    ∃ b, p !! a = Some b ∧ (b < length p)%nat ∧ linked E (label_of a) (label_of b);
  uf_height a : (a < length p)%nat → ∃ k, height p a k
}.

Lemma uf_inv_init n : uf_inv [] (range n).
Proof.
  split; intros a Ha; unfold range in *; rewrite length_seq in Ha.
  - exists a. rewrite lookup_seq_lt by done. rewrite length_seq. done.
  - exists 0%nat. constructor. by rewrite lookup_seq_lt.
Qed.

Lemma uf_inv_mono E E' p : (∀ e, e ∈ E → e ∈ E') → uf_inv E p → uf_inv E' p.
Proof.
  intros Hsub [Hp Hh]. split; [|done].
  intros a Ha. destruct (Hp a Ha) as (b & ? & ? & ?). exists b.
  split_and!; [done..|]. by eapply linked_mono.
Qed.

(** [find]: on a forest it returns, within the budget of the chain, a root
    linked to its argument, and leaves a forest with the same roots. *)
Lemma find_spec E fuel : ∀ p a k,
  uf_inv E p → height p a k → (k < fuel)%nat →
  ∃ r p', find fuel p a = Ok (r, p') ∧ length p' = length p ∧ uf_inv E p' ∧
          (r < length p)%nat ∧ linked E (label_of a) (label_of r) ∧ p' !! r = Some r ∧
          (∀ x, p !! x = Some x → p' !! x = Some x).
Proof.
  induction fuel as [|fuel IH]; intros p a k Hinv Hh Hk; [lia|].
  pose proof (height_lt _ _ _ Hh) as Ha.
  destruct (uf_parent _ _ Hinv a Ha) as (pa & Hpa & Hpalt & Hlink).
  cbn [find]. rewrite (lget_Some _ _ _ Hpa). obind.
  destruct (decide (pa ≠ a)) as [Hne|Heq].
  - destruct (uf_parent _ _ Hinv pa Hpalt) as (gp & Hgp & Hgplt & Hlink2).
    rewrite (lget_Some _ _ _ Hgp). obind.
    rewrite lset_lt by done. obind.
    rewrite (lget_Some (<[a := gp]> p) a gp) by (by rewrite list_lookup_insert_eq). obind.
    assert (uf_inv E (<[a := gp]> p)) as Hinv'.
    { split; intros x Hx; rewrite length_insert in Hx.
      - destruct (decide (x = a)) as [->|Hxa].
        + exists gp. rewrite list_lookup_insert_eq, length_insert by done.
          split_and!; [done..|]. by etrans.
        + destruct (uf_parent _ _ Hinv x Hx) as (b & ? & ? & ?). exists b.
          rewrite list_lookup_insert_ne, length_insert by done. done.
      - destruct (uf_height _ _ Hinv x Hx) as [kx Hkx].
        destruct (halve_height p a pa gp Hpa Hne Hgp kx x Hkx) as (k' & _ & ?). eauto. }
    assert (∃ k', (k' < fuel)%nat ∧ height (<[a := gp]> p) gp k') as (k' & Hk' & Hh').
    { inversion Hh as [? Hroot|? b k0 Hab Hb Hh0]; subst; [congruence|].
      assert (b = pa) as -> by congruence.
      inversion Hh0 as [? Hroot|? b' k1 Hab' Hb' Hh1]; subst.
      - assert (gp = pa) as -> by congruence.
        destruct (halve_height p a pa pa Hpa Hne Hgp 0%nat pa Hh0) as (k' & ? & ?).
        exists k'. split; [lia|done].
      - assert (b' = gp) as -> by congruence.
        destruct (halve_height p a pa gp Hpa Hne Hgp k1 gp Hh1) as (k' & ? & ?).
        exists k'. split; [lia|done]. }
    destruct (IH _ gp k' Hinv' Hh' Hk') as (r & p' & Hf & Hlen & Hi & Hr & Hl & Hroot & Hkeep).
    exists r, p'. rewrite Hf. rewrite length_insert in Hlen, Hr.
    split_and!; [done..| |done|].
    + etrans; [done|]. by etrans.
    + intros x Hx. apply Hkeep. rewrite list_lookup_insert_ne; [done|]. intros ->. congruence.
  - assert (pa = a) as -> by (destruct (decide (pa = a)); [done|contradiction]).
    exists a, p. split_and!; done.
Qed.

(** A call of [find] as the code makes it. *)
Lemma find_call E p a :
  uf_inv E p → (a < length p)%nat →
  ∃ r p', find (find_budget p) p a = Ok (r, p') ∧ length p' = length p ∧ uf_inv E p' ∧
          (r < length p)%nat ∧ linked E (label_of a) (label_of r) ∧ p' !! r = Some r ∧
          (∀ x, p !! x = Some x → p' !! x = Some x).
Proof.
  intros Hinv Ha. destruct (uf_height _ _ Hinv a Ha) as [k Hk].
  apply (find_spec E _ p a k); [done|done|].
  pose proof (height_bound _ _ _ Hk). unfold find_budget. lia.
Qed.

Lemma union_spec E p a b u v :
  uf_inv E p → (a < length p)%nat → (b < length p)%nat →
  u = label_of a → v = label_of b →
  ∃ p', union p a b = Ok p' ∧ length p' = length p ∧ uf_inv (E ++ [(u, v)]) p'.
Proof.
  intros Hinv Ha Hb -> ->. unfold union.
  destruct (find_call E p a Hinv Ha) as (ra & p1 & -> & Hlen1 & Hinv1 & Hra & Hla & Hroota & _).
  obind.
  destruct (find_call E p1 b Hinv1 ltac:(lia))
    as (rb & p2 & -> & Hlen2 & Hinv2 & Hrb & Hlb & Hrootb & Hkeep).
  obind. rewrite lset_lt by lia.
  eexists. split; [done|]. rewrite length_insert. split; [lia|].
  assert (uf_inv (E ++ [(label_of a, label_of b)]) p2) as Hinv2'.
  { eapply uf_inv_mono; [|done]. set_solver. }
  split; intros x Hx; rewrite length_insert in Hx.
  - destruct (decide (x = ra)) as [->|Hne].
    + exists rb. rewrite list_lookup_insert_eq, length_insert by lia.
      split_and!; [done|lia|].
      transitivity (label_of a); [symmetry; eapply linked_mono; [|exact Hla]; set_solver|].
      transitivity (label_of b); [apply linked_edge; set_solver|].
      eapply linked_mono; [|exact Hlb]. set_solver.
    + destruct (uf_parent _ _ Hinv2' x Hx) as (y & ? & ? & ?). exists y.
      rewrite list_lookup_insert_ne, length_insert by done. done.
  - destruct (uf_height _ _ Hinv2 x Hx) as [k Hk].
    eapply link_roots_height; [by apply Hkeep|done|done].
Qed.

Lemma kruskal_step_spec E p a b :
  uf_inv E p → (a < length p)%nat → (b < length p)%nat →
  ∃ p' E', kruskal_step (p, E) (label_of a, label_of b) = Ok (p', E') ∧
           length p' = length p ∧ uf_inv E' p' ∧
           (E' = E ∨ E' = E ++ [(label_of a, label_of b)]) ∧
           linked E' (label_of a) (label_of b).
Proof.
  intros Hinv Ha Hb. unfold kruskal_step.
  replace (Z.to_nat (label_of a - 1)) with a by (unfold label_of; lia).
  replace (Z.to_nat (label_of b - 1)) with b by (unfold label_of; lia).
  destruct (find_call E p a Hinv Ha) as (ru & p1 & -> & Hlen1 & Hinv1 & Hru & Hlu & _ & _).
  obind.
  destruct (find_call E p1 b Hinv1 ltac:(lia)) as (rv & p2 & -> & Hlen2 & Hinv2 & Hrv & Hlv & _ & _).
  obind. destruct (decide (ru ≠ rv)) as [Hne|Heq].
  - destruct (union_spec E p2 a b _ _ Hinv2 ltac:(lia) ltac:(lia) eq_refl eq_refl)
      as (p3 & -> & Hlen3 & Hinv3).
    obind. eexists _, _. split_and!; [done|lia|done|by right|].
    apply linked_edge. set_solver.
  - assert (ru = rv) as -> by (destruct (decide (ru = rv)); [done|contradiction]).
    eexists _, _. split_and!; [done|lia|done|by left|].
    etrans; [done|]. by symmetry.
Qed.

(** The loop of lines 131-136 over edges between labels of the forest:
    it returns, every edge it has seen has its ends linked by the edges it
    kept, and those are edges it has seen, in the order seen. *)
Lemma kruskal_loop n (es : list (Z * Z)) :
  (∀ u v, (u, v) ∈ es → 1 ≤ u ≤ Z.of_nat n ∧ 1 ≤ v ≤ Z.of_nat n) →
  ∃ p E, for_each es kruskal_step (range n, []) = Ok (p, E) ∧
         (∀ u v, (u, v) ∈ es → linked E u v) ∧ E `sublist_of` es.
Proof.
  intros Hes.
  destruct (for_each_ind
    (λ done s, length s.1 = n ∧ uf_inv s.2 s.1 ∧
               (∀ u v, (u, v) ∈ done → linked s.2 u v) ∧ s.2 `sublist_of` done)
    es kruskal_step (range n, [])) as ([p E] & Hloop & _ & _ & Hlinked & Hsub).
  - simpl. split_and!; [apply length_seq|apply uf_inv_init|set_solver|done].
  - intros done [u v] rest [p E] Hsplit (Hlen & Hinv & Hlinked & Hsub). cbn [fst snd] in *.
    destruct (Hes u v) as [Hu Hv].
    { rewrite Hsplit. apply elem_of_app. right. apply elem_of_cons. by left. }
    replace u with (label_of (Z.to_nat (u - 1))) by (unfold label_of; lia).
    replace v with (label_of (Z.to_nat (v - 1))) by (unfold label_of; lia).
    destruct (kruskal_step_spec E p (Z.to_nat (u - 1)) (Z.to_nat (v - 1)) Hinv
                ltac:(lia) ltac:(lia)) as (p' & E' & -> & Hlen' & Hinv' & HE' & Hl').
    exists (p', E'). cbn [fst snd]. split_and!; [done|lia|done| |].
    + intros x y [Hin|Hin%list_elem_of_singleton]%elem_of_app.
      * eapply linked_mono; [|by apply Hlinked].
        destruct HE' as [->| ->]; [done|]. intros e He. apply elem_of_app. by left.
      * injection Hin as -> ->. done.
    + destruct HE' as [->| ->].
      * by apply sublist_inserts_r.
      * by apply sublist_app.
  - exists p, E. done.
Qed.

(** * The candidate edges of the grid *)

Section grid_edges.
Variables (rows cols n : Z).
Hypothesis Hcols : 1 ≤ cols.
Hypothesis Hn : 0 ≤ n.
Hypothesis Hcover : n ≤ rows * cols.

Let coords := grid_coords rows cols n.
Let index_of := index_items coords.

Lemma index_of_lookup (k : nat) (key : Z * Z) :
  coords !! k = Some key → assoc key index_of = Some k.
Proof using Hcols Hn Hcover.
  intros Hk. destruct (index_items_is_Some coords key) as [k' Hk'].
  { by eapply list_elem_of_lookup_2. }
  unfold index_of. rewrite Hk'. f_equal.
  apply index_items_Some in Hk'. destruct key as [r c].
  apply (grid_coords_inv rows cols n Hcols Hn Hcover) in Hk, Hk'. lia.
Qed.

Let possible := index_of ≫= cell_edges index_of false.

Lemma possible_labels u v :
  (u, v) ∈ possible → 1 ≤ u ≤ n ∧ 1 ≤ v ≤ n ∧ u < v.
Proof using Hcols Hn Hcover.
  unfold possible. intros ([[r c] i] & Hin & Hitem)%list_elem_of_bind.
  apply index_items_elem in Hitem.
  apply (grid_coords_inv rows cols n Hcols Hn Hcover) in Hitem as (Hr & Hc & Hi & Hlt).
  unfold cell_edges in Hin. rewrite app_nil_r in Hin.
  assert (∀ key, (u, v) ∈ link_edges index_of i key →
            key = (r, c + 1) ∨ key = (r + 1, c) → 1 ≤ u ≤ n ∧ 1 ≤ v ≤ n ∧ u < v) as Hkey.
  { intros key Hl Hk. unfold link_edges in Hl.
    destruct (assoc key index_of) as [k|] eqn:E; [|by apply elem_of_nil in Hl].
    apply list_elem_of_singleton in Hl as [= -> ->].
    apply index_items_Some in E. destruct key as [r' c'].
    apply (grid_coords_inv rows cols n Hcols Hn Hcover) in E as (Hr' & Hc' & Hk' & Hlt').
    destruct Hk as [[= -> ->]|[= -> ->]]; nia. }
  apply elem_of_app in Hin as [Hin|Hin]; eapply Hkey; eauto.
Qed.

Lemma possible_edge (i k : nat) (r c r' c' : Z) :
  coords !! i = Some (r, c) → coords !! k = Some (r', c') →
  (r', c') = (r, c + 1) ∨ (r', c') = (r + 1, c) →
  (label_of i, label_of k) ∈ possible.
Proof using Hcols Hn Hcover.
  intros Hi Hk Hkey. unfold possible. apply list_elem_of_bind.
  exists ((r, c), i). split; [|by apply index_items_elem].
  unfold cell_edges. rewrite app_nil_r. apply index_of_lookup in Hk.
  apply elem_of_app. destruct Hkey as [Hkey|Hkey]; [left|right];
    unfold link_edges; rewrite <-Hkey, Hk; apply list_elem_of_singleton; done.
Qed.

(** Every cell but the first has its left or its upper neighbour before
    it, so every label is linked to label 1. *)
Lemma possible_connected (k : nat) :
  (k < Z.to_nat n)%nat → linked possible 1 (label_of k).
Proof using Hcols Hn Hcover.
  induction (lt_wf k) as [k _ IH]. intros Hk.
  destruct (decide (k = 0%nat)) as [->|Hk0]; [done|].
  destruct (grid_coords_at rows cols n Hcols Hn Hcover k Hk) as (r & c & Hr & Hc & Hpos & Hat).
  destruct (decide (c = 0)) as [->|Hc0].
  - assert (1 ≤ r) by nia.
    pose proof (grid_coords_lookup rows cols n Hcols Hn Hcover (r - 1) 0
                  ltac:(lia) ltac:(lia) ltac:(nia)) as Hup.
    transitivity (label_of (Z.to_nat ((r - 1) * cols + 0))).
    + apply IH; nia.
    + apply linked_edge. eapply possible_edge; [exact Hup|exact Hat|].
      right. f_equal. lia.
  - pose proof (grid_coords_lookup rows cols n Hcols Hn Hcover r (c - 1)
                  ltac:(lia) ltac:(lia) ltac:(nia)) as Hleft.
    transitivity (label_of (Z.to_nat (r * cols + (c - 1)))).
    + apply IH; nia.
    + apply linked_edge. eapply possible_edge; [exact Hleft|exact Hat|].
      left. f_equal. lia.
Qed.
End grid_edges.

(** * The maze *)

(** The candidate edges of the grid on [n] cells. *)
Definition grid_possible (n : Z) : list (Z * Z) :=
  grid_index n ≫= cell_edges (grid_index n) false.

Lemma possible_loop coords :
  for_each (index_items coords)
           (possible_step (index_items coords) (labels (length coords))) []
  = Ok (index_items coords ≫= cell_edges (index_items coords) false).
Proof.
  rewrite <-grid_loop. apply for_each_ext. intros. apply possible_step_grid_step.
Qed.

Section maze_facts.
Context (R : PyRandom) (os_entropy : Z).

(** [maze_trace] on a positive count, from the shuffle on. *)
Lemma maze_trace_unfold (n : Z) (seed : option Z) :
  1 ≤ n →
  maze_trace R os_entropy n seed =
    (let possible := grid_possible n in
     let '(shuffled, rnd) := rng_shuffle R possible (Random R os_entropy seed) in
     '(_, edges) ← for_each shuffled kruskal_step (range (Z.to_nat n), []);
     let '(candidates, _) :=
       rng_shuffle R (filter (λ e : Z * Z, (e ∉ edges) ∧ ((e.2, e.1) ∉ edges)) possible)
                   rnd in
     Ok (mkMaze (labels (Z.to_nat n)) possible edges candidates
                (int_15_percent (length possible)))).
Proof.
  intros Hn. unfold maze_trace. rewrite grid_graph_Ok by done. obind.
  rewrite labels_length, Z2Nat.id by lia.
  destruct (ceil_sqrt_pos n Hn) as (cols & Hcols & Hc1).
  destruct (ceil_div_covers n cols Hc1) as (rows & Hrows & Hcov).
  assert (cols = Z.sqrt_up n) as Ec.
  { unfold ceil_sqrt in Hcols. rewrite bool_decide_eq_false_2 in Hcols by lia. congruence. }
  assert (rows = - (- n / cols)) as Er.
  { unfold ceil_div in Hrows. rewrite bool_decide_eq_false_2 in Hrows by lia. congruence. }
  rewrite Hcols. obind. rewrite Hrows. obind.
  pose proof (grid_coords_length rows cols n Hc1 ltac:(lia) Hcov) as Hlen.
  rewrite <-Hlen at 1. rewrite possible_loop. obind.
  unfold grid_possible, grid_index. by rewrite <-Ec, <-Er.
Qed.

(** What a run of [grid_maze_like] on a positive count goes through. *)
Lemma maze_trace_spec (n : Z) (seed : option Z) :
  1 ≤ n →
  ∃ t, maze_trace R os_entropy n seed = Ok t ∧
       mz_vertices t = labels (Z.to_nat n) ∧
       mz_possible t = grid_possible n ∧
       mz_tree t ⊆ mz_possible t ∧
       (∀ k : nat, (k < Z.to_nat n)%nat → linked (mz_tree t) 1 (label_of k)) ∧
       mz_extras t = int_15_percent (length (mz_possible t)) ∧
       mz_candidates t ≡ₚ
         filter (λ e : Z * Z, (e ∉ mz_tree t) ∧ ((e.2, e.1) ∉ mz_tree t)) (mz_possible t).
Proof.
  intros Hn. rewrite maze_trace_unfold by done. cbn zeta.
  set (possible := grid_possible n).
  assert (∃ rows cols, 1 ≤ cols ∧ n ≤ rows * cols ∧
            possible = index_items (grid_coords rows cols n) ≫=
                         cell_edges (index_items (grid_coords rows cols n)) false)
    as (rows & cols & Hc1 & Hcov & Hposs).
  { destruct (ceil_sqrt_pos n Hn) as (cols & Hcols & Hc1).
    destruct (ceil_div_covers n cols Hc1) as (rows & Hrows & Hcov).
    unfold ceil_sqrt in Hcols. rewrite bool_decide_eq_false_2 in Hcols by lia.
    unfold ceil_div in Hrows. rewrite bool_decide_eq_false_2 in Hrows by lia.
    exists rows, cols. split_and!; [done..|]. unfold possible, grid_possible, grid_index.
    congruence. }
  pose proof (rng_shuffle_perm R _ possible (Random R os_entropy seed)) as Hperm.
  destruct (rng_shuffle R possible (Random R os_entropy seed)) as [shuffled rnd1].
  simpl in Hperm.
  destruct (kruskal_loop (Z.to_nat n) shuffled) as (p & E & Hloop & Hlinked & Hsub).
  { intros u v Huv. rewrite Hperm, Hposs in Huv.
    apply (possible_labels rows cols n Hc1 ltac:(lia) Hcov) in Huv. lia. }
  rewrite Hloop. obind.
  pose proof (rng_shuffle_perm R _
    (filter (λ e : Z * Z, (e ∉ E) ∧ ((e.2, e.1) ∉ E)) possible) rnd1) as Hperm2.
  destruct (rng_shuffle R (filter _ possible) rnd1) as [candidates rnd2].
  simpl in Hperm2.
  eexists. split; [done|]. cbn [mz_vertices mz_possible mz_tree mz_extras mz_candidates].
  split_and!; [done|done| | |done|done].
  - intros e He. rewrite <-Hperm. by eapply elem_of_sublist.
  - intros k Hk. eapply linked_within;
      [|apply (possible_connected rows cols n Hc1 ltac:(lia) Hcov k Hk)].
    intros a b Hab. apply Hlinked. by rewrite Hperm, Hposs.
Qed.
End maze_facts.

(** C5: on a positive count [grid_maze_like] returns the labels [1..n],
    and the edges the union-find loop kept already link every two of
    them; so do the edges returned, which add to those. *)
Theorem grid_maze_like_connected (R : PyRandom) (os_entropy : Z) (n : Z)
    (seed : option Z) :
  1 ≤ n →
  ∃ t edges,
    maze_trace R os_entropy n seed = Ok t ∧
    grid_maze_like R os_entropy n seed = Ok (labels (Z.to_nat n), edges) ∧
    length (labels (Z.to_nat n)) = Z.to_nat n ∧
    (∀ u v, u ∈ labels (Z.to_nat n) → v ∈ labels (Z.to_nat n) →
            linked (mz_tree t) u v ∧ linked edges u v).
Proof.
  intros Hn.
  destruct (maze_trace_spec R os_entropy n seed Hn) as (t & Ht & Hv & _ & _ & Hconn & _).
  exists t, (mz_tree t ++ take (mz_extras t) (mz_candidates t)).
  split_and!; [done| |apply labels_length|].
  - unfold grid_maze_like. rewrite Ht. obind. by rewrite Hv.
  - intros u v Hu%elem_of_labels Hv'%elem_of_labels.
    assert (linked (mz_tree t) u v) as Huv.
    { transitivity 1.
      - symmetry. replace u with (label_of (Z.to_nat (u - 1))) by (unfold label_of; lia).
        apply Hconn. lia.
      - replace v with (label_of (Z.to_nat (v - 1))) by (unfold label_of; lia).
        apply Hconn. lia. }
    split; [done|]. eapply linked_mono; [|done].
    intros e He. apply elem_of_app. by left.
Qed.

Lemma grid_maze_like_connected_witness :
  ∃ t edges,
    maze_trace Twister 0 16 (Some 42) = Ok t ∧
    grid_maze_like Twister 0 16 (Some 42) = Ok (labels (Z.to_nat 16), edges) ∧
    length (labels (Z.to_nat 16)) = Z.to_nat 16 ∧
    (∀ u v, u ∈ labels (Z.to_nat 16) → v ∈ labels (Z.to_nat 16) →
            linked (mz_tree t) u v ∧ linked edges u v).
Proof. apply (grid_maze_like_connected Twister 0 16 (Some 42)). lia. Defined.

(** C2, as the code has it: the number of extra edges is 15% of all the
    candidate edges of the grid, rounded down, or the number of candidates
    the tree left when that is less; they are the first of a seeded shuffle
    of those left, a candidate being left when the tree holds it in neither
    direction. *)
Theorem grid_maze_like_extras (R : PyRandom) (os_entropy : Z) (n : Z) (seed : option Z) :
  1 ≤ n →
  ∃ t,
    maze_trace R os_entropy n seed = Ok t ∧
    grid_maze_like R os_entropy n seed
      = Ok (mz_vertices t, mz_tree t ++ take (mz_extras t) (mz_candidates t)) ∧
    mz_extras t = int_15_percent (length (mz_possible t)) ∧
    mz_candidates t ≡ₚ
      filter (λ e : Z * Z, (e ∉ mz_tree t) ∧ ((e.2, e.1) ∉ mz_tree t)) (mz_possible t) ∧
    length (take (mz_extras t) (mz_candidates t))
      = (mz_extras t `min` length (mz_candidates t))%nat.
Proof.
  intros Hn.
  destruct (maze_trace_spec R os_entropy n seed Hn) as (t & Ht & _ & _ & _ & _ & He & Hc).
  exists t. split_and!; [done| |done|done|apply length_take].
  unfold grid_maze_like. by rewrite Ht.
Qed.

Lemma grid_maze_like_extras_witness :
  ∃ t,
    maze_trace Twister 0 16 (Some 42) = Ok t ∧
    grid_maze_like Twister 0 16 (Some 42)
      = Ok (mz_vertices t, mz_tree t ++ take (mz_extras t) (mz_candidates t)) ∧
    mz_extras t = int_15_percent (length (mz_possible t)) ∧
    mz_candidates t ≡ₚ
      filter (λ e : Z * Z, (e ∉ mz_tree t) ∧ ((e.2, e.1) ∉ mz_tree t)) (mz_possible t) ∧
    length (take (mz_extras t) (mz_candidates t))
      = (mz_extras t `min` length (mz_candidates t))%nat.
Proof. apply (grid_maze_like_extras Twister 0 16 (Some 42)). lia. Defined.

(** C2 as stated fails: on 16 vertices the grid has 24 candidate edges and
    the tree leaves 9 of them; 15% of those 9 is 1.35, between 1 and 2, and
    the code adds 3. *)
Lemma maze_extras_of_all_candidates :
  ∃ t,
    maze_trace Twister 0 16 (Some 42) = Ok t ∧
    length (mz_possible t) = 24%nat ∧
    length (mz_candidates t) = 9%nat ∧
    length (take (mz_extras t) (mz_candidates t)) = 3%nat ∧
    15 * 9 / 100 = 1 ∧ - (- (15 * 9) / 100) = 2.
Proof.
  eexists. split; [by vm_compute|]. split_and!; reflexivity.
Qed.

(** * The component kept by the hypercube generator *)

Lemma adj_empty_lookup (l : list Z) (m : gmap Z (list Z)) x :
  foldl (λ m v, <[v := []]> m) m l !! x = if decide (x ∈ l) then Some [] else m !! x.
Proof.
  revert m. induction l as [|v l IH]; intros m; cbn [foldl].
  - case_decide as H; [by apply elem_of_nil in H|done].
  - rewrite IH. destruct (decide (x ∈ l)) as [Hin|Hnin].
    + rewrite decide_True; [done|by right].
    + destruct (decide (x = v)) as [->|Hne].
      * rewrite lookup_insert_eq. rewrite decide_True; [done|by left].
      * rewrite lookup_insert_ne by done. rewrite decide_False; [done|].
        intros [?|?]%elem_of_cons; done.
Qed.

Lemma dict_at_Some {V} (d : gmap Z V) (k : Z) (v : V) : d !! k = Some v → dict_at d k = Ok v.
Proof. intros H. unfold dict_at. by rewrite H. Qed.

Section component.
Variables (vertices : list Z) (edges : list (Z * Z)).
Hypothesis Hnodup : NoDup vertices.
Hypothesis Hends : ∀ u v, (u, v) ∈ edges → u ∈ vertices ∧ v ∈ vertices.

(** The dict [adj]: its keys are the vertices, and a neighbour recorded
    is the other end of an edge. *)
Definition adj_ok (adj : gmap Z (list Z)) : Prop :=
  (∀ x, is_Some (adj !! x) ↔ x ∈ vertices) ∧
  (∀ x nbs y, adj !! x = Some nbs → y ∈ nbs → (x, y) ∈ edges ∨ (y, x) ∈ edges).

Lemma adj_loop :
  ∃ adj, for_each edges add_adjacent (foldl (λ m v, <[v := []]> m) ∅ vertices) = Ok adj ∧
         adj_ok adj.
Proof using Hends.
  destruct (for_each_ind
    (λ done adj, (∀ x, is_Some (adj !! x) ↔ x ∈ vertices) ∧
                 (∀ x nbs y, adj !! x = Some nbs → y ∈ nbs →
                             (x, y) ∈ done ∨ (y, x) ∈ done))
    edges add_adjacent (foldl (λ m v, <[v := []]> m) ∅ vertices))
    as (adj & Hadj & Hkeys & Hnbs).
  - split.
    + intros x. rewrite adj_empty_lookup. case_decide; [by split; eauto|].
      rewrite lookup_empty. split; [by intros []|done].
    + intros x nbs y. rewrite adj_empty_lookup. case_decide; [|by rewrite lookup_empty].
      intros [= <-] Hy. by apply elem_of_nil in Hy.
  - intros done [u v] rest adj Hsplit [Hkeys Hnbs].
    destruct (Hends u v) as [Hu Hv].
    { rewrite Hsplit. apply elem_of_app. right. by left. }
    unfold add_adjacent.
    destruct (proj2 (Hkeys u) Hu) as [lu Hlu].
    rewrite (dict_at_Some _ _ _ Hlu). obind.
    assert (is_Some (<[u := lu ++ [v]]> adj !! v)) as [lv Hlv].
    { destruct (decide (u = v)) as [->|Hne]; [rewrite lookup_insert_eq; eauto|].
      rewrite lookup_insert_ne by done. by apply Hkeys. }
    rewrite (dict_at_Some _ _ _ Hlv). eexists. split; [done|]. split.
    + intros x. destruct (decide (x = v)) as [->|Hxv].
      { rewrite lookup_insert_eq. split; eauto. }
      rewrite lookup_insert_ne by done.
      destruct (decide (x = u)) as [->|Hxu].
      { rewrite lookup_insert_eq. split; eauto. }
      rewrite lookup_insert_ne by done. apply Hkeys.
    + intros x nbs y Hx Hy.
      assert (∀ a b, (a, b) ∈ done → (a, b) ∈ done ++ [(u, v)]) as Hmono.
      { intros a b Hab. apply elem_of_app. by left. }
      assert ((u, v) ∈ done ++ [(u, v)]) as Hlast.
      { apply elem_of_app. right. by apply list_elem_of_singleton. }
      assert (∀ nbs0, adj !! x = Some nbs0 → y ∈ nbs0 →
                (x, y) ∈ done ++ [(u, v)] ∨ (y, x) ∈ done ++ [(u, v)]) as Hold.
      { intros nbs0 H0 Hy0. destruct (Hnbs x nbs0 y H0 Hy0); [left|right]; auto. }
      destruct (decide (x = v)) as [->|Hxv].
      * rewrite lookup_insert_eq in Hx. injection Hx as <-.
        apply elem_of_app in Hy as [Hy|Hy%list_elem_of_singleton]; [|subst; by right].
        destruct (decide (u = v)) as [->|Hne].
        -- rewrite lookup_insert_eq in Hlv. injection Hlv as <-.
           apply elem_of_app in Hy as [Hy|Hy%list_elem_of_singleton]; [|subst; by left].
           by eapply Hold.
        -- rewrite lookup_insert_ne in Hlv by done. by eapply Hold.
      * rewrite lookup_insert_ne in Hx by done.
        destruct (decide (x = u)) as [->|Hxu].
        -- rewrite lookup_insert_eq in Hx. injection Hx as <-.
           apply elem_of_app in Hy as [Hy|Hy%list_elem_of_singleton]; [|subst; by left].
           by eapply Hold.
        -- rewrite lookup_insert_ne in Hx by done. by eapply Hold.
  - exists adj. done.
Qed.

(** The edges between vertices of a set. *)
Definition inside (S : gset Z) : list (Z * Z) :=
  filter (λ e : Z * Z, (e.1 ∈ S) ∧ (e.2 ∈ S)) edges.

Lemma elem_of_inside S u v : (u, v) ∈ inside S ↔ u ∈ S ∧ v ∈ S ∧ (u, v) ∈ edges.
Proof. unfold inside. rewrite list_elem_of_filter. simpl. tauto. Qed.

Lemma linked_inside_mono (S S' : gset Z) u v :
  S ⊆ S' → linked (inside S) u v → linked (inside S') u v.
Proof.
  intros Hsub. apply linked_mono. intros [a b] (Ha & Hb & Hab)%elem_of_inside.
  apply elem_of_inside. split_and!; [by apply Hsub|by apply Hsub|done].
Qed.

Variable start : Z.
Variable adj : gmap Z (list Z).
Hypothesis Hadj : adj_ok adj.

Let V : gset Z := list_to_set vertices.

(** The search: the queue holds visited vertices, and a visited vertex
    is linked to the first one by edges between visited vertices. *)
Definition bfs_inv (visited : gset Z) (q : list Z) : Prop :=
  (∀ y, y ∈ q → y ∈ visited) ∧ visited ⊆ V ∧
  (∀ y, y ∈ visited → linked (inside visited) start y).

Lemma visit_fold x nbs : ∀ visited q,
  bfs_inv visited q → x ∈ visited →
  (∀ y, y ∈ nbs → (x, y) ∈ edges ∨ (y, x) ∈ edges) →
  ∃ visited' q',
    foldl visit (visited, q) nbs = (visited', q') ∧ bfs_inv visited' q' ∧
    visited ⊆ visited' ∧
    (length q' + size (V ∖ visited') = length q + size (V ∖ visited))%nat.
Proof using Hends.
  induction nbs as [|nb nbs IH]; intros visited q Hinv Hx Hnbs.
  { exists visited, q. done. }
  cbn [foldl]. unfold visit at 2.
  destruct (decide (nb ∈ visited)) as [Hin|Hnin].
  { apply IH; [done|done|]. intros y Hy. apply Hnbs. by right. }
  destruct Hinv as (Hq & HV & Hreach).
  assert (nb ∈ vertices ∧ x ∈ vertices) as [Hnbv Hxv].
  { destruct (Hnbs nb) as [H|H]; [by left|..]; apply Hends in H; tauto. }
  assert (bfs_inv ({[nb]} ∪ visited) (q ++ [nb])) as Hinv'.
  { split_and!.
    - intros y [Hy|Hy%list_elem_of_singleton]%elem_of_app.
      + apply elem_of_union. right. by apply Hq.
      + subst. apply elem_of_union. left. by apply elem_of_singleton.
    - intros y [Hy%elem_of_singleton|Hy]%elem_of_union.
      + subst. by apply elem_of_list_to_set.
      + by apply HV.
    - assert (visited ⊆ {[nb]} ∪ visited) as Hsub by apply union_subseteq_r.
      intros y [Hy%elem_of_singleton|Hy]%elem_of_union.
      + subst y. transitivity x.
        * eapply linked_inside_mono; [done|]. by apply Hreach.
        * assert (x ∈ {[nb]} ∪ visited) by (apply elem_of_union; by right).
          assert (nb ∈ {[nb]} ∪ visited) by (apply elem_of_union; left; by apply elem_of_singleton).
          destruct (Hnbs nb) as [H'|H']; [by left|..].
          -- apply linked_edge. by apply elem_of_inside.
          -- symmetry. apply linked_edge. by apply elem_of_inside.
      + eapply linked_inside_mono; [done|]. by apply Hreach. }
  destruct (IH ({[nb]} ∪ visited) (q ++ [nb]) Hinv') as (visited' & q' & Hf & Hinv'' & Hsub & Hm).
  { apply elem_of_union. by right. }
  { intros y Hy. apply Hnbs. by right. }
  exists visited', q'. split_and!; [done|done| |].
  - etrans; [apply union_subseteq_r|done].
  - rewrite Hm, length_app. simpl.
    assert (V ∖ visited = {[nb]} ∪ V ∖ ({[nb]} ∪ visited)) as ->.
    { apply set_eq. intros y. rewrite elem_of_union, !elem_of_difference, elem_of_union,
        elem_of_singleton.
      split.
      - intros [HyV Hy]. destruct (decide (y = nb)); [by left|right]. split; [done|].
        intros [?|?]; done.
      - intros [->|[HyV Hy]].
        + split; [by apply elem_of_list_to_set|done].
        + split; [done|]. intros ?. apply Hy. by right. }
    rewrite (size_union (C:=gset Z) {[nb]} (V ∖ ({[nb]} ∪ visited))).
    + rewrite size_singleton. lia.
    + intros y Hy1%elem_of_singleton Hy2%elem_of_difference. subst.
      destruct Hy2 as [_ Hy2]. apply Hy2. apply elem_of_union. left. by apply elem_of_singleton.
Qed.

Lemma bfs_spec fuel : ∀ q visited,
  bfs_inv visited q → (length q + size (V ∖ visited) ≤ fuel)%nat →
  ∃ visited', bfs fuel adj q visited = Ok visited' ∧ visited ⊆ visited' ∧
              visited' ⊆ V ∧ (∀ y, y ∈ visited' → linked (inside visited') start y).
Proof using Hends Hadj.
  induction fuel as [|fuel IH]; intros q visited Hinv Hfuel.
  { destruct q; [|simpl in Hfuel; lia]. exists visited. destruct Hinv as (_ & ? & ?). done. }
  destruct q as [|x q].
  { exists visited. destruct Hinv as (_ & ? & ?). done. }
  cbn [bfs]. destruct Hinv as (Hq & HV & Hreach).
  assert (x ∈ visited) as Hx by (apply Hq; by left).
  assert (x ∈ vertices) as Hxv.
  { apply (elem_of_list_to_set (C:=gset Z)). by apply HV. }
  destruct Hadj as [Hkeys Hnbs].
  destruct (proj2 (Hkeys x) Hxv) as [nbs Hnb].
  rewrite (dict_at_Some _ _ _ Hnb). obind.
  destruct (visit_fold x nbs visited q) as (visited1 & q1 & -> & Hinv1 & Hsub1 & Hm).
  { split_and!; [|done|done]. intros y Hy. apply Hq. by right. }
  { done. }
  { intros y Hy. by eapply Hnbs. }
  destruct (IH q1 visited1 Hinv1) as (visited' & -> & Hsub' & HV' & Hreach').
  { simpl in Hfuel. lia. }
  exists visited'. split_and!; [done| |done|done]. by etrans.
Qed.
End component.

(** [keep_component]: it returns the first vertex, the vertices the search
    reached and the edges between them; every two of those vertices are
    linked by those edges, and no edge leads out of them. *)
Lemma keep_component_spec (vertices : list Z) (edges : list (Z * Z)) (start : Z) rest :
  vertices = start :: rest → NoDup vertices →
  (∀ u v, (u, v) ∈ edges → u ∈ vertices ∧ v ∈ vertices) →
  ∃ kept_vertices kept_edges,
    keep_component vertices edges = Ok (kept_vertices, kept_edges) ∧
    kept_vertices `sublist_of` vertices ∧ kept_edges `sublist_of` edges ∧
    start ∈ kept_vertices ∧
    (∀ u v, (u, v) ∈ kept_edges → u ∈ kept_vertices ∧ v ∈ kept_vertices) ∧
    (∀ u v, u ∈ kept_vertices → v ∈ kept_vertices → linked kept_edges u v).
Proof.
  intros Hv Hnodup Hends.
  assert (start ∈ vertices) as Hstart by (rewrite Hv; by left).
  destruct (adj_loop vertices edges Hends) as (adj & Hadjeq & Hadj).
  assert (keep_component vertices edges =
            (visited ← bfs (length vertices) adj [start] {[start]};
             if decide (size visited < length vertices)%nat then
               Ok (filter (λ v, v ∈ visited) vertices,
                   filter (λ e : Z * Z, (e.1 ∈ visited) ∧ (e.2 ∈ visited)) edges)
             else Ok (vertices, edges))) as ->.
  { unfold keep_component. rewrite Hv at 1. by rewrite Hadjeq. }
  destruct (bfs_spec vertices edges Hends start adj Hadj (length vertices) [start] {[start]})
    as (visited & -> & Hsub & HV & Hreach).
  { split_and!.
    - intros y ->%list_elem_of_singleton. by apply elem_of_singleton.
    - intros y ->%elem_of_singleton. by apply elem_of_list_to_set.
    - intros y ->%elem_of_singleton. done. }
  { rewrite size_difference, size_singleton, size_list_to_set by
      (done || (intros y ->%elem_of_singleton; by apply elem_of_list_to_set)).
    simpl. assert (1 ≤ length vertices)%nat by (rewrite Hv; simpl; lia). lia. }
  obind.
  assert (start ∈ visited) as Hsv by (apply Hsub; by apply elem_of_singleton).
  assert (∀ u v, u ∈ visited → v ∈ visited → linked (inside edges visited) u v) as Hall.
  { intros u v Hu Hv'. transitivity start; [symmetry|]; by apply Hreach. }
  destruct (decide (size visited < length vertices)%nat) as [Hlt|Hge].
  - eexists _, _. split; [done|]. fold (inside edges visited).
    split_and!; [apply sublist_filter|apply sublist_filter| | |].
    + apply list_elem_of_filter. done.
    + intros u v (Hu & Hv' & Huv)%elem_of_inside. simpl in *.
      destruct (Hends u v Huv). split; apply list_elem_of_filter; done.
    + intros u v [Hu _]%list_elem_of_filter [Hv' _]%list_elem_of_filter. by apply Hall.
  - eexists _, _. split; [done|].
    assert (visited = list_to_set vertices) as Heq.
    { apply set_subseteq_size_eq; [done|]. rewrite size_list_to_set by done. lia. }
    split_and!; [done|done|done|by apply Hends|].
    intros u v Hu Hv'. eapply linked_mono; [|apply (Hall u v)].
    + intros e He. unfold inside in He. by apply list_elem_of_filter in He as [_ ?].
    + rewrite Heq. by apply elem_of_list_to_set.
    + rewrite Heq. by apply elem_of_list_to_set.
Qed.

(** * The hypercube *)

(** [{vertices_binary[i]: i+1 for i in range(len(vertices_binary))}] *)
Definition index_map_of (vertices_binary : list Z) : gmap Z Z :=
  foldl (λ m '(i, b), <[b := Z.of_nat i + 1]> m) ∅ (imap (λ i b, (i, b)) vertices_binary).

Lemma index_map_from (l : list Z) : ∀ (o : nat) (m : gmap Z Z) (b : Z),
  (b ∉ l →
   foldl (λ m '(i, b), <[b := Z.of_nat i + 1]> m) m (imap (λ i b, ((o + i)%nat, b)) l) !! b
   = m !! b) ∧
  (NoDup l → ∀ i, l !! i = Some b →
   foldl (λ m '(i, b), <[b := Z.of_nat i + 1]> m) m (imap (λ i b, ((o + i)%nat, b)) l) !! b
   = Some (Z.of_nat (o + i) + 1)).
Proof.
  induction l as [|x l IH]; intros o m b.
  { split; [done|]. intros _ i Hi. done. }
  assert (imap (λ i b0, ((o + i)%nat, b0)) (x :: l)
          = (o, x) :: imap (λ i b0, ((S o + i)%nat, b0)) l) as ->.
  { simpl. f_equal; [f_equal; lia|]. apply imap_ext. intros i y _. simpl. f_equal. lia. }
  cbn [foldl]. split.
  - intros Hb. apply not_elem_of_cons in Hb as [Hbx Hbl].
    rewrite (proj1 (IH (S o) _ b) Hbl). by rewrite lookup_insert_ne.
  - intros Hnd i Hi. apply NoDup_cons in Hnd as [Hx Hnd]. destruct i as [|i].
    + injection Hi as ->. rewrite (proj1 (IH (S o) _ b) Hx), lookup_insert_eq.
      do 2 f_equal. lia.
    + rewrite (proj2 (IH (S o) _ b) Hnd i Hi). do 2 f_equal. lia.
Qed.

Lemma index_map_lookup (vb : list Z) (i : nat) (b : Z) :
  NoDup vb → vb !! i = Some b → index_map_of vb !! b = Some (Z.of_nat i + 1).
Proof.
  intros Hnd Hi. unfold index_map_of.
  apply (proj2 (index_map_from vb 0 ∅ b) Hnd i Hi).
Qed.

Lemma index_map_value (vb : list Z) (b y : Z) :
  NoDup vb → index_map_of vb !! b = Some y → y ∈ labels (length vb).
Proof.
  intros Hnd Hy. destruct (decide (b ∈ vb)) as [Hin|Hnin].
  - apply list_elem_of_lookup in Hin as [i Hi].
    rewrite (index_map_lookup vb i b Hnd Hi) in Hy. injection Hy as <-.
    apply elem_of_labels. apply lookup_lt_Some in Hi. lia.
  - unfold index_map_of in Hy.
    rewrite (proj1 (index_map_from vb 0 ∅ b) Hnin) in Hy. done.
Qed.

Lemma mapM_Ok {A B} (f : A → outcome B) (l : list A) (k : list B) :
  Forall2 (λ x y, f x = Ok y) l k → mapM f l = Ok k.
Proof. induction 1 as [|x y l k Hxy _ IH]; [done|]. simpl. by rewrite Hxy, IH. Qed.

Lemma index_map_vertices (vb : list Z) :
  NoDup vb → mapM (dict_at (index_map_of vb)) vb = Ok (labels (length vb)).
Proof.
  intros Hnd. apply mapM_Ok. apply Forall2_same_length_lookup. split.
  { by rewrite labels_length. }
  intros i b y Hb Hy. rewrite labels_lookup in Hy by (by eapply lookup_lt_Some).
  injection Hy as <-. apply dict_at_Some. by apply index_map_lookup.
Qed.

Lemma NoDup_labels k : NoDup (labels k).
Proof.
  unfold labels, range. apply NoDup_fmap_2; [|apply NoDup_seq].
  intros i j Hij. unfold _label in Hij. lia.
Qed.

Lemma NoDup_zrange k : NoDup (zrange k).
Proof. unfold zrange. apply NoDup_fmap_2; [apply _|apply NoDup_seq]. Qed.

(** The edges of the cube between surviving vertices join labels. *)
Lemma cube_edges_loop (vb : list Z) (d : Z) :
  NoDup vb →
  ∃ edges, for_each vb (cube_edges_from (index_map_of vb) d) [] = Ok edges ∧
           ∀ u v, (u, v) ∈ edges → u ∈ labels (length vb) ∧ v ∈ labels (length vb).
Proof.
  intros Hnd.
  destruct (for_each_ind
    (λ (done : list Z) (edges : list (Z * Z)),
       ∀ u v, (u, v) ∈ edges → u ∈ labels (length vb) ∧ v ∈ labels (length vb))
    vb (cube_edges_from (index_map_of vb) d) []) as (edges & Hloop & Hedges).
  - intros u v Huv. by apply elem_of_nil in Huv.
  - intros done b rest edges Hsplit Hinv.
    assert (b ∈ vb) as Hb by (rewrite Hsplit; apply elem_of_app; right; by left).
    apply list_elem_of_lookup in Hb as [i Hi].
    pose proof (index_map_lookup vb i b Hnd Hi) as Hmb.
    unfold cube_edges_from.
    destruct (for_each_ind
      (λ (done : list Z) (edges : list (Z * Z)),
         ∀ u v, (u, v) ∈ edges → u ∈ labels (length vb) ∧ v ∈ labels (length vb))
      (zrange d)
      (λ edges bit,
         let nb := Z.lxor b (Z.shiftl 1 bit) in
         if bool_decide (is_Some (index_map_of vb !! nb)) && bool_decide (b < nb) then
           u ← dict_at (index_map_of vb) b;
           v ← dict_at (index_map_of vb) nb;
           Ok (edges ++ [(u, v)])
         else Ok edges)
      edges) as (edges' & Hloop' & Hedges'); [done| |by exists edges'].
    intros done' bit rest' edges0 _ Hinv0. cbn zeta.
    destruct (bool_decide (is_Some (index_map_of vb !! Z.lxor b (Z.shiftl 1 bit)))) eqn:E;
      [|by exists edges0].
    apply bool_decide_eq_true_1 in E as [y Hy].
    destruct (bool_decide (b < Z.lxor b (Z.shiftl 1 bit))); [|by exists edges0].
    simpl. rewrite (dict_at_Some _ _ _ Hmb). obind. rewrite (dict_at_Some _ _ _ Hy). obind.
    eexists. split; [done|].
    intros u v [Huv|Huv%list_elem_of_singleton]%elem_of_app; [by apply Hinv0|].
    injection Huv as -> ->. split; by eapply index_map_value.
  - by exists edges.
Qed.

Section hypercube_facts.
Context (R : PyRandom) (os_entropy : Z).

(** The vertices left after the removal: distinct, and not all gone. *)
Lemma survivors (n : Z) (rnd : rng R) :
  1 ≤ n →
  ∃ vb,
    (if bool_decide (n < 2 ^ ceil_log2 (Z.max 1 n)) then
       '(drawn, _) ← sample R (zrange (2 ^ ceil_log2 (Z.max 1 n)))
                        (2 ^ ceil_log2 (Z.max 1 n) - n) rnd;
       Ok (filter (λ v, v ∉ (list_to_set drawn : gset Z))
                  (zrange (2 ^ ceil_log2 (Z.max 1 n))))
     else Ok (zrange (2 ^ ceil_log2 (Z.max 1 n)))) = Ok vb ∧ NoDup vb ∧ vb ≠ [].
Proof.
  intros Hn. set (N := 2 ^ ceil_log2 (Z.max 1 n)).
  assert (1 ≤ N) as HN.
  { unfold N, ceil_log2. pose proof (Z.log2_up_nonneg (Z.max 1 n)).
    pose proof (Z.pow_pos_nonneg 2 (Z.log2_up (Z.max 1 n))). lia. }
  assert (length (zrange N) = Z.to_nat N) as Hlen.
  { unfold zrange. by rewrite length_fmap, length_seq. }
  case_bool_decide as Hlt.
  - unfold sample. rewrite bool_decide_eq_true_2 by (rewrite Hlen; lia). obind.
    pose proof (rng_sample_length R _ (zrange N) (Z.to_nat (N - n)) rnd) as Hdrawn.
    destruct (rng_sample R (zrange N) (Z.to_nat (N - n)) rnd) as [drawn rnd'].
    simpl in Hdrawn. specialize (Hdrawn ltac:(lia)).
    eexists. split; [done|]. split; [apply NoDup_filter, NoDup_zrange|].
    intros Hnil.
    assert (zrange N ⊆+ drawn) as Hsub.
    { apply NoDup_submseteq; [apply NoDup_zrange|]. intros x Hx.
      destruct (decide (x ∈ drawn)) as [|Hnin]; [done|]. exfalso.
      assert (x ∈ filter (λ v, v ∉ (list_to_set drawn : gset Z)) (zrange N)) as Hf.
      { apply list_elem_of_filter. split; [|done]. by rewrite elem_of_list_to_set. }
      rewrite Hnil in Hf. by apply elem_of_nil in Hf. }
    apply submseteq_length in Hsub. lia.
  - eexists. split; [done|]. split; [apply NoDup_zrange|].
    intros Hnil. rewrite Hnil in Hlen. simpl in Hlen. lia.
Qed.

Lemma hypercube_graph_spec (n : Z) (seed : option Z) :
  1 ≤ n →
  ∃ vertices edges,
    hypercube_graph R os_entropy n seed = Ok (vertices, edges) ∧
    vertices ≠ [] ∧ NoDup vertices ∧
    (∀ u v, (u, v) ∈ edges → u ∈ vertices ∧ v ∈ vertices) ∧
    (∀ u v, u ∈ vertices → v ∈ vertices → linked edges u v).
Proof.
  intros Hn. unfold hypercube_graph. cbn zeta.
  destruct (survivors n (Random R os_entropy seed) Hn) as (vb & -> & Hnd & Hne).
  obind. fold (index_map_of vb).
  rewrite index_map_vertices by done. obind.
  destruct (cube_edges_loop vb (ceil_log2 (Z.max 1 n)) Hnd) as (edges & -> & Hedges).
  obind.
  assert (∃ rest, labels (length vb) = 1 :: rest) as [rest Hlab].
  { destruct vb as [|b vb]; [done|]. simpl. eauto. }
  destruct (keep_component_spec (labels (length vb)) edges 1 rest Hlab
              (NoDup_labels _) Hedges)
    as (V' & E' & -> & HsubV & HsubE & Hstart & Hinside & Hlinked).
  exists V', E'. split_and!; [done| |by eapply sublist_NoDup; [apply NoDup_labels|exact HsubV]|done|done].
  intros ->. by apply elem_of_nil in Hstart.
Qed.
End hypercube_facts.

(** * The metadata of [make_all_graphs] *)

(** A run of [make_all_graphs] that returns, and what it records for the
    hypercube. *)
Example make_all_graphs_two :
  ∃ res, make_all_graphs Twister 0 log_at_two [1; 2] 42 1 30 true = Ok res ∧
         en_vertices <$> ag_hypercube res !! 2 = Some [1; 2] ∧
         en_meta <$> ag_hypercube res !! 2 = Some (mkMeta 1 (Some 2%nat)).
Proof. eexists. split; [by vm_compute|]. split; by vm_compute. Qed.

(** A removal that disconnects the cube: of the nine vertices asked for,
    the search from the first leaves out the one labelled 2. *)
Example hypercube_pruned :
  hypercube_graph Twister 0 9 (Some 4)
  = Ok ([1; 3; 4; 5; 6; 7; 8; 9],
        [(1, 4); (3, 8); (4, 5); (4, 6); (4, 7); (5, 8); (6, 9); (7, 8); (7, 9)]).
Proof. by vm_compute. Qed.

(** * The Floyd-Warshall engine on any graph *)

(** ** Distances *)

Definition dle (a b : dist_t) : Prop :=
  match a, b with
  | Fin x, Fin y => x ≤ y
  | _, Inf => True
  | Inf, Fin _ => False
  end.

(** The sum of two distances, where Python computes it. *)
Definition dsum (a b : dist_t) : dist_t :=
  match a, b with
  | Fin x, Fin y => Fin (x + y)
  | _, _ => Inf
  end.

(** A distance that Python can add to [inf]. *)
Definition fits (d : dist_t) : Prop :=
  match d with
  | Fin x => fits_double x = true
  | Inf => True
  end.

Lemma dadd_Ok a b c : dadd a b = Ok c → c = dsum a b.
Proof.
  destruct a as [x|], b as [y|]; simpl; try (by intros [= <-]);
    destruct (fits_double _); by intros [= <-].
Qed.

Lemma dadd_fits a b : fits a → fits b → dadd a b = Ok (dsum a b).
Proof. destruct a as [x|], b as [y|]; simpl; try done; by intros; simplify_eq; rewrite ?H, ?H0. Qed.

(** The smaller of two distances, the first on a tie. *)
Definition dmin (a b : dist_t) : dist_t := if dgt a b then b else a.

Lemma dle_refl a : dle a a.
Proof. destruct a; simpl; lia. Qed.

Lemma dle_trans a b c : dle a b → dle b c → dle a c.
Proof. destruct a, b, c; simpl; try done; lia. Qed.

Lemma dgt_dle a b : dgt a b = false ↔ dle a b.
Proof.
  unfold dgt, dlt. destruct a, b; simpl; try done.
  rewrite bool_decide_eq_false. lia.
Qed.

Lemma dgt_true a b : dgt a b = true ↔ ¬ dle a b.
Proof. rewrite <-dgt_dle. destruct (dgt a b); naive_solver. Qed.

Lemma dmin_le_l a b : dle (dmin a b) a.
Proof.
  unfold dmin. destruct (dgt a b) eqn:E; [|apply dle_refl].
  apply dgt_true in E. destruct a, b; simpl in *; try done; lia.
Qed.

Lemma dmin_le_r a b : dle (dmin a b) b.
Proof.
  unfold dmin. destruct (dgt a b) eqn:E; [apply dle_refl|]. by apply dgt_dle.
Qed.

Lemma dsum_mono a a' b b' : dle a a' → dle b b' → dle (dsum a b) (dsum a' b').
Proof. destruct a, a', b, b'; simpl; try done; lia. Qed.

(** ** Matrices *)

(** A matrix of [n] rows of [n] entries. *)
Definition square {A} (n : nat) (m : list (list A)) : Prop :=
  length m = n ∧ ∀ i row, m !! i = Some row → length row = n.

(** The entry [m[i][j]], [d] where there is none. *)
Definition mat_at {A} (d : A) (m : list (list A)) (i j : nat) : A :=
  default d (row ← m !! i; row !! j).

(** The matrix after [m[i][j] = x]. *)
Definition mat_put {A} (m : list (list A)) (i j : nat) (x : A) : list (list A) :=
  match m !! i with
  | Some row => <[i := <[j := x]> row]> m
  | None => m
  end.

Lemma square_replicate {A} (n : nat) (x : A) : square n (replicate n (replicate n x)).
Proof.
  split; [by rewrite length_replicate|].
  intros i row [-> _]%lookup_replicate. by rewrite length_replicate.
Qed.

Lemma mat_at_replicate {A} (d : A) (n : nat) (x : A) (i j : nat) :
  (i < n)%nat → (j < n)%nat → mat_at d (replicate n (replicate n x)) i j = x.
Proof.
  intros Hi Hj. unfold mat_at. rewrite lookup_replicate_2 by done. simpl.
  by rewrite lookup_replicate_2.
Qed.

Lemma square_row {A} (n : nat) (m : list (list A)) (i : nat) :
  square n m → (i < n)%nat → ∃ row, m !! i = Some row ∧ length row = n.
Proof.
  intros [Hlen Hrows] Hi. destruct (lookup_lt_is_Some_2 m i) as [row Hrow]; [lia|].
  exists row. split; [done|]. by eapply Hrows.
Qed.

Lemma mget_square {A} (d : A) (n : nat) (m : list (list A)) (i j : nat) :
  square n m → (i < n)%nat → (j < n)%nat → mget m i j = Ok (mat_at d m i j).
Proof.
  intros Hsq Hi Hj. destruct (square_row n m i Hsq Hi) as (row & Hrow & Hlen).
  destruct (lookup_lt_is_Some_2 row j) as [x Hx]; [lia|].
  unfold mget, mat_at, lget. rewrite Hrow. simpl. by rewrite Hx.
Qed.

Lemma mset_square {A} (n : nat) (m : list (list A)) (i j : nat) (x : A) :
  square n m → (i < n)%nat → (j < n)%nat → mset m i j x = Ok (mat_put m i j x).
Proof.
  intros Hsq Hi Hj. destruct (square_row n m i Hsq Hi) as (row & Hrow & Hlen).
  unfold mset, mat_put, lget. rewrite Hrow. simpl.
  rewrite lset_lt by lia. simpl. rewrite lset_lt; [done|]. destruct Hsq. lia.
Qed.

Lemma square_put {A} (n : nat) (m : list (list A)) (i j : nat) (x : A) :
  square n m → square n (mat_put m i j x).
Proof.
  intros [Hlen Hrows]. unfold mat_put. destruct (m !! i) as [row|] eqn:Hrow; [|done].
  split; [by rewrite length_insert|].
  intros a r Ha. destruct (decide (a = i)) as [->|Hne].
  - rewrite list_lookup_insert_eq in Ha by (by eapply lookup_lt_Some).
    injection Ha as <-. rewrite length_insert. by eapply Hrows.
  - rewrite list_lookup_insert_ne in Ha by done. by eapply Hrows.
Qed.

Lemma mat_at_put {A} (d : A) (n : nat) (m : list (list A)) (i j : nat) (x : A) (a b : nat) :
  square n m → (i < n)%nat → (j < n)%nat →
  mat_at d (mat_put m i j x) a b = if decide (a = i ∧ b = j) then x else mat_at d m a b.
Proof.
  intros Hsq Hi Hj. destruct (square_row n m i Hsq Hi) as (row & Hrow & Hlen).
  unfold mat_put, mat_at. rewrite Hrow.
  destruct (decide (a = i)) as [->|Hne].
  - rewrite list_lookup_insert_eq by (by eapply lookup_lt_Some). simpl.
    destruct (decide (b = j)) as [->|Hne].
    + rewrite decide_True by done. by rewrite list_lookup_insert_eq by lia.
    + rewrite decide_False by (by intros [_ ?]).
      rewrite list_lookup_insert_ne by done. by rewrite Hrow.
  - rewrite decide_False by (by intros [? _]). by rewrite list_lookup_insert_ne by done.
Qed.

(** ** The loops as functions

    On square matrices and indices in range no access of the triple loop
    raises: a pass of the loop is a function of the matrices. *)

Definition sq (n : nat) (s : matrices) : Prop := square n s.1 ∧ square n s.2.

Definition relax_pure (k i : nat) (s : matrices) (j : nat) : matrices :=
  let custo_via_k := dsum (mat_at Inf s.1 i k) (mat_at Inf s.1 k j) in
  if dgt (mat_at Inf s.1 i j) custo_via_k
  then (mat_put s.1 i j custo_via_k, mat_put s.2 i j (mat_at None s.2 i k))
  else s.

Definition relax_row (n k : nat) (s : matrices) (i : nat) : matrices :=
  foldl (relax_pure k i) s (range n).

Definition relax_round (n : nat) (s : matrices) (k : nat) : matrices :=
  foldl (relax_row n k) s (range n).

Lemma foldl_range_ind {S} (I : nat → S → Prop) (f : S → nat → S) (n : nat) (s : S) :
  I 0%nat s →
  (∀ t s, (t < n)%nat → I t s → I (Datatypes.S t) (f s t)) →
  I n (foldl f s (range n)).
Proof.
  intros H0 Hstep. unfold range. induction n as [|n IH]; [done|].
  rewrite seq_S, foldl_app. simpl. apply Hstep; [lia|].
  apply IH. intros t s' Ht. apply Hstep. lia.
Qed.

Lemma elem_of_range (n i : nat) : i ∈ range n ↔ (i < n)%nat.
Proof. unfold range. rewrite elem_of_seq. lia. Qed.

Lemma sq_relax_pure n k i j s : sq n s → sq n (relax_pure k i s j).
Proof.
  intros [Hd Hp]. unfold relax_pure. destruct (dgt _ _); [|done].
  split; simpl; by apply square_put.
Qed.

(** A step that returns has done what [relax_pure] does. *)
Lemma relax_Ok n k i j s s' :
  sq n s → (k < n)%nat → (i < n)%nat → (j < n)%nat →
  relax k i s j = Ok s' → s' = relax_pure k i s j.
Proof.
  intros [Hd Hp] Hk Hi Hj. destruct s as [dist prox]. unfold relax, relax_pure.
  simpl in *.
  rewrite !(mget_square Inf n) by done. obind.
  intros (c & ->%dadd_Ok & H)%bind_Ok_inv. revert H.
  destruct (dgt _ _); [|by intros [= <-]].
  rewrite (mset_square n) by done. obind.
  rewrite (mget_square None n) by done. obind.
  rewrite (mset_square n) by done. by intros [= <-].
Qed.

(** A step returns when Python can add its two operands. *)
Lemma relax_eq n k i j s :
  sq n s → (k < n)%nat → (i < n)%nat → (j < n)%nat →
  fits (mat_at Inf s.1 i k) → fits (mat_at Inf s.1 k j) →
  relax k i s j = Ok (relax_pure k i s j).
Proof.
  intros [Hd Hp] Hk Hi Hj Fik Fkj. destruct s as [dist prox]. unfold relax, relax_pure.
  simpl in *.
  rewrite !(mget_square Inf n) by done. obind. rewrite dadd_fits by done. obind.
  destruct (dgt _ _); [|done].
  rewrite (mset_square n) by done. obind.
  rewrite (mget_square None n) by done. obind.
  by rewrite (mset_square n) by done.
Qed.

Lemma sq_relax_row n k i s : sq n s → sq n (relax_row n k s i).
Proof.
  intros Hs. unfold relax_row.
  apply (foldl_range_ind (λ _ s, sq n s)); [done|].
  intros t s' _. apply sq_relax_pure.
Qed.

Lemma sq_relax_round n k s : sq n s → sq n (relax_round n s k).
Proof.
  intros Hs. unfold relax_round.
  apply (foldl_range_ind (λ _ s, sq n s)); [done|].
  intros t s' _. apply sq_relax_row.
Qed.

Lemma for_each_pure_inv {A S} (I : S → Prop) (f : S → A → S) (xs : list A)
    (body : S → A → outcome S) (s s' : S) :
  I s →
  (∀ s x s', x ∈ xs → I s → body s x = Ok s' → s' = f s x ∧ I s') →
  for_each xs body s = Ok s' → s' = foldl f s xs ∧ I s'.
Proof.
  revert s. induction xs as [|x xs IH]; intros s Hs Hstep; simpl.
  - by intros [= <-].
  - intros (s1 & H1 & Hrest)%bind_Ok_inv.
    destruct (Hstep s x s1) as [-> Hi]; [by left|done|done|].
    apply IH; [done| |done]. intros s2 y s3 Hy. apply Hstep. by right.
Qed.

(** A triple loop that returns has made the passes of [relax_round]. *)
Lemma relax_all_Ok n s s' :
  sq n s → relax_all n s = Ok s' → s' = foldl (relax_round n) s (range n).
Proof.
  intros Hs H. unfold relax_all in H.
  apply (for_each_pure_inv (sq n) (relax_round n)) in H as [-> _]; [done|done|].
  intros s1 k s2 Hk%elem_of_range Hs1 H1.
  apply (for_each_pure_inv (sq n) (relax_row n k)) in H1 as [-> ?]; [done|done|].
  intros s3 i s4 Hi%elem_of_range Hs3 H3.
  apply (for_each_pure_inv (sq n) (relax_pure k i)) in H3 as [-> ?]; [done|done|].
  intros s5 j s6 Hj%elem_of_range Hs5 H5.
  apply (relax_Ok n) in H5 as ->; [|done..]. split; [done|by apply sq_relax_pure].
Qed.

(** ** One pass of the triple loop *)

Lemma relax_pure_D n k i j s a b :
  sq n s → (i < n)%nat → (j < n)%nat →
  mat_at Inf (relax_pure k i s j).1 a b
  = if decide (a = i ∧ b = j)
    then dmin (mat_at Inf s.1 i j) (dsum (mat_at Inf s.1 i k) (mat_at Inf s.1 k j))
    else mat_at Inf s.1 a b.
Proof.
  intros [Hd Hp] Hi Hj. unfold relax_pure, dmin.
  destruct (dgt _ _) eqn:E; simpl.
  - by rewrite (mat_at_put Inf n) by done.
  - by destruct (decide (a = i ∧ b = j)) as [[-> ->]|].
Qed.

Lemma relax_pure_P n k i j s a b :
  sq n s → (i < n)%nat → (j < n)%nat →
  mat_at None (relax_pure k i s j).2 a b
  = if decide (a = i ∧ b = j)
    then (if dgt (mat_at Inf s.1 i j) (dsum (mat_at Inf s.1 i k) (mat_at Inf s.1 k j))
          then mat_at None s.2 i k else mat_at None s.2 i j)
    else mat_at None s.2 a b.
Proof.
  intros [Hd Hp] Hi Hj. unfold relax_pure.
  destruct (dgt _ _) eqn:E; simpl.
  - by rewrite (mat_at_put None n) by done.
  - by destruct (decide (a = i ∧ b = j)) as [[-> ->]|].
Qed.

(** The entries after a simultaneous pass over [k]. *)
Definition upd_D (k : nat) (s : matrices) (a b : nat) : dist_t :=
  dmin (mat_at Inf s.1 a b) (dsum (mat_at Inf s.1 a k) (mat_at Inf s.1 k b)).

Definition upd_P (k : nat) (s : matrices) (a b : nat) : option nat :=
  if dgt (mat_at Inf s.1 a b) (dsum (mat_at Inf s.1 a k) (mat_at Inf s.1 k b))
  then mat_at None s.2 a k else mat_at None s.2 a b.

Lemma dmin_self x : dmin x x = x.
Proof. unfold dmin. by destruct (dgt x x). Qed.

Lemma dgt_irrefl x : dgt x x = false.
Proof. apply dgt_dle, dle_refl. Qed.

Lemma dsum_0_l x : dsum (Fin 0) x = x.
Proof. destruct x; simpl; [f_equal; lia|done]. Qed.

Lemma dsum_0_r x : dsum x (Fin 0) = x.
Proof. destruct x; simpl; [f_equal; lia|done]. Qed.

(** What a row of the pass leaves. *)
Record row_done (n k i : nat) (s s' : matrices) (t : nat) : Prop := {
  rd_sq : sq n s';
  rd_other : ∀ a b, ¬ (a = i ∧ (b < t)%nat) →
    mat_at Inf s'.1 a b = mat_at Inf s.1 a b ∧ mat_at None s'.2 a b = mat_at None s.2 a b;
  rd_le : ∀ b, dle (mat_at Inf s'.1 i b) (mat_at Inf s.1 i b);
  rd_via : ∀ b, (b < t)%nat →
    dle (mat_at Inf s'.1 i b) (dsum (mat_at Inf s.1 i k) (mat_at Inf s.1 k b));
  rd_exact : mat_at Inf s.1 k k = Fin 0 → ∀ b, (b < t)%nat →
    mat_at Inf s'.1 i b = upd_D k s i b ∧ mat_at None s'.2 i b = upd_P k s i b
}.

Lemma relax_row_done n k i s :
  sq n s → (i < n)%nat → row_done n k i s (relax_row n k s i) n.
Proof.
  intros Hs Hi. unfold relax_row.
  apply (foldl_range_ind (λ t s', row_done n k i s s' t)).
  { split; [done|done|intros; apply dle_refl|intros; lia|intros; lia]. }
  intros t s' Ht [Hsq Hother Hle Hvia Hexact].
  assert (mat_at Inf s'.1 i t = mat_at Inf s.1 i t ∧ mat_at None s'.2 i t = mat_at None s.2 i t)
    as [Hit Hpit] by (apply Hother; lia).
  assert (dle (mat_at Inf s'.1 i k) (mat_at Inf s.1 i k)) as Hik by apply Hle.
  assert (dle (mat_at Inf s'.1 k t) (mat_at Inf s.1 k t)) as Hkt.
  { destruct (decide (k = i)) as [->|Hne]; [apply Hle|].
    rewrite (proj1 (Hother k t ltac:(by intros [? _]))). apply dle_refl. }
  split.
  - by apply sq_relax_pure.
  - intros a b Hab. rewrite (relax_pure_D n), (relax_pure_P n) by done.
    rewrite !decide_False by (intros [? ?]; apply Hab; split; [done|lia]).
    apply Hother. intros [? ?]. apply Hab. split; [done|lia].
  - intros b. rewrite (relax_pure_D n) by done.
    destruct (decide (i = i ∧ b = t)) as [[_ ->]|_]; [|apply Hle].
    eapply dle_trans; [apply dmin_le_l|apply Hle].
  - intros b Hb. rewrite (relax_pure_D n) by done.
    destruct (decide (i = i ∧ b = t)) as [[_ ->]|Hne].
    + eapply dle_trans; [apply dmin_le_r|]. by apply dsum_mono.
    + apply Hvia. destruct (decide (b = t)); [by destruct Hne|lia].
  - intros Hkk b Hb. rewrite (relax_pure_D n), (relax_pure_P n) by done.
    destruct (decide (i = i ∧ b = t)) as [[_ ->]|Hne].
    + assert (mat_at Inf s'.1 i k = mat_at Inf s.1 i k ∧
              mat_at None s'.2 i k = mat_at None s.2 i k) as [Eik Epik].
      { destruct (decide (k < t)%nat) as [Hlt|Hge].
        - destruct (Hexact Hkk k Hlt) as [-> ->]. unfold upd_D, upd_P.
          by rewrite Hkk, dsum_0_r, dmin_self, dgt_irrefl.
        - apply Hother. lia. }
      assert (mat_at Inf s'.1 k t = mat_at Inf s.1 k t) as Ekt.
      { destruct (decide (k = i)) as [->|Hne]; [done|].
        apply Hother. by intros [? _]. }
      unfold upd_D, upd_P. by rewrite Hit, Hpit, Eik, Epik, Ekt.
    + apply Hexact; [done|]. destruct (decide (b = t)); [by destruct Hne|lia].
Qed.

(** What the pass leaves after its first [t] rows. *)
Record round_done (n k : nat) (s s' : matrices) (t : nat) : Prop := {
  rn_sq : sq n s';
  rn_rest : ∀ a b, (t ≤ a)%nat →
    mat_at Inf s'.1 a b = mat_at Inf s.1 a b ∧ mat_at None s'.2 a b = mat_at None s.2 a b;
  rn_le : ∀ a b, dle (mat_at Inf s'.1 a b) (mat_at Inf s.1 a b);
  rn_via : ∀ a b, (a < t)%nat → (b < n)%nat →
    dle (mat_at Inf s'.1 a b) (dsum (mat_at Inf s.1 a k) (mat_at Inf s.1 k b));
  rn_exact : mat_at Inf s.1 k k = Fin 0 → ∀ a b, (a < t)%nat → (b < n)%nat →
    mat_at Inf s'.1 a b = upd_D k s a b ∧ mat_at None s'.2 a b = upd_P k s a b
}.

Lemma relax_round_done n k s :
  sq n s → (k < n)%nat → round_done n k s (relax_round n s k) n.
Proof.
  intros Hs Hk. unfold relax_round.
  apply (foldl_range_ind (λ t s', round_done n k s s' t)).
  { split; [done|done|intros; apply dle_refl|intros; lia|intros; lia]. }
  intros t s' Ht [Hsq Hrest Hle Hvia Hexact].
  destruct (relax_row_done n k t s' Hsq Ht) as [Rsq Rother Rle Rvia Rexact].
  split.
  - done.
  - intros a b Ha. destruct (Rother a b) as [-> ->]; [intros [? _]; lia|].
    apply Hrest. lia.
  - intros a b. destruct (decide (a = t)) as [->|Hne].
    + eapply dle_trans; [apply Rle|apply Hle].
    + destruct (Rother a b) as [-> _]; [by intros [? _]|]. apply Hle.
  - intros a b Ha Hb. destruct (decide (a = t)) as [->|Hne].
    + eapply dle_trans; [by apply Rvia|]. apply dsum_mono; apply Hle.
    + destruct (Rother a b) as [-> _]; [by intros [? _]|]. apply Hvia; [lia|done].
  - intros Hkk a b Ha Hb. destruct (decide (a = t)) as [->|Hne].
    + assert (∀ c, (c < n)%nat → mat_at Inf s'.1 k c = mat_at Inf s.1 k c) as Erow.
      { intros c Hc. destruct (decide (k < t)%nat) as [Hlt|Hge].
        - destruct (Hexact Hkk k c Hlt Hc) as [-> _]. unfold upd_D.
          by rewrite Hkk, dsum_0_l, dmin_self.
        - apply Hrest. lia. }
      destruct (Rexact ltac:(rewrite Erow; done) b Hb) as [-> ->].
      unfold upd_D, upd_P. rewrite (Erow b Hb).
      destruct (Hrest t b ltac:(lia)) as [-> ->].
      by destruct (Hrest t k ltac:(lia)) as [-> ->].
    + destruct (Rother a b) as [-> ->]; [by intros [? _]|]. apply Hexact; [done|lia|done].
Qed.

(** ** Walks between indices *)

(** [iwalk arc i l j c]: the arcs from [i] through the indices [l] to [j]
    weigh [c] together. *)
Inductive iwalk (arc : nat → nat → Z → Prop) : nat → list nat → nat → Z → Prop :=
  | iw_arc i j w : arc i j w → iwalk arc i [] j w
  | iw_cons i m l j w c : arc i m w → iwalk arc m l j c → iwalk arc i (m :: l) j (w + c).

Lemma iwalk_eq arc i l j c c' : iwalk arc i l j c → c = c' → iwalk arc i l j c'.
Proof. by intros H <-. Qed.

Lemma iwalk_app arc i l1 k x l2 j y :
  iwalk arc i l1 k x → iwalk arc k l2 j y → iwalk arc i (l1 ++ k :: l2) j (x + y).
Proof.
  intros H1 H2. induction H1 as [i k w Hw|i m l k w c Hw H1 IH]; simpl.
  - by constructor.
  - eapply iwalk_eq; [apply iw_cons; [done|by apply IH]|lia].
Qed.

Lemma iwalk_split arc k i l j c :
  iwalk arc i l j c → k ∈ l →
  ∃ l1 l2 c1 c2, l = l1 ++ k :: l2 ∧ (k ∉ l1) ∧
    iwalk arc i l1 k c1 ∧ iwalk arc k l2 j c2 ∧ c = c1 + c2.
Proof.
  induction 1 as [i j w Hw|i m l j w c Hw H IH]; intros Hin.
  - by apply elem_of_nil in Hin.
  - destruct (decide (k = m)) as [->|Hne].
    + exists [], l, w, c. split_and!; [done|apply not_elem_of_nil|by constructor|done|done].
    + apply elem_of_cons in Hin as [?|Hin]; [done|].
      destruct (IH Hin) as (l1 & l2 & c1 & c2 & -> & Hnin & H1 & H2 & ->).
      exists (m :: l1), l2, (w + c1), c2. split_and!; [done| |by constructor|done|lia].
      apply not_elem_of_cons. done.
Qed.

Lemma iwalk_lt arc (n : nat) i l j c :
  (∀ i j w, arc i j w → (i < n)%nat ∧ (j < n)%nat) →
  iwalk arc i l j c → (i < n)%nat ∧ (j < n)%nat ∧ Forall (λ m, (m < n)%nat) l.
Proof.
  intros Harc. induction 1 as [i j w Hw|i m l j w c Hw H IH].
  - destruct (Harc _ _ _ Hw). done.
  - destruct (Harc _ _ _ Hw) as [? ?]. destruct IH as (_ & ? & ?).
    split_and!; [done|done|by constructor].
Qed.

(** ** What holds of the matrices at every point *)

Record fw_gen (n : nat) (arc : nat → nat → Z → Prop) (s : matrices) : Prop := {
  g_sq : sq n s;
  g_diag : ∀ i, (i < n)%nat → dle (mat_at Inf s.1 i i) (Fin 0);
  g_sound : ∀ i j d, (i < n)%nat → (j < n)%nat → mat_at Inf s.1 i j = Fin d →
    (i = j ∧ d = 0) ∨ ∃ l, iwalk arc i l j d;
  g_some : ∀ i j, (i < n)%nat → (j < n)%nat →
    mat_at Inf s.1 i j = Inf ↔ mat_at None s.2 i j = None;
  g_range : ∀ i j m, (i < n)%nat → (j < n)%nat → mat_at None s.2 i j = Some m → (m < n)%nat
}.

Lemma gen_relax_pure n arc k i j s :
  (k < n)%nat → (i < n)%nat → (j < n)%nat →
  fw_gen n arc s → fw_gen n arc (relax_pure k i s j).
Proof.
  intros Hk Hi Hj [Hsq Hdiag Hsound Hsome Hrange].
  assert (∀ a b, mat_at Inf (relax_pure k i s j).1 a b
                 = if decide (a = i ∧ b = j) then upd_D k s i j else mat_at Inf s.1 a b) as ED.
  { intros a b. by rewrite (relax_pure_D n). }
  assert (∀ a b, mat_at None (relax_pure k i s j).2 a b
                 = if decide (a = i ∧ b = j) then upd_P k s i j else mat_at None s.2 a b) as EP.
  { intros a b. by rewrite (relax_pure_P n). }
  split.
  - by apply sq_relax_pure.
  - intros a Ha. rewrite ED. destruct (decide (a = i ∧ a = j)) as [[-> <-]|_]; [|by apply Hdiag].
    eapply dle_trans; [apply dmin_le_l|by apply Hdiag].
  - intros a b d Ha Hb. rewrite ED.
    destruct (decide (a = i ∧ b = j)) as [[-> ->]|_]; [|by apply Hsound].
    unfold upd_D, dmin. destruct (dgt _ _); [|by apply Hsound].
    destruct (mat_at Inf s.1 i k) as [x|] eqn:Ex; [|done].
    destruct (mat_at Inf s.1 k j) as [y|] eqn:Ey; [|done].
    simpl. intros [= <-].
    destruct (Hsound i k x Hi Hk Ex) as [[-> ->]|[l1 H1]];
      destruct (Hsound k j y Hk Hj Ey) as [[E ->]|[l2 H2]].
    + left. split; [done|lia].
    + right. exists l2. eapply iwalk_eq; [done|lia].
    + subst k. right. exists l1. eapply iwalk_eq; [done|lia].
    + right. exists (l1 ++ k :: l2). by apply iwalk_app.
  - intros a b Ha Hb. rewrite ED, EP.
    destruct (decide (a = i ∧ b = j)) as [[-> ->]|_]; [|by apply Hsome].
    unfold upd_D, upd_P, dmin. destruct (dgt _ _) eqn:E; [|by apply Hsome].
    destruct (mat_at Inf s.1 i k) as [x|] eqn:Ex.
    + destruct (mat_at Inf s.1 k j) as [y|] eqn:Ey.
      * simpl. split; [done|]. intros HP. apply (Hsome i k Hi Hk) in HP. congruence.
      * simpl in E. unfold dgt, dlt in E. by destruct (mat_at Inf s.1 i j).
    + simpl in E. unfold dgt, dlt in E. by destruct (mat_at Inf s.1 i j).
  - intros a b m Ha Hb. rewrite EP.
    destruct (decide (a = i ∧ b = j)) as [[-> ->]|_]; [|by apply Hrange].
    unfold upd_P. destruct (dgt _ _); by apply Hrange.
Qed.

Lemma gen_relax_round n arc k s :
  (k < n)%nat → fw_gen n arc s → fw_gen n arc (relax_round n s k).
Proof.
  intros Hk Hs. unfold relax_round.
  apply (foldl_range_ind (λ _ s, fw_gen n arc s)); [done|].
  intros i s1 Hi Hs1. unfold relax_row.
  apply (foldl_range_ind (λ _ s, fw_gen n arc s)); [done|].
  intros j s2 Hj Hs2. by apply gen_relax_pure.
Qed.

(** ** The passes in turn *)

(** The matrices after the passes over [0..k-1]. *)
Definition fw_state (n : nat) (s : matrices) (k : nat) : matrices :=
  foldl (relax_round n) s (range k).

Lemma fw_state_S n s k : fw_state n s (S k) = relax_round n (fw_state n s k) k.
Proof. unfold fw_state, range. by rewrite seq_S, foldl_app. Qed.

Section passes.
Variables (n : nat) (arc : nat → nat → Z → Prop) (s1 : matrices).
Hypothesis arc_lt : ∀ i j w, arc i j w → (i < n)%nat ∧ (j < n)%nat.
Hypothesis Hgen : fw_gen n arc s1.
(** Every arc has been read. *)
Hypothesis Hseed : ∀ i j w, arc i j w → dle (mat_at Inf s1.1 i j) (Fin w).

Abbreviation D k := (mat_at Inf (fw_state n s1 k).1).
Abbreviation P k := (mat_at None (fw_state n s1 k).2).
(** No alert: no entry of the diagonal ends negative. *)
Abbreviation quiet := (∀ i, (i < n)%nat → dle (Fin 0) (D n i i)).

Lemma fw_state_gen k : (k ≤ n)%nat → fw_gen n arc (fw_state n s1 k).
Proof using Hgen.
  induction k as [|k IH]; intros Hk; [done|].
  rewrite fw_state_S. apply gen_relax_round; [lia|]. apply IH. lia.
Qed.

Lemma fw_state_done k :
  (k < n)%nat → round_done n k (fw_state n s1 k) (fw_state n s1 (S k)) n.
Proof using Hgen.
  intros Hk. rewrite fw_state_S. apply relax_round_done; [|done].
  apply fw_state_gen. lia.
Qed.

Lemma fw_state_le k k' i j : (k ≤ k')%nat → (k' ≤ n)%nat → dle (D k' i j) (D k i j).
Proof using Hgen.
  intros Hkk'. induction Hkk' as [|k' Hkk' IH]; intros Hn; [apply dle_refl|].
  eapply dle_trans; [|apply IH; lia].
  apply (rn_le _ _ _ _ _ (fw_state_done k' ltac:(lia))).
Qed.

Lemma fw_state_via k i j :
  (k < n)%nat → (i < n)%nat → (j < n)%nat → dle (D (S k) i j) (dsum (D k i k) (D k k j)).
Proof using Hgen. intros Hk Hi Hj. by apply (rn_via _ _ _ _ _ (fw_state_done k Hk)). Qed.

(** The diagonal is [0] throughout when it ends so. *)
Lemma fw_state_diag k i : quiet → (k ≤ n)%nat → (i < n)%nat → D k i i = Fin 0.
Proof using Hgen.
  intros Hq Hk Hi.
  pose proof (g_diag _ _ _ (fw_state_gen k Hk) i Hi) as H1.
  pose proof (fw_state_le k n i i Hk ltac:(lia)) as H2.
  pose proof (Hq i Hi) as H3.
  destruct (D k i i) as [x|], (D n i i) as [y|]; simpl in *; try done.
  f_equal. lia.
Qed.

Lemma fw_state_exact k i j :
  quiet → (k < n)%nat → (i < n)%nat → (j < n)%nat →
  D (S k) i j = upd_D k (fw_state n s1 k) i j ∧ P (S k) i j = upd_P k (fw_state n s1 k) i j.
Proof using Hgen.
  intros Hq Hk Hi Hj. apply (rn_exact _ _ _ _ _ (fw_state_done k Hk)); [|done..].
  apply fw_state_diag; [done|lia|done].
Qed.

(** *** Every walk is accounted for

    After the passes over [0..k-1] the entry for [i, j] is set when a
    walk leads from [i] to [j] through indices below [k], and, without
    an alert, is no more than its weight. *)
Definition covers (k : nat) : Prop :=
  ∀ i l j c, iwalk arc i l j c → Forall (λ m, (m < k)%nat) l →
    ∃ d, D k i j = Fin d ∧ (quiet → d ≤ c).

Lemma covers_0 : covers 0.
Proof using Hseed.
  intros i l j c Hw Hl. destruct Hw as [i j w Hw|i m l j w c Hw H].
  - pose proof (Hseed i j w Hw) as Hle. unfold fw_state. simpl.
    destruct (mat_at Inf s1.1 i j) as [d|]; [|done]. exists d. done.
  - apply Forall_cons in Hl as [? _]. lia.
Qed.

Lemma covers_from_k k :
  (k < n)%nat → covers k →
  ∀ len l j c, (length l ≤ len)%nat → iwalk arc k l j c →
    Forall (λ m, (m < S k)%nat) l → ∃ d, D k k j = Fin d ∧ (quiet → d ≤ c).
Proof using Hgen.
  intros Hk Hcov. induction len as [|len IH]; intros l j c Hlen Hw Hl.
  - destruct l; [|simpl in Hlen; lia]. by apply (Hcov k [] j c).
  - destruct (decide (k ∈ l)) as [Hin|Hnin].
    + destruct (iwalk_split arc k k l j c Hw Hin)
        as (l1 & l2 & c1 & c2 & -> & Hnin & H1 & H2 & ->).
      apply Forall_app in Hl as [Hl1 Hl2]. apply Forall_cons in Hl2 as [_ Hl2].
      rewrite length_app in Hlen. simpl in Hlen.
      destruct (IH l2 j c2 ltac:(lia) H2 Hl2) as (d & Hd & Hdc).
      destruct (Hcov k l1 k c1 H1) as (d0 & Hd0 & Hd0c).
      { apply Forall_forall. intros m Hm.
        pose proof (proj1 (Forall_forall _ _) Hl1 m Hm). simpl in *.
        assert (m ≠ k) by (by intros ->). lia. }
      exists d. split; [done|]. intros Hq.
      rewrite (fw_state_diag k k Hq) in Hd0 by lia. injection Hd0 as <-.
      specialize (Hdc Hq). specialize (Hd0c Hq). lia.
    + apply (Hcov k l j c Hw). apply Forall_forall. intros m Hm.
      pose proof (proj1 (Forall_forall _ _) Hl m Hm). simpl in *.
      assert (m ≠ k) by (by intros ->). lia.
Qed.

Lemma covers_S k : (k < n)%nat → covers k → covers (S k).
Proof using Hgen arc_lt.
  intros Hk Hcov i l j c Hw Hl.
  destruct (iwalk_lt arc n i l j c arc_lt Hw) as (Hi & Hj & _).
  assert (∀ d, D k i j = Fin d → (quiet → d ≤ c) →
               ∃ d', D (S k) i j = Fin d' ∧ (quiet → d' ≤ c)) as Hdown.
  { intros d Hd Hdc. pose proof (fw_state_le k (S k) i j ltac:(lia) ltac:(lia)) as Hle.
    rewrite Hd in Hle. destruct (D (S k) i j) as [d'|]; [|done].
    exists d'. split; [done|]. intros Hq. specialize (Hdc Hq). simpl in Hle. lia. }
  destruct (decide (k ∈ l)) as [Hin|Hnin].
  - destruct (iwalk_split arc k i l j c Hw Hin)
      as (l1 & l2 & c1 & c2 & -> & Hnin & H1 & H2 & ->).
    apply Forall_app in Hl as [Hl1 Hl2]. apply Forall_cons in Hl2 as [_ Hl2].
    destruct (Hcov i l1 k c1 H1) as (d1 & Hd1 & Hd1c).
    { apply Forall_forall. intros m Hm.
      pose proof (proj1 (Forall_forall _ _) Hl1 m Hm). simpl in *.
      assert (m ≠ k) by (by intros ->). lia. }
    destruct (covers_from_k k Hk Hcov (length l2) l2 j c2 ltac:(done) H2 Hl2)
      as (d2 & Hd2 & Hd2c).
    pose proof (fw_state_via k i j Hk Hi Hj) as Hvia.
    rewrite Hd1, Hd2 in Hvia. simpl in Hvia.
    destruct (D (S k) i j) as [d'|]; [|done].
    exists d'. split; [done|]. intros Hq.
    specialize (Hd1c Hq). specialize (Hd2c Hq). simpl in Hvia. lia.
  - destruct (Hcov i l j c Hw) as (d & Hd & Hdc); [|by apply (Hdown d)].
    apply Forall_forall. intros m Hm.
    pose proof (proj1 (Forall_forall _ _) Hl m Hm). simpl in *.
    assert (m ≠ k) by (by intros ->). lia.
Qed.

Lemma covers_all k : (k ≤ n)%nat → covers k.
Proof using Hgen Hseed arc_lt.
  induction k as [|k IH]; intros Hk; [apply covers_0|].
  apply covers_S; [lia|]. apply IH. lia.
Qed.

(** At the end every walk is accounted for. *)
Lemma fw_covers i l j c :
  iwalk arc i l j c → ∃ d, D n i j = Fin d ∧ (quiet → d ≤ c).
Proof using Hgen Hseed arc_lt.
  intros Hw. apply (covers_all n ltac:(done) i l j c Hw).
  by destruct (iwalk_lt arc n i l j c arc_lt Hw) as (_ & _ & ?).
Qed.

(** *** The next hops

    From here on there is no alert, and an entry off the diagonal that
    the edges set names the edge it came from. *)
Hypothesis Hquiet : quiet.
Hypothesis Hseed_arc : ∀ i j d, (i < n)%nat → (j < n)%nat → i ≠ j →
  mat_at Inf s1.1 i j = Fin d → arc i j d ∧ mat_at None s1.2 i j = Some j.

(** [trail k j i l]: after the passes over [0..k-1] the next hops lead
    from [i] through [l] to [j], each along an arc, the distance to [j]
    falling by its weight. *)
Inductive trail (k j : nat) : nat → list nat → Prop :=
  | trail_end : trail k j j []
  | trail_hop i m w c l :
      i ≠ j → P k i j = Some m → arc i m w →
      D k m j = Fin c → D k i j = Fin (w + c) →
      trail k j m l → trail k j i (m :: l).

Definition tri (k : nat) : Prop :=
  ∀ i m b w, arc i m w → (b < n)%nat → (m < k)%nat ∨ m = b →
    dle (D k i b) (dsum (Fin w) (D k m b)).

Definition routed (k : nat) : Prop :=
  ∀ i j d, (i < n)%nat → (j < n)%nat → D k i j = Fin d →
    ∃ l, trail k j i l ∧ Forall (λ m, m = j ∨ (m < k)%nat) l.

Lemma arc_le k i j w : (k ≤ n)%nat → arc i j w → dle (D k i j) (Fin w).
Proof using Hgen Hseed.
  intros Hk Hw. eapply dle_trans; [apply (fw_state_le 0 k); [lia|done]|].
  by apply Hseed.
Qed.

Lemma diag_keep k j :
  (k < n)%nat → (j < n)%nat → dgt (D k j j) (dsum (D k j k) (D k k j)) = false.
Proof using Hgen Hquiet.
  intros Hk Hj. destruct (fw_state_exact k j j Hquiet Hk Hj Hj) as [HD _].
  rewrite (fw_state_diag (S k) j Hquiet) in HD by (done || lia).
  unfold upd_D, dmin in HD. rewrite (fw_state_diag k j Hquiet) in * by (done || lia).
  destruct (dgt _ _) eqn:E; [|done]. rewrite <-HD in E. done.
Qed.

Lemma tri_0 : tri 0.
Proof using Hgen Hseed Hquiet arc_lt.
  intros i m b w Hw Hb [?| ->]; [lia|].
  rewrite (fw_state_diag 0 b Hquiet) by (done || lia). rewrite dsum_0_r.
  apply arc_le; [lia|done].
Qed.

Lemma tri_S k : (k < n)%nat → tri k → tri (S k).
Proof using Hgen Hseed Hquiet arc_lt.
  intros Hk Htri i m b w Hw Hb Hm.
  destruct (arc_lt i m w Hw) as [Hi Hmn].
  destruct (decide (m = b)) as [->|Hmb].
  { rewrite (fw_state_diag (S k) b Hquiet) by (done || lia). rewrite dsum_0_r.
    apply arc_le; [lia|done]. }
  destruct Hm as [Hm|?]; [|done].
  destruct (fw_state_exact k m b Hquiet Hk Hmn Hb) as [-> _].
  pose proof (fw_state_via k i b Hk Hi Hb) as Hvia.
  pose proof (Htri i m k w Hw Hk ltac:(lia)) as Hik.
  unfold upd_D, dmin. destruct (dgt _ _).
  - eapply dle_trans; [apply Hvia|].
    destruct (D k i k), (D k m k), (D k k b); simpl in *; try done; lia.
  - destruct (decide (m = k)) as [->|Hmk].
    + eapply dle_trans; [apply Hvia|].
      pose proof (arc_le k i k w ltac:(lia) Hw) as Hle.
      destruct (D k i k), (D k k b); simpl in *; try done; lia.
    + eapply dle_trans; [apply (fw_state_le k (S k)); lia|].
      apply Htri; [done|done|]. left. lia.
Qed.

Lemma tri_all k : (k ≤ n)%nat → tri k.
Proof using Hgen Hseed Hquiet arc_lt.
  induction k as [|k IH]; intros Hk; [apply tri_0|].
  apply tri_S; [lia|]. apply IH. lia.
Qed.

Lemma routed_0 : routed 0.
Proof using Hgen Hquiet Hseed_arc.
  intros i j d Hi Hj Hd. destruct (decide (i = j)) as [->|Hne].
  - exists []. split; [constructor|done].
  - destruct (Hseed_arc i j d Hi Hj Hne Hd) as [Hw HP].
    exists [j]. split; [|by repeat constructor].
    apply (trail_hop 0 j i j d 0 []); [done|done|done| | |constructor].
    + apply (fw_state_diag 0 j Hquiet); [lia|done].
    + rewrite Hd. f_equal. lia.
Qed.

(** An entry the pass leaves keeps its trail. *)
Lemma trail_keep k j :
  (k < n)%nat → (j < n)%nat → tri k →
  ∀ i l, trail k j i l → Forall (λ m, m = j ∨ (m < k)%nat) l → (i < n)%nat →
    dgt (D k i j) (dsum (D k i k) (D k k j)) = false → trail (S k) j i l.
Proof using Hgen Hseed Hquiet arc_lt.
  intros Hk Hj Htri i l Ht.
  induction Ht as [|i m w c l Hij HP Hw Hmj Hi_j Ht IH]; intros Hl Hi Hkeep.
  { constructor. }
  apply Forall_cons in Hl as [Hm Hl].
  destruct (arc_lt i m w Hw) as [_ Hmn].
  assert (dgt (D k m j) (dsum (D k m k) (D k k j)) = false) as Hkeep_m.
  { destruct (decide (m = j)) as [->|Hmj']; [by apply diag_keep|].
    destruct Hm as [?|Hm]; [done|].
    pose proof (Htri i m k w Hw Hk ltac:(lia)) as Hik.
    apply dgt_dle. apply dgt_dle in Hkeep. rewrite Hi_j in Hkeep. rewrite Hmj.
    destruct (D k i k), (D k m k), (D k k j); simpl in *; try done; lia. }
  destruct (fw_state_exact k i j Hquiet Hk Hi Hj) as [ED EP].
  destruct (fw_state_exact k m j Hquiet Hk Hmn Hj) as [EDm _].
  unfold upd_D, upd_P, dmin in ED, EP, EDm.
  rewrite Hkeep in ED, EP. rewrite Hkeep_m in EDm.
  apply (trail_hop (S k) j i m w c l); [done|congruence|done|congruence|congruence|].
  by apply IH.
Qed.

(** An entry the pass lowers takes the trail to [k], and then on. *)
Lemma trail_reroute k j :
  (k < n)%nat → (j < n)%nat → tri k → routed k →
  ∀ a l1, trail k k a l1 → Forall (λ m, m = k ∨ (m < k)%nat) l1 → (a < n)%nat →
    dgt (D k a j) (dsum (D k a k) (D k k j)) = true →
    ∃ l, trail (S k) j a l ∧ Forall (λ m, m = j ∨ (m < S k)%nat) l.
Proof using Hgen Hseed Hquiet arc_lt.
  intros Hk Hj Htri Hrouted a l1 Ht.
  induction Ht as [|a m w c l1 Hak HP Hw Hmk Ha_k Ht IH]; intros Hl Ha Hupd.
  { rewrite (fw_state_diag k k Hquiet), dsum_0_l, dgt_irrefl in Hupd by (done || lia).
    done. }
  apply Forall_cons in Hl as [Hm Hl].
  destruct (arc_lt a m w Hw) as [_ Hmn].
  assert (a ≠ j) as Haj.
  { intros ->. by rewrite diag_keep in Hupd. }
  destruct (D k k j) as [e2|] eqn:Ekj.
  2:{ rewrite Ha_k in Hupd. simpl in Hupd. unfold dgt, dlt in Hupd.
      by destruct (D k a j). }
  destruct (fw_state_exact k a j Hquiet Hk Ha Hj) as [ED EP].
  destruct (fw_state_exact k m j Hquiet Hk Hmn Hj) as [EDm _].
  unfold upd_D, upd_P, dmin in ED, EP, EDm.
  rewrite Ekj in ED, EP, EDm. rewrite Hupd in ED, EP. rewrite Ha_k in ED.
  rewrite Hmk in EDm. cbn [dsum] in ED, EDm.
  assert (∃ l, trail (S k) j m l ∧ Forall (λ m, m = j ∨ (m < S k)%nat) l
               ∧ D (S k) m j = Fin (c + e2)) as (l & Htl & Hll & Hnew).
  { destruct (decide (m = k)) as [->|Hmk'].
    - rewrite (fw_state_diag k k Hquiet) in Hmk by (done || lia). injection Hmk as <-.
      rewrite Ekj in EDm.
      destruct (Hrouted k j e2 Hk Hj Ekj) as (l & Htl & Hll).
      exists l. split_and!.
      + apply trail_keep; [done..|].
        rewrite (fw_state_diag k k Hquiet), dsum_0_l by (done || lia). apply dgt_irrefl.
      + eapply Forall_impl; [done|]. simpl. intros x [?|?]; [by left|right; lia].
      + rewrite EDm. destruct (dgt (Fin e2) _); f_equal; lia.
    - destruct Hm as [?|Hm]; [done|].
      pose proof (Htri a m j w Hw Hj ltac:(by left)) as Htr.
      assert (dgt (D k m j) (Fin (c + e2)) = true) as Hupd_m.
      { apply dgt_true. apply dgt_true in Hupd. rewrite Ha_k in Hupd.
        intros Hle. apply Hupd.
        destruct (D k a j), (D k m j); simpl in *; try done; lia. }
      destruct IH as (l & Htl & Hll); [done|done| |].
      { by rewrite Hmk. }
      exists l. split_and!; [done|done|]. by rewrite EDm, Hupd_m. }
  exists (m :: l). split.
  - apply (trail_hop (S k) j a m w (c + e2) l); [done|congruence|done|done| |done].
    rewrite ED. f_equal. lia.
  - constructor; [|done]. destruct Hm as [->|?]; right; lia.
Qed.

Lemma routed_S k : (k < n)%nat → tri k → routed k → routed (S k).
Proof using Hgen Hseed Hquiet arc_lt.
  intros Hk Htri Hrouted i j d Hi Hj Hd.
  destruct (fw_state_exact k i j Hquiet Hk Hi Hj) as [ED _].
  unfold upd_D, dmin in ED.
  destruct (dgt (D k i j) (dsum (D k i k) (D k k j))) eqn:Hupd.
  - destruct (D k i k) as [x|] eqn:Eik.
    2:{ simpl in Hupd. unfold dgt, dlt in Hupd. by destruct (D k i j). }
    destruct (Hrouted i k x Hi Hk Eik) as (l1 & Ht & Hl).
    apply (trail_reroute k j Hk Hj Htri Hrouted i l1 Ht Hl Hi). by rewrite Eik.
  - rewrite ED in Hd. destruct (Hrouted i j d Hi Hj Hd) as (l & Ht & Hl).
    exists l. split.
    + by apply trail_keep.
    + eapply Forall_impl; [done|]. simpl. intros x [?|?]; [by left|right; lia].
Qed.

Lemma routed_all k : (k ≤ n)%nat → routed k.
Proof using Hgen Hseed Hquiet Hseed_arc arc_lt.
  induction k as [|k IH]; intros Hk; [apply routed_0|].
  apply routed_S; [lia|apply tri_all; lia|]. apply IH. lia.
Qed.
End passes.

(** ** The trail of next hops *)

Section trails.
Variables (n : nat) (arc : nat → nat → Z → Prop) (s1 : matrices).
Hypothesis arc_lt : ∀ i j w, arc i j w → (i < n)%nat ∧ (j < n)%nat.

Lemma trail_fun k j i l l' :
  trail n arc s1 k j i l → trail n arc s1 k j i l' → l = l'.
Proof.
  intros H. revert l'. induction H as [|i m w c l Hij HP Hw Hmj Hi_j Ht IH]; intros l' H'.
  - by inversion H'.
  - inversion H' as [|? m' w' c' l'' _ HP' _ _ _ Ht']; subst; [done|].
    assert (m' = m) as -> by congruence. f_equal. by apply IH.
Qed.

Lemma trail_sub k j i l m :
  trail n arc s1 k j i l → m ∈ l → ∃ l', trail n arc s1 k j m l' ∧ (length l' < length l)%nat.
Proof.
  induction 1 as [|i m' w c l Hij HP Hw Hmj Hi_j Ht IH]; intros Hin.
  - by apply elem_of_nil in Hin.
  - apply elem_of_cons in Hin as [->|Hin].
    + exists l. split; [done|simpl; lia].
    + destruct (IH Hin) as (l' & Hl' & Hlen). exists l'. split; [done|simpl; lia].
Qed.

Lemma trail_NoDup k j i l : trail n arc s1 k j i l → NoDup (i :: l).
Proof.
  intros H. induction H as [|i m w c l Hij HP Hw Hmj Hi_j Ht IH].
  - apply NoDup_singleton.
  - apply NoDup_cons. split; [|done]. intros Hin.
    assert (trail n arc s1 k j i (m :: l)) as Hi by (by eapply trail_hop).
    destruct (trail_sub k j i (m :: l) i Hi Hin) as (l' & Hl' & Hlen).
    rewrite (trail_fun k j i l' (m :: l) Hl' Hi) in Hlen. lia.
Qed.

Lemma trail_last k j i l : trail n arc s1 k j i l → last (i :: l) = Some j.
Proof.
  induction 1 as [|i m w c l Hij HP Hw Hmj Hi_j Ht IH]; [done|].
  by rewrite last_cons_cons.
Qed.

Lemma trail_lt k j i l :
  trail n arc s1 k j i l → Forall (λ m, (m < n)%nat) l.
Proof using arc_lt.
  induction 1 as [|i m w c l Hij HP Hw Hmj Hi_j Ht IH]; [done|].
  constructor; [|done]. by destruct (arc_lt i m w Hw).
Qed.

(** A trail has fewer hops than there are indices. *)
Lemma trail_length k j i l :
  (i < n)%nat → trail n arc s1 k j i l → (length l < n)%nat.
Proof using arc_lt.
  intros Hi Ht. pose proof (trail_NoDup k j i l Ht) as Hnd.
  assert (i :: l ⊆+ seq 0 n) as Hsub.
  { apply NoDup_submseteq; [done|]. intros x Hx. apply elem_of_seq.
    apply elem_of_cons in Hx as [->|Hx]; [lia|].
    pose proof (proj1 (Forall_forall _ _) (trail_lt k j i l Ht) x Hx). simpl in *. lia. }
  apply submseteq_length in Hsub. rewrite length_seq in Hsub. simpl in Hsub. lia.
Qed.
End trails.

(** ** The graph and its indices *)

(** A walk along the edges [E]: the labels it visits, in order, and the
    sum of the weights of the edges it takes. *)
Inductive walk (E : list (Z * Z * Z)) : list Z → Z → Prop :=
  | walk_stay u : walk E [u] 0
  | walk_step u v w rest c :
      (u, v, w) ∈ E → walk E (v :: rest) c → walk E (u :: v :: rest) (w + c).

(** The labels are those of distinct vertices, and every edge joins two of
    them: what the container grants of a graph built through it. *)
Definition well_formed (g : Graph) : Prop :=
  NoDup (vertices_of g) ∧
  Forall (λ e, e.1.1 ∈ vertices_of g ∧ e.1.2 ∈ vertices_of g) (edges_of g).

#[global] Instance well_formed_dec g : Decision (well_formed g).
Proof. unfold well_formed. apply _. Defined.

(** An edge of weight [w] between the vertices of two indices. *)
Definition arc_of (vs : list Z) (E : list (Z * Z * Z)) (i j : nat) (w : Z) : Prop :=
  ∃ u v, vs !! i = Some u ∧ vs !! j = Some v ∧ (u, v, w) ∈ E.

Lemma arc_of_lt vs E i j w : arc_of vs E i j w → (i < length vs)%nat ∧ (j < length vs)%nat.
Proof. intros (u & v & Hu & Hv & _). split; by eapply lookup_lt_Some. Qed.

Lemma enumerate_map_from (l : list Z) : ∀ (o : nat) (m : gmap Z nat) (v : Z),
  (v ∉ l →
   foldl (λ m '(i, v), <[v := i]> m) m (imap (λ i v, ((o + i)%nat, v)) l) !! v = m !! v) ∧
  (NoDup l → ∀ i, l !! i = Some v →
   foldl (λ m '(i, v), <[v := i]> m) m (imap (λ i v, ((o + i)%nat, v)) l) !! v
   = Some (o + i)%nat).
Proof.
  induction l as [|x l IH]; intros o m v.
  { split; [done|]. intros _ i Hi. done. }
  assert (imap (λ i v0, ((o + i)%nat, v0)) (x :: l)
          = (o, x) :: imap (λ i v0, ((S o + i)%nat, v0)) l) as ->.
  { simpl. f_equal; [f_equal; lia|]. apply imap_ext. intros i y _. simpl. f_equal. lia. }
  cbn [foldl]. split.
  - intros Hv. apply not_elem_of_cons in Hv as [Hvx Hvl].
    rewrite (proj1 (IH (S o) _ v) Hvl). by rewrite lookup_insert_ne.
  - intros Hnd i Hi. apply NoDup_cons in Hnd as [Hx Hnd]. destruct i as [|i].
    + injection Hi as ->. rewrite (proj1 (IH (S o) _ v) Hx), lookup_insert_eq.
      f_equal. lia.
    + rewrite (proj2 (IH (S o) _ v) Hnd i Hi). f_equal. lia.
Qed.

Lemma enumerate_map_lookup (vs : list Z) (i : nat) (v : Z) :
  NoDup vs → vs !! i = Some v → enumerate_map vs !! v = Some i.
Proof. intros Hnd Hi. apply (proj2 (enumerate_map_from vs 0 ∅ v) Hnd i Hi). Qed.

Lemma enumerate_map_None (vs : list Z) (v : Z) : v ∉ vs → enumerate_map vs !! v = None.
Proof. intros Hv. unfold enumerate_map. by rewrite (proj1 (enumerate_map_from vs 0 ∅ v) Hv). Qed.

Lemma dict_get_Some (vs : list Z) (i : nat) (v : Z) :
  NoDup vs → vs !! i = Some v → dict_get (enumerate_map vs) v = Ok i.
Proof. intros Hnd Hi. unfold dict_get. by rewrite (enumerate_map_lookup vs i v). Qed.

Lemma dict_get_None (vs : list Z) (v : Z) :
  v ∉ vs → dict_get (enumerate_map vs) v = Raise KeyError.
Proof. intros Hv. unfold dict_get. by rewrite enumerate_map_None. Qed.

(** ** The diagonal and the edges *)

Lemma for_each_range_ind {S} (I : nat → S → Prop) (body : S → nat → outcome S)
    (n : nat) (s : S) :
  I 0%nat s →
  (∀ t s, (t < n)%nat → I t s → ∃ s', body s t = Ok s' ∧ I (Datatypes.S t) s') →
  ∃ s', for_each (range n) body s = Ok s' ∧ I n s'.
Proof.
  intros H0 Hstep.
  destruct (for_each_ind (λ done s, I (length done) s) (range n) body s) as (s' & Hs' & HI).
  - done.
  - intros done x rest s2 Hsplit HI.
    assert (x = length done ∧ (x < n)%nat) as [-> Hx].
    { assert (range n !! length done = Some x) as Hl.
      { rewrite Hsplit. by rewrite list_lookup_middle. }
      unfold range in Hl. apply lookup_seq in Hl. lia. }
    destruct (Hstep (length done) s2 Hx HI) as (s3 & Hb & HI3).
    exists s3. split; [done|]. rewrite length_app. simpl.
    by replace (length done + 1)%nat with (Datatypes.S (length done)) by lia.
  - exists s'. split; [done|]. unfold range in HI. by rewrite length_seq in HI.
Qed.

Lemma init_diagonal_spec (n : nat) :
  ∃ s0, init_diagonal n (replicate n (replicate n Inf), replicate n (replicate n None)) = Ok s0 ∧
    sq n s0 ∧
    ∀ a b, (a < n)%nat → (b < n)%nat →
      mat_at Inf s0.1 a b = (if decide (a = b) then Fin 0 else Inf) ∧
      mat_at None s0.2 a b = (if decide (a = b) then Some a else None).
Proof.
  unfold init_diagonal.
  destruct (for_each_range_ind
    (λ t s, sq n s ∧ ∀ a b, (a < n)%nat → (b < n)%nat →
       mat_at Inf s.1 a b = (if decide (a = b ∧ (a < t)%nat) then Fin 0 else Inf) ∧
       mat_at None s.2 a b = (if decide (a = b ∧ (a < t)%nat) then Some a else None))
    (λ '(dist, prox) i,
       dist' ← mset dist i i (Fin 0); prox' ← mset prox i i (Some i); Ok (dist', prox'))
    n (replicate n (replicate n Inf), replicate n (replicate n None)))
    as (s0 & Hs0 & Hsq & Hat).
  - split; [split; apply square_replicate|].
    intros a b Ha Hb. simpl. rewrite !mat_at_replicate by done.
    rewrite !decide_False by lia. done.
  - intros t [dist prox] Ht [[Hd Hp] Hat]. simpl in Hd, Hp, Hat.
    rewrite (mset_square n) by done. obind. rewrite (mset_square n) by done. obind.
    eexists. split; [done|]. split; [split; by apply square_put|].
    intros a b Ha Hb. simpl. rewrite (mat_at_put Inf n), (mat_at_put None n) by done.
    destruct (Hat a b Ha Hb) as [-> ->].
    destruct (decide (a = t ∧ b = t)) as [[-> ->]|Hne].
    + rewrite !decide_True by (split; [done|lia]). done.
    + destruct (decide (a = b ∧ (a < t)%nat)) as [[-> ?]|Hn1].
      * rewrite !decide_True by (split; [done|lia]). done.
      * assert (¬ (a = b ∧ (a < Datatypes.S t)%nat)) as Hn2.
        { intros [-> ?]. apply Hn1. split; [done|].
          destruct (decide (b = t)) as [->|]; [by destruct Hne|lia]. }
        rewrite !decide_False by done. done.
  - exists s0. split; [done|]. split; [done|].
    intros a b Ha Hb. destruct (Hat a b Ha Hb) as [-> ->].
    destruct (decide (a = b)) as [->|Hne].
    + rewrite !decide_True by (split; [done|lia]). done.
    + rewrite !decide_False by (by intros [? _]). done.
Qed.

Definition seed_pure (i j : nat) (w : Z) (s : matrices) : matrices :=
  if dlt (Fin w) (mat_at Inf s.1 i j)
  then (mat_put s.1 i j (Fin w), mat_put s.2 i j (Some j))
  else s.

Lemma sq_seed_pure n i j w s : sq n s → sq n (seed_pure i j w s).
Proof.
  intros [Hd Hp]. unfold seed_pure. destruct (dlt (Fin w) _); [|done].
  split; simpl; by apply square_put.
Qed.

Lemma seed_edge_eq n vs s u v w i j :
  NoDup vs → length vs = n → sq n s → vs !! i = Some u → vs !! j = Some v →
  seed_edge (enumerate_map vs) s (u, v, w) = Ok (seed_pure i j w s).
Proof.
  intros Hnd Hlen [Hd Hp] Hu Hv. destruct s as [dist prox]. simpl in Hd, Hp.
  assert (i < n)%nat as Hi by (rewrite <-Hlen; by eapply lookup_lt_Some).
  assert (j < n)%nat as Hj by (rewrite <-Hlen; by eapply lookup_lt_Some).
  unfold seed_edge, seed_pure.
  rewrite (dict_get_Some vs i u), (dict_get_Some vs j v) by done. obind.
  rewrite (mget_square Inf n) by done. obind. cbn [fst snd].
  destruct (dlt (Fin w) _); [|done].
  rewrite (mset_square n) by done. obind. by rewrite (mset_square n) by done.
Qed.

(** The matrices once the edges [E] are read. *)
Record seeded (n : nat) (vs : list Z) (E : list (Z * Z * Z)) (s : matrices) : Prop := {
  sd_sq : sq n s;
  sd_diag : ∀ i, (i < n)%nat → dle (mat_at Inf s.1 i i) (Fin 0);
  sd_fin : ∀ i j d, (i < n)%nat → (j < n)%nat → mat_at Inf s.1 i j = Fin d →
    (i = j ∧ d = 0) ∨ arc_of vs E i j d;
  sd_le : ∀ i j w, arc_of vs E i j w → dle (mat_at Inf s.1 i j) (Fin w);
  sd_prox : ∀ i j, (i < n)%nat → (j < n)%nat →
    match mat_at Inf s.1 i j with
    | Inf => mat_at None s.2 i j = None
    | Fin _ => mat_at None s.2 i j = Some j
    end
}.

Lemma seeded_step n vs E s u v w i j :
  NoDup vs → length vs = n → vs !! i = Some u → vs !! j = Some v →
  seeded n vs E s → seeded n vs (E ++ [(u, v, w)]) (seed_pure i j w s).
Proof.
  intros Hnd Hlen Hu Hv [Hsq Hdiag Hfin Hle Hprox].
  assert (i < n)%nat as Hi by (rewrite <-Hlen; by eapply lookup_lt_Some).
  assert (j < n)%nat as Hj by (rewrite <-Hlen; by eapply lookup_lt_Some).
  assert (∀ a b d, arc_of vs E a b d → arc_of vs (E ++ [(u, v, w)]) a b d) as Hmono.
  { intros a b d (x & y & Hx & Hy & Hin). exists x, y. split_and!; [done|done|].
    apply elem_of_app. by left. }
  assert (arc_of vs (E ++ [(u, v, w)]) i j w) as Hnew.
  { exists u, v. split_and!; [done|done|]. apply elem_of_app. right. by left. }
  assert (∀ a b, mat_at Inf (seed_pure i j w s).1 a b
                 = if decide (a = i ∧ b = j)
                   then (if dlt (Fin w) (mat_at Inf s.1 i j) then Fin w else mat_at Inf s.1 i j)
                   else mat_at Inf s.1 a b) as ED.
  { intros a b. unfold seed_pure. destruct Hsq as [Hd Hp].
    destruct (dlt (Fin w) _); simpl.
    - by rewrite (mat_at_put Inf n) by done.
    - by destruct (decide (a = i ∧ b = j)) as [[-> ->]|]. }
  assert (∀ a b, mat_at None (seed_pure i j w s).2 a b
                 = if decide (a = i ∧ b = j)
                   then (if dlt (Fin w) (mat_at Inf s.1 i j) then Some j else mat_at None s.2 i j)
                   else mat_at None s.2 a b) as EP.
  { intros a b. unfold seed_pure. destruct Hsq as [Hd Hp].
    destruct (dlt (Fin w) _); simpl.
    - by rewrite (mat_at_put None n) by done.
    - by destruct (decide (a = i ∧ b = j)) as [[-> ->]|]. }
  split.
  - by apply sq_seed_pure.
  - intros a Ha. rewrite ED. destruct (decide (a = i ∧ a = j)) as [[-> <-]|_]; [|by apply Hdiag].
    pose proof (Hdiag i Hi) as H0.
    destruct (dlt (Fin w) _) eqn:E0; [|done].
    unfold dlt in E0. destruct (mat_at Inf s.1 i i); [|done].
    apply bool_decide_eq_true in E0. simpl in *. lia.
  - intros a b d Ha Hb. rewrite ED.
    destruct (decide (a = i ∧ b = j)) as [[-> ->]|_].
    + destruct (dlt (Fin w) _).
      * intros [= <-]. by right.
      * intros Hd. destruct (Hfin i j d Hi Hj Hd) as [?|?]; [by left|right; by apply Hmono].
    + intros Hd. destruct (Hfin a b d Ha Hb Hd) as [?|?]; [by left|right; by apply Hmono].
  - intros a b w' (x & y & Hx & Hy & Hin). rewrite ED.
    assert (dle (if dlt (Fin w) (mat_at Inf s.1 i j) then Fin w else mat_at Inf s.1 i j)
                (mat_at Inf s.1 i j)) as Hdown.
    { destruct (dlt (Fin w) _) eqn:E0; [|apply dle_refl].
      unfold dlt in E0. destruct (mat_at Inf s.1 i j); [|done].
      apply bool_decide_eq_true in E0. simpl. lia. }
    apply elem_of_app in Hin as [Hin|Hin].
    + assert (dle (mat_at Inf s.1 a b) (Fin w')) as Hold.
      { apply Hle. by exists x, y. }
      destruct (decide (a = i ∧ b = j)) as [[-> ->]|_]; [|done].
      eapply dle_trans; [apply Hdown|done].
    + apply list_elem_of_singleton in Hin. injection Hin as -> -> ->.
      assert (a = i) as -> by (by eapply NoDup_lookup).
      assert (b = j) as -> by (by eapply NoDup_lookup).
      rewrite decide_True by done.
      destruct (dlt (Fin w) _) eqn:E0; [simpl; lia|].
      unfold dlt in E0. destruct (mat_at Inf s.1 i j); [|done].
      apply bool_decide_eq_false in E0. simpl. lia.
  - intros a b Ha Hb. rewrite ED, EP. pose proof (Hprox a b Ha Hb) as Hab.
    destruct (decide (a = i ∧ b = j)) as [[-> ->]|_]; [|done].
    destruct (dlt (Fin w) _); done.
Qed.

Lemma seeded_init n vs s0 :
  sq n s0 →
  (∀ a b, (a < n)%nat → (b < n)%nat →
     mat_at Inf s0.1 a b = (if decide (a = b) then Fin 0 else Inf) ∧
     mat_at None s0.2 a b = (if decide (a = b) then Some a else None)) →
  seeded n vs [] s0.
Proof.
  intros Hsq Hat. split.
  - done.
  - intros i Hi. destruct (Hat i i Hi Hi) as [-> _]. by rewrite decide_True.
  - intros i j d Hi Hj. destruct (Hat i j Hi Hj) as [-> _].
    destruct (decide (i = j)); [|done]. intros [= <-]. by left.
  - intros i j w (u & v & _ & _ & Hin). by apply elem_of_nil in Hin.
  - intros i j Hi Hj. destruct (Hat i j Hi Hj) as [-> ->].
    by destruct (decide (i = j)) as [->|].
Qed.

Lemma seed_loop n vs (E : list (Z * Z * Z)) s0 :
  NoDup vs → length vs = n →
  Forall (λ e, e.1.1 ∈ vs ∧ e.1.2 ∈ vs) E →
  seeded n vs [] s0 →
  ∃ s1, for_each E (seed_edge (enumerate_map vs)) s0 = Ok s1 ∧ seeded n vs E s1.
Proof.
  intros Hnd Hlen HE H0.
  destruct (for_each_ind (λ done s, seeded n vs done s) E (seed_edge (enumerate_map vs)) s0)
    as (s1 & Hs1 & Hsd); [done| |by exists s1].
  intros done [[u v] w] rest s HEs Hsd.
  assert ((u, v, w) ∈ E) as Hin by (rewrite HEs; set_solver).
  destruct (proj1 (Forall_forall _ _) HE _ Hin) as [Hu Hv]. simpl in Hu, Hv.
  apply list_elem_of_lookup in Hu as [i Hi]. apply list_elem_of_lookup in Hv as [j Hj].
  exists (seed_pure i j w s). split.
  - apply (seed_edge_eq n); try done. by destruct Hsd.
  - by apply seeded_step.
Qed.

Lemma seed_loop_raise n vs (E : list (Z * Z * Z)) :
  NoDup vs → length vs = n →
  Exists (λ e, e.1.1 ∉ vs ∨ e.1.2 ∉ vs) E →
  ∀ s, sq n s → for_each E (seed_edge (enumerate_map vs)) s = Raise KeyError.
Proof.
  intros Hnd Hlen. induction E as [|[[u v] w] E IH]; intros Hex s Hsq.
  { by apply Exists_nil in Hex. }
  simpl. destruct (decide (u ∈ vs)) as [Hu|Hu].
  2:{ unfold seed_edge. destruct s. by rewrite (dict_get_None vs u). }
  destruct (decide (v ∈ vs)) as [Hv|Hv].
  2:{ unfold seed_edge. destruct s. apply list_elem_of_lookup in Hu as [i Hi].
      rewrite (dict_get_Some vs i u) by done. obind. by rewrite (dict_get_None vs v). }
  apply Exists_cons in Hex as [[?|?]|Hex]; [done|done|].
  apply list_elem_of_lookup in Hu as [i Hi]. apply list_elem_of_lookup in Hv as [j Hj].
  rewrite (seed_edge_eq n vs s u v w i j) by done. obind.
  apply IH; [done|]. by apply sq_seed_pure.
Qed.

Lemma seeded_gen n vs E s :
  length vs = n → seeded n vs E s → fw_gen n (arc_of vs E) s.
Proof.
  intros Hlen [Hsq Hdiag Hfin Hle Hprox]. split.
  - done.
  - done.
  - intros i j d Hi Hj Hd. destruct (Hfin i j d Hi Hj Hd) as [?|Harc]; [by left|].
    right. exists []. by constructor.
  - intros i j Hi Hj. pose proof (Hprox i j Hi Hj) as H.
    destruct (mat_at Inf s.1 i j); split; congruence.
  - intros i j m Hi Hj Hm. pose proof (Hprox i j Hi Hj) as H.
    destruct (mat_at Inf s.1 i j); congruence.
Qed.

(** ** The alerts *)

Definition alerts_of (dist : list (list dist_t)) (vs : list Z) : list Z :=
  mjoin (imap (λ i v, if dlt (mat_at Inf dist i i) (Fin 0) then [v] else []) vs).

Lemma alertas_spec n dist vs :
  square n dist → length vs = n → alertas dist vs = Ok (alerts_of dist vs).
Proof.
  intros Hd Hlen. unfold alertas, alerts_of. rewrite Hlen.
  destruct (for_each_range_ind
    (λ t out, out = mjoin (imap (λ i v, if dlt (mat_at Inf dist i i) (Fin 0) then [v] else [])
                                (take t vs)))
    (λ out i, dii ← mget dist i i;
              if dlt dii (Fin 0) then (v ← lget vs i; Ok (out ++ [v])) else Ok out)
    n []) as (out & Hout & ->).
  - done.
  - intros t out Ht ->. rewrite (mget_square Inf n) by done. obind.
    destruct (lookup_lt_is_Some_2 vs t) as [v Hv]; [lia|].
    rewrite (take_S_r _ _ _ Hv), imap_app, join_app. simpl.
    rewrite length_take, Nat.min_l, Nat.add_0_r by lia.
    destruct (dlt _ _).
    + rewrite (lget_Some _ _ _ Hv). obind. eexists. split; [done|]. by rewrite app_nil_r.
    + eexists. split; [done|]. by rewrite !app_nil_r.
  - rewrite Hout. by rewrite take_ge by lia.
Qed.

Lemma elem_of_alerts_of dist vs u :
  u ∈ alerts_of dist vs ↔
  ∃ i, vs !! i = Some u ∧ dlt (mat_at Inf dist i i) (Fin 0) = true.
Proof.
  unfold alerts_of. rewrite list_elem_of_join. split.
  - intros (l & Hu & Hl). apply elem_of_lookup_imap in Hl as (i & v & -> & Hv).
    destruct (dlt _ _) eqn:E; [|by apply elem_of_nil in Hu].
    apply list_elem_of_singleton in Hu as ->. by exists i.
  - intros (i & Hv & E). exists [u]. split; [by left|].
    apply elem_of_lookup_imap. exists i, u. by rewrite E.
Qed.

Lemma alerts_of_nil dist vs :
  alerts_of dist vs = [] ↔ ∀ i, (i < length vs)%nat → dle (Fin 0) (mat_at Inf dist i i).
Proof.
  split.
  - intros Hnil i Hi. apply dgt_dle. unfold dgt.
    destruct (dlt (mat_at Inf dist i i) (Fin 0)) eqn:E; [|done].
    destruct (lookup_lt_is_Some_2 vs i Hi) as [u Hu].
    assert (u ∈ alerts_of dist vs) as Hin by (apply elem_of_alerts_of; by exists i).
    rewrite Hnil in Hin. by apply elem_of_nil in Hin.
  - intros Hall. destruct (alerts_of dist vs) as [|u l] eqn:E; [done|].
    assert (u ∈ alerts_of dist vs) as Hin by (rewrite E; by left).
    apply elem_of_alerts_of in Hin as (i & Hu & Hlt).
    pose proof (Hall i (lookup_lt_Some _ _ _ Hu)) as Hle.
    apply dgt_dle in Hle. unfold dgt in Hle. congruence.
Qed.

(** ** How large the entries grow

    An entry changes once in a pass, at its own step, to the sum of two
    entries.  Before the pass over [k] let no entry exceed [M]; in the pass
    [dist[k][k]] stays within [2 M], the rest of row and column [k] within
    [3 M], and every other entry within [6 M]. *)

Definition small (M : Z) (d : dist_t) : Prop :=
  match d with
  | Fin x => Z.abs x ≤ M
  | Inf => True
  end.

Lemma small_dsum M1 M2 a b : small M1 a → small M2 b → small (M1 + M2) (dsum a b).
Proof. destruct a, b; simpl; try done. lia. Qed.

Lemma small_dmin M a b : small M a → small M b → small M (dmin a b).
Proof. unfold dmin. by destruct (dgt a b). Qed.

Lemma small_mono M M' d : M ≤ M' → small M d → small M' d.
Proof. destruct d; simpl; [lia|done]. Qed.

Lemma small_fits M d : M < double_limit → small M d → fits d.
Proof.
  destruct d as [x|]; simpl; [|done]. intros HM Hx. unfold fits_double.
  apply bool_decide_eq_true. lia.
Qed.

(** The steps of the pass already made when it is at row [i], column [t]. *)
Definition done_at (i t a b : nat) : Prop := (a < i)%nat ∨ (a = i ∧ (b < t)%nat).

Definition tier (k a b : nat) : Z :=
  if decide (a = k ∧ b = k) then 2 else if decide (a = k ∨ b = k) then 3 else 6.

Record paced (n k : nat) (M : Z) (i t : nat) (s : matrices) : Prop := {
  pc_sq : sq n s;
  pc_all : ∀ a b, (a < n)%nat → (b < n)%nat → small (tier k a b * M) (mat_at Inf s.1 a b);
  pc_rest : ∀ a b, (a < n)%nat → (b < n)%nat → ¬ done_at i t a b →
    small M (mat_at Inf s.1 a b)
}.

Lemma paced_step n k M i t s :
  0 ≤ M → (k < n)%nat → (i < n)%nat → (t < n)%nat →
  paced n k M i t s → paced n k M i (S t) (relax_pure k i s t).
Proof.
  intros HM Hk Hi Ht [Hsq Hall Hrest].
  assert (small M (mat_at Inf s.1 i t)) as Hit.
  { apply Hrest; [done|done|]. unfold done_at. lia. }
  assert (small (2 * M) (mat_at Inf s.1 k k)) as Hkk.
  { pose proof (Hall k k Hk Hk) as H. unfold tier in H. by rewrite decide_True in H. }
  assert (small (tier k i t * M) (dsum (mat_at Inf s.1 i k) (mat_at Inf s.1 k t))) as Hsum.
  { unfold tier. destruct (decide (i = k ∧ t = k)) as [[-> ->]|H1].
    { replace (2 * M) with (M + M) by lia. by apply small_dsum. }
    destruct (decide (i = k ∨ t = k)) as [[->| ->]|H2].
    - replace (3 * M) with (2 * M + M) by lia. by apply small_dsum.
    - replace (3 * M) with (M + 2 * M) by lia. by apply small_dsum.
    - replace (6 * M) with (3 * M + 3 * M) by lia. apply small_dsum.
      + pose proof (Hall i k Hi Hk) as H. unfold tier in H.
        rewrite decide_False, decide_True in H; [done|by right|]. intros [? _]. tauto.
      + pose proof (Hall k t Hk Ht) as H. unfold tier in H.
        rewrite decide_False, decide_True in H; [done|by left|]. intros [_ ?]. tauto. }
  split.
  - by apply sq_relax_pure.
  - intros a b Ha Hb. rewrite (relax_pure_D n) by done.
    destruct (decide (a = i ∧ b = t)) as [[-> ->]|_]; [|by apply Hall].
    apply small_dmin; [by apply Hall|done].
  - intros a b Ha Hb Hnd. rewrite (relax_pure_D n) by done.
    rewrite decide_False.
    + apply Hrest; [done|done|]. intros [?|[? ?]]; apply Hnd; unfold done_at; lia.
    + intros [-> ->]. apply Hnd. unfold done_at. lia.
Qed.

Lemma paced_fits n k M i t s a b :
  0 ≤ M → 6 * M < double_limit → paced n k M i t s → (a < n)%nat → (b < n)%nat →
  fits (mat_at Inf s.1 a b).
Proof.
  intros HM Hlim [_ Hall _] Ha Hb. apply (small_fits (6 * M)); [done|].
  eapply small_mono; [|by apply Hall]. unfold tier. repeat case_decide; lia.
Qed.

Lemma range_S (n : nat) : range (S n) = range n ++ [n].
Proof. unfold range. by rewrite seq_S. Qed.

(** A row of the pass returns, and is the row of [relax_row]. *)
Lemma relax_row_paced n k M i s :
  0 ≤ M → 6 * M < double_limit → (k < n)%nat → (i < n)%nat →
  paced n k M i 0 s →
  for_each (range n) (relax k i) s = Ok (relax_row n k s i) ∧
  paced n k M (S i) 0 (relax_row n k s i).
Proof.
  intros HM Hlim Hk Hi Hs.
  destruct (for_each_range_ind
    (λ t s', s' = foldl (relax_pure k i) s (range t) ∧ paced n k M i t s')
    (relax k i) n s) as (s' & Hrun & -> & Hp).
  - done.
  - intros t s' Ht [-> Hp]. eexists. split.
    + apply (relax_eq n); [by destruct Hp|done|done|done|..];
        by apply (paced_fits n k M i t).
    + split; [by rewrite range_S, foldl_app|by apply paced_step].
  - split; [done|]. destruct Hp as [Hsq Hall Hrest]. split; [done|done|].
    intros a b Ha Hb Hnd. apply Hrest; [done|done|].
    intros [?|[? ?]]; apply Hnd; unfold done_at; lia.
Qed.

(** A pass returns, is the pass of [relax_round], and lets no entry exceed
    six times what it was. *)
Lemma relax_round_paced n k M s :
  0 ≤ M → 6 * M < double_limit → (k < n)%nat → sq n s →
  (∀ a b, (a < n)%nat → (b < n)%nat → small M (mat_at Inf s.1 a b)) →
  for_each (range n) (λ s i, for_each (range n) (relax k i) s) s = Ok (relax_round n s k) ∧
  ∀ a b, (a < n)%nat → (b < n)%nat → small (6 * M) (mat_at Inf (relax_round n s k).1 a b).
Proof.
  intros HM Hlim Hk Hsq Hs.
  destruct (for_each_range_ind
    (λ i s', s' = foldl (relax_row n k) s (range i) ∧ paced n k M i 0 s')
    (λ s i, for_each (range n) (relax k i) s) n s) as (s' & Hrun & -> & Hp).
  - split; [done|]. split; [done| |by intros; apply Hs].
    intros a b Ha Hb. eapply small_mono; [|by apply Hs].
    unfold tier. repeat case_decide; lia.
  - intros i s' Hi [-> Hp].
    destruct (relax_row_paced n k M i _ HM Hlim Hk Hi Hp) as [Hrow Hp'].
    eexists. split; [exact Hrow|]. split; [by rewrite range_S, foldl_app|done].
  - split; [done|]. intros a b Ha Hb. destruct Hp as [_ Hall _].
    eapply small_mono; [|by apply Hall]. unfold tier. repeat case_decide; lia.
Qed.

(** The triple loop returns on entries small enough for the number of
    passes. *)
Lemma relax_all_small n W s :
  0 ≤ W → W * 6 ^ Z.of_nat n < double_limit → sq n s →
  (∀ a b, (a < n)%nat → (b < n)%nat → small W (mat_at Inf s.1 a b)) →
  relax_all n s = Ok (fw_state n s n).
Proof.
  intros HW Hlim Hsq Hs. unfold relax_all.
  destruct (for_each_range_ind
    (λ k s', s' = fw_state n s k ∧ sq n s' ∧
       ∀ a b, (a < n)%nat → (b < n)%nat → small (W * 6 ^ Z.of_nat k) (mat_at Inf s'.1 a b))
    (λ s k, for_each (range n) (λ s i, for_each (range n) (relax k i) s) s) n s)
    as (s' & Hrun & -> & _); [| |done].
  - split; [done|]. split; [done|]. intros a b Ha Hb.
    replace (W * 6 ^ Z.of_nat 0) with W by (simpl; lia). by apply Hs.
  - intros k s' Hk (-> & Hsq' & Hsmall).
    assert (0 ≤ W * 6 ^ Z.of_nat k) as HM by (apply Z.mul_nonneg_nonneg; lia).
    assert (6 * (W * 6 ^ Z.of_nat k) = W * 6 ^ Z.of_nat (S k)) as Hpow.
    { rewrite Nat2Z.inj_succ, Z.pow_succ_r by lia. lia. }
    assert (W * 6 ^ Z.of_nat (S k) ≤ W * 6 ^ Z.of_nat n) as Hle.
    { apply Z.mul_le_mono_nonneg_l; [done|]. apply Z.pow_le_mono_r; lia. }
    destruct (relax_round_paced n k (W * 6 ^ Z.of_nat k) (fw_state n s k))
      as [Hround Hsmall']; [done|lia|done|done|done|].
    eexists. split; [exact Hround|]. rewrite fw_state_S.
    split; [done|]. split; [by apply sq_relax_round|].
    intros a b Ha Hb. rewrite <-Hpow. by apply Hsmall'.
Qed.

(** ** The engine as a whole *)

(** The weights are small enough for the number of vertices: no sum of the
    passes leaves the range of a float. *)
Definition light (g : Graph) : Prop :=
  Forall (λ e, Z.abs e.2 * 6 ^ Z.of_nat (length (vertices_of g)) < double_limit)
         (edges_of g).

#[global] Instance light_dec g : Decision (light g).
Proof. unfold light. apply _. Defined.

(** The greatest weight in absolute value. *)
Definition heaviest (E : list (Z * Z * Z)) : Z := foldr (λ e m, Z.max (Z.abs e.2) m) 0 E.

Lemma heaviest_spec (E : list (Z * Z * Z)) (c : Z) :
  0 ≤ c → 0 < double_limit →
  Forall (λ e, Z.abs e.2 * c < double_limit) E →
  0 ≤ heaviest E ∧ heaviest E * c < double_limit ∧ ∀ e, e ∈ E → Z.abs e.2 ≤ heaviest E.
Proof.
  intros Hc Hlim. induction 1 as [|e E He _ IH]; simpl.
  { split; [done|]. split; [lia|]. intros e He. by apply elem_of_nil in He. }
  destruct IH as (H0 & Hm & Hall). split; [lia|]. split.
  - destruct (Z.max_spec (Z.abs e.2) (heaviest E)) as [[_ ->]|[_ ->]]; done.
  - intros e' [->|He']%elem_of_cons; [lia|]. specialize (Hall e' He'). lia.
Qed.

(** On a well-formed graph the engine reads the edges and runs the triple
    loop on what it has read. *)
Lemma floyd_seeded (g : Graph) :
  well_formed g →
  let vs := merge_sort Z.le (vertices_of g) in
  let n := length vs in
  NoDup vs ∧
  ∃ s1, seeded n vs (edges_of g) s1 ∧
    floyd_warshall g
    = ('(dist, prox) ← relax_all n s1; avisos ← alertas dist vs; Ok (dist, prox, vs, avisos)).
Proof.
  intros [Hnd HE] vs n.
  assert (vs ≡ₚ vertices_of g) as Hperm by apply merge_sort_Permutation.
  assert (NoDup vs) as Hnd' by (by rewrite Hperm).
  split; [done|].
  destruct (init_diagonal_spec n) as (s0 & Hs0 & Hsq0 & Hat0).
  destruct (seed_loop n vs (edges_of g) s0 Hnd' eq_refl) as (s1 & Hs1 & Hsd).
  { eapply Forall_impl; [done|]. simpl. intros e [? ?]. by rewrite !Hperm. }
  { by apply seeded_init. }
  exists s1. split; [done|].
  unfold floyd_warshall. fold vs. fold n. rewrite Hs0. obind. by rewrite Hs1.
Qed.

(** With weights that are light, it returns the matrices of the last pass. *)
Lemma floyd_run (g : Graph) :
  well_formed g → light g →
  let vs := merge_sort Z.le (vertices_of g) in
  let n := length vs in
  NoDup vs ∧
  ∃ s1, seeded n vs (edges_of g) s1 ∧
    floyd_warshall g
    = Ok ((fw_state n s1 n).1, (fw_state n s1 n).2, vs, alerts_of (fw_state n s1 n).1 vs).
Proof.
  intros Hwf Hlight vs n. destruct (floyd_seeded g Hwf) as (Hnd & s1 & Hsd & Hrun).
  fold vs in Hnd, Hsd, Hrun. fold n in Hsd, Hrun.
  split; [done|]. exists s1. split; [done|]. rewrite Hrun.
  assert (n = length (vertices_of g)) as Hn.
  { unfold n, vs. by rewrite merge_sort_Permutation. }
  destruct (heaviest_spec (edges_of g) (6 ^ Z.of_nat n)) as (HW & Hlim & Hall).
  { lia. }
  { by vm_compute. }
  { rewrite Hn. exact Hlight. }
  pose proof (sd_sq _ _ _ _ Hsd) as Hsq1.
  rewrite (relax_all_small n (heaviest (edges_of g)) s1 HW Hlim Hsq1).
  2:{ intros a b Ha Hb. destruct (mat_at Inf s1.1 a b) as [d|] eqn:Hd; [|done].
      destruct (sd_fin _ _ _ _ Hsd a b d Ha Hb Hd) as [[_ ->]|(u & v & _ & _ & Hin)].
      - simpl. lia.
      - apply (Hall _ Hin). }
  obind.
  assert (sq n (fw_state n s1 n)) as [Hd Hp].
  { apply (g_sq n (arc_of vs (edges_of g))).
    apply fw_state_gen; [by apply seeded_gen|done]. }
  destruct (fw_state n s1 n) as [dist prox] eqn:Efinal. simpl in Hd, Hp.
  obind. by rewrite (alertas_spec n dist vs Hd eq_refl).
Qed.

Lemma floyd_raise (g : Graph) :
  NoDup (vertices_of g) →
  Exists (λ e, e.1.1 ∉ vertices_of g ∨ e.1.2 ∉ vertices_of g) (edges_of g) →
  floyd_warshall g = Raise KeyError.
Proof.
  intros Hnd HE.
  set (vs := merge_sort Z.le (vertices_of g)). set (n := length vs).
  assert (vs ≡ₚ vertices_of g) as Hperm by apply merge_sort_Permutation.
  assert (NoDup vs) as Hnd' by (by rewrite Hperm).
  destruct (init_diagonal_spec n) as (s0 & Hs0 & Hsq0 & Hat0).
  unfold floyd_warshall. fold vs. fold n. rewrite Hs0. obind.
  rewrite (seed_loop_raise n vs (edges_of g) Hnd' eq_refl); [done| |done].
  eapply Exists_impl; [done|]. simpl. intros e. by rewrite !Hperm.
Qed.

Lemma floyd_facts (g : Graph) dist prox vs alerts :
  well_formed g → floyd_warshall g = Ok (dist, prox, vs, alerts) →
  vs = merge_sort Z.le (vertices_of g) ∧ NoDup vs ∧
  Forall (λ e, e.1.1 ∈ vs ∧ e.1.2 ∈ vs) (edges_of g) ∧
  alerts = alerts_of dist vs ∧
  ∃ s1, seeded (length vs) vs (edges_of g) s1 ∧ fw_state (length vs) s1 (length vs) = (dist, prox).
Proof.
  intros Hwf Hrun. destruct (floyd_seeded g Hwf) as (Hnd & s1 & Hsd & Hrun').
  rewrite Hrun' in Hrun. clear Hrun'.
  apply bind_Ok_inv in Hrun as ([dist' prox'] & Hrelax & Hrun).
  apply relax_all_Ok in Hrelax; [|by destruct Hsd].
  fold (fw_state (length (merge_sort Z.le (vertices_of g))) s1
                 (length (merge_sort Z.le (vertices_of g)))) in Hrelax.
  assert (square (length (merge_sort Z.le (vertices_of g))) dist') as Hd.
  { assert (sq (length (merge_sort Z.le (vertices_of g))) (dist', prox')) as [? _]; [|done].
    rewrite Hrelax. apply (g_sq _ (arc_of (merge_sort Z.le (vertices_of g)) (edges_of g))).
    apply fw_state_gen; [by apply seeded_gen|done]. }
  rewrite (alertas_spec _ dist' _ Hd eq_refl) in Hrun. simpl in Hrun.
  injection Hrun as <- <- <- <-.
  split_and!; [done|done| |done|].
  - destruct Hwf as [_ HE]. eapply Forall_impl; [done|]. simpl. intros e.
    by rewrite !merge_sort_Permutation.
  - exists s1. split; [done|]. done.
Qed.

(** ** Walks between labels and between indices *)

Lemma iwalk_walk vs E i l j c :
  iwalk (arc_of vs E) i l j c →
  ∃ p, Forall2 (λ a u, vs !! a = Some u) (i :: l ++ [j]) p ∧ walk E p c.
Proof.
  induction 1 as [i j w (u & v & Hu & Hv & Hin)|i m l j w c (u & v & Hu & Hv & Hin) H IH].
  - exists [u; v]. split; [by repeat constructor|].
    eapply (walk_step E u v w [] 0) in Hin; [|constructor].
    by replace (w + 0) with w in Hin by lia.
  - destruct IH as (p & Hp & Hw).
    apply Forall2_cons_inv_l in Hp as (v' & rest & Hv' & Hrest & ->).
    assert (v' = v) as -> by congruence.
    exists (u :: v :: rest). split; [by repeat constructor|]. by constructor.
Qed.

Lemma Forall2_lookup_ends (vs : list Z) (idx : list nat) (p : list Z) i j :
  Forall2 (λ a u, vs !! a = Some u) idx p → head idx = Some i → last idx = Some j →
  ∃ u v, head p = Some u ∧ last p = Some v ∧ vs !! i = Some u ∧ vs !! j = Some v.
Proof.
  intros H Hhead Hlast. destruct H as [|a u idx p Hau H]; [done|].
  injection Hhead as ->. exists u. revert i u Hau j Hlast.
  induction H as [|b v idx p Hbv H IH]; intros i u Hiu j Hlast.
  - injection Hlast as ->. by exists u.
  - rewrite last_cons_cons in Hlast.
    destruct (IH b v Hbv j Hlast) as (v' & _ & Hl & _ & Hj).
    exists v'. by rewrite last_cons_cons.
Qed.

Lemma walk_iwalk vs E p c :
  NoDup vs → Forall (λ e, e.1.1 ∈ vs ∧ e.1.2 ∈ vs) E →
  walk E p c → (2 ≤ length p)%nat →
  ∃ i l j u v, head p = Some u ∧ last p = Some v ∧ vs !! i = Some u ∧ vs !! j = Some v ∧
    iwalk (arc_of vs E) i l j c.
Proof.
  intros Hnd HE. induction 1 as [u|u v w rest c Hin Hw IH]; intros Hlen.
  { simpl in Hlen. lia. }
  destruct (proj1 (Forall_forall _ _) HE _ Hin) as [Hu Hv]. simpl in Hu, Hv.
  apply list_elem_of_lookup in Hu as [i Hi]. apply list_elem_of_lookup in Hv as [m Hm].
  assert (arc_of vs E i m w) as Harc by (by exists u, v).
  destruct rest as [|x rest].
  - inversion Hw; subst. exists i, [], m, u, v.
    split_and!; [done|done|done|done|]. eapply iwalk_eq; [by constructor|lia].
  - destruct IH as (i' & l & j & u' & v' & Hhead & Hlast & Hi' & Hj & Hiw).
    { simpl. lia. }
    injection Hhead as <-.
    assert (i' = m) as -> by (by eapply NoDup_lookup).
    exists i, (m :: l), j, u, v'. split_and!; [done| |done|done|by constructor].
    by rewrite last_cons_cons.
Qed.

(** A walk of one label weighs nothing. *)
Lemma walk_single E u c : walk E [u] c → c = 0.
Proof. by inversion 1. Qed.

(** ** The walk of [reconstruir_caminho_floyd] *)

Lemma trail_walk n vs E s1 k j :
  mat_at Inf (fw_state n s1 k).1 j j = Fin 0 →
  ∀ i l, trail n (arc_of vs E) s1 k j i l →
    ∃ d, mat_at Inf (fw_state n s1 k).1 i j = Fin d ∧
      ∀ p, Forall2 (λ a u, vs !! a = Some u) (i :: l) p → walk E p d.
Proof.
  intros Hjj i l. induction 1 as [|i m w c l Hij HP Harc Hmj Hi_j Ht IH].
  - exists 0. split; [done|]. intros p Hp.
    apply Forall2_cons_inv_l in Hp as (u & rest & _ & Hrest & ->).
    apply Forall2_nil_inv_l in Hrest as ->. constructor.
  - destruct IH as (d & Hd & Hwalk). rewrite Hmj in Hd. injection Hd as <-.
    exists (w + c). split; [done|]. intros p Hp.
    apply Forall2_cons_inv_l in Hp as (u & rest & Hu & Hrest & ->).
    pose proof (Hwalk rest Hrest) as Hw.
    apply Forall2_cons_inv_l in Hrest as (v & rest' & Hv & Hrest' & ->).
    destruct Harc as (u' & v' & Hu' & Hv' & Hin).
    assert (u' = u) as -> by congruence. assert (v' = v) as -> by congruence.
    by constructor.
Qed.

Lemma caminho_loop_trail n vs E s1 j :
  length vs = n → sq n (fw_state n s1 n) → (j < n)%nat →
  ∀ i l, trail n (arc_of vs E) s1 n j i l → (i < n)%nat →
    ∀ fuel caminho, (length l < fuel)%nat →
      ∃ p, Forall2 (λ a u, vs !! a = Some u) (i :: l) p ∧
        caminho_loop fuel (fw_state n s1 n).2 vs j i caminho = Ok (PyList (caminho ++ p)).
Proof.
  intros Hlen [_ Hp] Hj i l.
  induction 1 as [|i m w c l Hij HP Harc Hmj Hi_j Ht IH]; intros Hi fuel caminho Hfuel.
  - destruct fuel as [|fuel]; [lia|]. simpl. rewrite decide_True by done.
    destruct (lookup_lt_is_Some_2 vs j) as [vj Hvj]; [lia|].
    rewrite (lget_Some _ _ _ Hvj). obind. exists [vj]. split; [by repeat constructor|done].
  - destruct fuel as [|fuel]; [lia|]. simpl in Hfuel. simpl. rewrite decide_False by done.
    destruct (lookup_lt_is_Some_2 vs i) as [vi Hvi]; [lia|].
    rewrite (lget_Some _ _ _ Hvi). obind.
    rewrite (mget_square None n) by done. obind. rewrite HP.
    destruct (arc_of_lt vs E i m w Harc) as [_ Hm]. rewrite Hlen in Hm.
    destruct (IH Hm fuel (caminho ++ [vi]) ltac:(lia)) as (p & Hfp & Hrun).
    exists (vi :: p). split; [by constructor|].
    rewrite Hrun. by rewrite <-(assoc_L (++)).
Qed.

Lemma Forall2_lookup_NoDup (vs : list Z) (idx : list nat) (p : list Z) :
  NoDup vs → Forall2 (λ a u, vs !! a = Some u) idx p → NoDup idx → NoDup p.
Proof.
  intros Hvs. induction 1 as [|a u idx p Hau H IH]; intros Hnd; [constructor|].
  apply NoDup_cons in Hnd as [Ha Hnd]. apply NoDup_cons. split; [|by apply IH].
  intros Hin. apply list_elem_of_lookup in Hin as [k Hk].
  destruct (Forall2_lookup_r _ _ _ _ _ H Hk) as (b & Hb & Hbu).
  simpl in Hbu. assert (a = b) as -> by exact (NoDup_lookup vs a b u Hvs Hau Hbu).
  apply Ha. by eapply list_elem_of_lookup_2.
Qed.

Section floyd_results.
Variables (g : Graph) (dist : list (list dist_t)) (prox : list (list (option nat)))
          (vs alerts : list Z).
Hypothesis Hwf : well_formed g.
Hypothesis Hrun : floyd_warshall g = Ok (dist, prox, vs, alerts).

Abbreviation n := (length vs).
Abbreviation E := (edges_of g).
Abbreviation arc := (arc_of vs (edges_of g)).

Lemma results_gen : fw_gen n arc (dist, prox).
Proof using Hwf Hrun.
  destruct (floyd_facts g dist prox vs alerts Hwf Hrun)
    as (_ & _ & _ & _ & s1 & Hsd & <-).
  apply fw_state_gen; [|done]. by apply seeded_gen.
Qed.

Lemma results_index i j u : vs !! i = Some u → vs !! j = Some u → i = j.
Proof using Hwf Hrun.
  destruct (floyd_facts g dist prox vs alerts Hwf Hrun) as (_ & Hnd & _).
  intros. by eapply NoDup_lookup.
Qed.

(** A set entry is the weight of a walk. *)
Lemma results_sound i j u v d :
  vs !! i = Some u → vs !! j = Some v → mat_at Inf dist i j = Fin d →
  ∃ p, walk E p d ∧ head p = Some u ∧ last p = Some v.
Proof using Hwf Hrun.
  intros Hu Hv Hd.
  destruct (g_sound _ _ _ results_gen i j d) as [[-> ->]|[l Hl]];
    [by eapply lookup_lt_Some|by eapply lookup_lt_Some|done| |].
  - assert (v = u) as -> by congruence. exists [u]. split; [constructor|done].
  - destruct (iwalk_walk vs E i l j d Hl) as (p & Hp & Hw).
    destruct (Forall2_lookup_ends vs (i :: l ++ [j]) p i j Hp) as (u' & v' & ? & ? & ? & ?).
    { done. }
    { by rewrite app_comm_cons, last_snoc. }
    exists p. split; [done|]. split; congruence.
Qed.

(** A walk sets the entry, to no more than it weighs when no alert is
    given. *)
Lemma results_covers i j u v p c :
  vs !! i = Some u → vs !! j = Some v →
  walk E p c → head p = Some u → last p = Some v →
  ∃ d, mat_at Inf dist i j = Fin d ∧ (alerts = [] → d ≤ c).
Proof using Hwf Hrun.
  intros Hu Hv Hw Hhead Hlast.
  destruct (floyd_facts g dist prox vs alerts Hwf Hrun)
    as (_ & Hnd & HE & Ealerts & s1 & Hsd & Efinal).
  assert (alerts = [] → ∀ a, (a < n)%nat → dle (Fin 0) (mat_at Inf dist a a)) as Hquiet.
  { intros Hnil. apply alerts_of_nil. congruence. }
  destruct (decide (2 ≤ length p)%nat) as [Hlen|Hlen].
  - destruct (walk_iwalk vs E p c Hnd HE Hw Hlen)
      as (i' & l & j' & u' & v' & Hh & Hl & Hi' & Hj' & Hiw).
    assert (i' = i) as -> by (eapply results_index; [done|congruence]).
    assert (j' = j) as -> by (eapply results_index; [done|congruence]).
    destruct (fw_covers n arc s1 (arc_of_lt vs E) (seeded_gen _ _ _ _ eq_refl Hsd)
                (sd_le _ _ _ _ Hsd) i l j c Hiw) as (d & Hd & Hdc).
    rewrite Efinal in Hd, Hdc. simpl in Hd, Hdc.
    exists d. split; [done|]. intros Hnil. apply Hdc. by apply Hquiet.
  - destruct p as [|x [|y p]]; [done| |simpl in Hlen; lia].
    injection Hhead as ->. injection Hlast as ->.
    assert (i = j) as -> by (by eapply results_index).
    apply walk_single in Hw as ->.
    pose proof (g_diag _ _ _ results_gen j (lookup_lt_Some _ _ _ Hv)) as Hle.
    simpl in Hle. destruct (mat_at Inf dist j j) as [d|]; [|done].
    exists d. split; [done|]. intros _. done.
Qed.

(** Without an alert, the walk of the reconstruction. *)
Lemma results_route i j u v fuel :
  alerts = [] → vs !! i = Some u → vs !! j = Some v → (n ≤ fuel)%nat →
  match mat_at Inf dist i j with
  | Inf => reconstruir_caminho_floyd fuel i j prox vs = Ok no_path
  | Fin d =>
      ∃ p, reconstruir_caminho_floyd fuel i j prox vs = Ok (PyList p) ∧
        walk E p d ∧ head p = Some u ∧ last p = Some v ∧ NoDup p
  end.
Proof using Hwf Hrun.
  intros Hnil Hu Hv Hfuel.
  destruct (floyd_facts g dist prox vs alerts Hwf Hrun)
    as (_ & Hnd & HE & Ealerts & s1 & Hsd & Efinal).
  pose proof (lookup_lt_Some _ _ _ Hu) as Hi. pose proof (lookup_lt_Some _ _ _ Hv) as Hj.
  pose proof results_gen as Hgen. destruct Hgen as [[Hsqd Hsqp] _ _ Hsome _].
  simpl in Hsqd, Hsqp, Hsome.
  unfold reconstruir_caminho_floyd. rewrite (mget_square None n) by done. obind.
  destruct (mat_at Inf dist i j) as [d|] eqn:Hd.
  2:{ by rewrite (proj1 (Hsome i j Hi Hj) Hd). }
  destruct (mat_at None prox i j) as [m|] eqn:HP.
  2:{ apply (Hsome i j Hi Hj) in HP. congruence. }
  assert (∀ a, (a < n)%nat → dle (Fin 0) (mat_at Inf (fw_state n s1 n).1 a a)) as Hquiet.
  { rewrite Efinal. simpl. apply alerts_of_nil. congruence. }
  assert (∀ a b w, (a < n)%nat → (b < n)%nat → a ≠ b →
            mat_at Inf s1.1 a b = Fin w → arc a b w ∧ mat_at None s1.2 a b = Some b)
    as Hseed_arc.
  { intros a b w Ha Hb Hab Hw.
    pose proof (sd_prox _ _ _ _ Hsd a b Ha Hb) as HPab. rewrite Hw in HPab.
    destruct (sd_fin _ _ _ _ Hsd a b w Ha Hb Hw) as [[? _]|?]; done. }
  pose proof (seeded_gen _ _ _ _ eq_refl Hsd) as Hgen1.
  destruct (routed_all n arc s1 (arc_of_lt vs E) Hgen1 (sd_le _ _ _ _ Hsd) Hquiet Hseed_arc
              n ltac:(done) i j d Hi Hj) as (l & Ht & _).
  { by rewrite Efinal. }
  pose proof (trail_length n arc s1 (arc_of_lt vs E) n j i l Hi Ht) as Hlen.
  destruct (caminho_loop_trail n vs E s1 j eq_refl) with (i := i) (l := l)
    (fuel := fuel) (caminho := @nil Z) as (p & Hp & Hloop); [|done|done|done|lia|].
  { rewrite Efinal. done. }
  rewrite Efinal in Hloop. simpl in Hloop. rewrite Hloop.
  exists p. split; [done|].
  destruct (trail_walk n vs E s1 n j) with (i := i) (l := l) as (d' & Hd' & Hwalk); [|done|].
  { apply (fw_state_diag n arc s1 Hgen1 n j Hquiet); done. }
  rewrite Efinal in Hd'. simpl in Hd'. assert (d' = d) as -> by congruence.
  destruct (Forall2_lookup_ends vs (i :: l) p i j Hp eq_refl) as (u' & v' & ? & ? & ? & ?).
  { by eapply trail_last. }
  split_and!.
  - by apply Hwalk.
  - congruence.
  - congruence.
  - eapply Forall2_lookup_NoDup; [done|done|]. by eapply trail_NoDup.
Qed.
End floyd_results.

(** ** [criar_grafo] *)

(** Both endpoints of the edge are among the names. *)
Definition known (nomes : list Z) (e : Z * Z * Z) : Prop := e.1.1 ∈ nomes ∧ e.1.2 ∈ nomes.

#[global] Instance known_dec nomes e : Decision (known nomes e).
Proof. unfold known. apply _. Defined.

Lemma criar_grafo_vertices d (l : list Z) : ∀ V (E : list (Z * Z * Z)) M,
  foldl (λ '(g, m) nome, (insert_vertex g nome, m ++ [nome])) (mkGraph d V E, M) l
  = (mkGraph d (V ++ l) E, M ++ l).
Proof.
  induction l as [|x l IH]; intros V E M; simpl.
  - by rewrite !app_nil_r.
  - unfold insert_vertex at 2. simpl. rewrite IH. by rewrite <-!(assoc_L (++)).
Qed.

Lemma criar_grafo_edges d V (nomes : list Z) (l : list (Z * Z * Z)) : ∀ E av,
  foldl (λ '(g, av) '(u_nome, v_nome, peso),
           if bool_decide (u_nome ∈ nomes) && bool_decide (v_nome ∈ nomes)
           then (insert_edge g u_nome v_nome peso, av)
           else (g, av ++ [(u_nome, v_nome)]))
        (mkGraph d V E, av) l
  = (mkGraph d V (E ++ (filter (known nomes) l ≫= arcs_of_edge d)),
     av ++ ((λ e, (e.1.1, e.1.2)) <$> filter (λ e, ¬ known nomes e) l)).
Proof.
  induction l as [|[[u v] w] l IH]; intros E av; simpl.
  - by rewrite !app_nil_r.
  - destruct (decide (known nomes (u, v, w))) as [Hk|Hk].
    + rewrite (filter_cons_True (known nomes)) by done.
      rewrite (filter_cons_False (λ e, ¬ known nomes e)) by (by intros ?).
      destruct Hk as [Hu Hv]. simpl in Hu, Hv.
      rewrite !bool_decide_eq_true_2 by done. simpl.
      unfold insert_edge at 2. cbn [directed vertices_of edges_of]. rewrite IH.
      by rewrite <-!(assoc_L (++)).
    + rewrite (filter_cons_False (known nomes)) by done.
      rewrite (filter_cons_True (λ e, ¬ known nomes e)) by done.
      assert (bool_decide (u ∈ nomes) && bool_decide (v ∈ nomes) = false) as ->.
      { apply andb_false_iff. unfold known in Hk. simpl in Hk.
        destruct (decide (u ∈ nomes)); [right|left]; apply bool_decide_eq_false; tauto. }
      rewrite IH. simpl. by rewrite <-!(assoc_L (++)).
Qed.

Lemma criar_grafo_eq (vertices_nomes : list Z) (arestas_dados : list (Z * Z * Z)) d :
  criar_grafo vertices_nomes arestas_dados d
  = (mkGraph d vertices_nomes
       (filter (known vertices_nomes) arestas_dados ≫= arcs_of_edge d),
     vertices_nomes,
     (λ e, (e.1.1, e.1.2)) <$> filter (λ e, ¬ known vertices_nomes e) arestas_dados).
Proof.
  unfold criar_grafo. rewrite criar_grafo_vertices. simpl.
  by rewrite criar_grafo_edges.
Qed.

Lemma elem_of_arcs_of_edge d (e a : Z * Z * Z) :
  a ∈ arcs_of_edge d e → a.2 = e.2 ∧ (a.1.1 = e.1.1 ∧ a.1.2 = e.1.2 ∨ a.1.1 = e.1.2 ∧ a.1.2 = e.1.1).
Proof.
  unfold arcs_of_edge. destruct d.
  - intros ->%list_elem_of_singleton. split; [done|by left].
  - intros [->| ->%list_elem_of_singleton]%elem_of_cons; (split; [done|]); [by left|by right].
Qed.

Lemma criar_grafo_well_formed (vertices_nomes : list Z) (arestas_dados : list (Z * Z * Z)) d :
  NoDup vertices_nomes → well_formed (criar_grafo vertices_nomes arestas_dados d).1.1.
Proof.
  intros Hnd. rewrite criar_grafo_eq. split; [done|]. simpl.
  apply Forall_forall. intros a (e & Ha & [[Hu Hv] _]%list_elem_of_filter)%list_elem_of_bind.
  apply elem_of_arcs_of_edge in Ha as [_ [[-> ->]|[-> ->]]]; done.
Qed.

Lemma criar_grafo_light (vertices_nomes : list Z) (arestas_dados : list (Z * Z * Z)) d :
  Forall (λ e, Z.abs e.2 * 6 ^ Z.of_nat (length vertices_nomes) < double_limit) arestas_dados →
  light (criar_grafo vertices_nomes arestas_dados d).1.1.
Proof.
  intros Hall. rewrite criar_grafo_eq. unfold light. simpl.
  apply Forall_forall. intros a (e & Ha & [_ He]%list_elem_of_filter)%list_elem_of_bind.
  apply elem_of_arcs_of_edge in Ha as [-> _].
  by apply (proj1 (Forall_forall _ _) Hall).
Qed.

(** ** What the engine computes *)

(** X1: on a graph of distinct labels whose edges join its vertices, and
    whose weights are light for its [n] vertices (each [|w| * 6^n] is below
    [2^1024 - 2^970], so that no sum of the triple loop is too large to
    meet [inf]), [floyd_warshall] returns: the ordering is the labels in
    ascending order, both matrices have one row and one column a vertex,
    and the alerts are the labels whose entry on the diagonal is negative. *)
Theorem floyd_warshall_returns (g : Graph) :
  well_formed g → light g →
  ∃ dist prox alerts,
    floyd_warshall g = Ok (dist, prox, merge_sort Z.le (vertices_of g), alerts) ∧
    Sorted Z.le (merge_sort Z.le (vertices_of g)) ∧
    merge_sort Z.le (vertices_of g) ≡ₚ vertices_of g ∧
    square (length (vertices_of g)) dist ∧ square (length (vertices_of g)) prox ∧
    ∀ u, u ∈ alerts ↔
      ∃ i d, merge_sort Z.le (vertices_of g) !! i = Some u ∧
             mat_at Inf dist i i = Fin d ∧ d < 0.
Proof.
  intros Hwf Hlight. destruct (floyd_run g Hwf Hlight) as (Hnd & s1 & Hsd & Hrun).
  pose proof (results_gen g _ _ _ _ Hwf Hrun) as [[Hd Hp] _ _ _ _]. simpl in Hd, Hp.
  assert (length (merge_sort Z.le (vertices_of g)) = length (vertices_of g)) as Hlen.
  { by rewrite merge_sort_Permutation. }
  eexists _, _, _. split; [exact Hrun|]. rewrite <-Hlen.
  split_and!; [apply (Sorted_merge_sort Z.le _)|apply merge_sort_Permutation|done|done|].
  intros u. rewrite elem_of_alerts_of. split.
  - intros (i & Hi & Hlt). unfold dlt in Hlt.
    destruct (mat_at Inf _ i i) as [d|] eqn:E; [|done].
    apply bool_decide_eq_true in Hlt. by exists i, d.
  - intros (i & d & Hi & E & Hlt). exists i. split; [done|]. rewrite E. simpl.
    by apply bool_decide_eq_true.
Qed.

Lemma floyd_warshall_returns_witness :
  ∃ dist prox alerts,
    floyd_warshall G_direcionado
    = Ok (dist, prox, merge_sort Z.le (vertices_of G_direcionado), alerts) ∧
    Sorted Z.le (merge_sort Z.le (vertices_of G_direcionado)) ∧
    merge_sort Z.le (vertices_of G_direcionado) ≡ₚ vertices_of G_direcionado ∧
    square (length (vertices_of G_direcionado)) dist ∧
    square (length (vertices_of G_direcionado)) prox ∧
    ∀ u, u ∈ alerts ↔
      ∃ i d, merge_sort Z.le (vertices_of G_direcionado) !! i = Some u ∧
             mat_at Inf dist i i = Fin d ∧ d < 0.
Proof.
  apply (floyd_warshall_returns G_direcionado).
  - apply (bool_decide_unpack _). vm_compute. exact I.
  - apply (bool_decide_unpack _). vm_compute. exact I.
Defined.

(** A weight too large for a float: the first pass adds it to [inf]. *)
Example floyd_warshall_overflow :
  floyd_warshall (criar_grafo [1; 2; 3] [(1, 2, 10 ^ 400)] true).1.1 = Raise OverflowError.
Proof. by vm_compute. Qed.

(** X2: when an edge names an endpoint that is no vertex of the graph,
    the lookup of its index fails: [floyd_warshall] raises [KeyError]. *)
Theorem floyd_warshall_key_error (g : Graph) :
  NoDup (vertices_of g) →
  Exists (λ e, e.1.1 ∉ vertices_of g ∨ e.1.2 ∉ vertices_of g) (edges_of g) →
  floyd_warshall g = Raise KeyError.
Proof. apply floyd_raise. Qed.

Lemma floyd_warshall_key_error_witness :
  floyd_warshall (mkGraph true [1; 2] [(1, 2, 5); (2, 7, 1)]) = Raise KeyError.
Proof.
  apply (floyd_warshall_key_error (mkGraph true [1; 2] [(1, 2, 5); (2, 7, 1)]));
    apply (bool_decide_unpack _); vm_compute; exact I.
Defined.

(** X3: every entry of [dist] that is set is the weight of a walk of the
    graph between the two vertices, with or without a negative cycle. *)
Theorem floyd_dist_sound (g : Graph) dist prox vs alerts (i j : nat) (u v d : Z) :
  well_formed g → floyd_warshall g = Ok (dist, prox, vs, alerts) →
  vs !! i = Some u → vs !! j = Some v → mat_at Inf dist i j = Fin d →
  ∃ p, walk (edges_of g) p d ∧ head p = Some u ∧ last p = Some v.
Proof. intros Hwf Hrun. by apply (results_sound g dist prox vs alerts). Qed.

Lemma floyd_dist_sound_witness :
  ∃ p, walk (edges_of G_direcionado) p 7 ∧ head p = Some 5 ∧ last p = Some 2.
Proof.
  eapply (floyd_dist_sound G_direcionado _ _ _ _ 4 1 5 2 7).
  - apply (bool_decide_unpack _). vm_compute. exact I.
  - vm_compute. reflexivity.
  - reflexivity.
  - reflexivity.
  - reflexivity.
Defined.

(** X4: an entry of [dist] is set exactly when a walk of the graph leads
    from the one vertex to the other, with or without a negative cycle;
    and [prox] is unset exactly where [dist] is infinite. *)
Theorem floyd_dist_set_iff_walk (g : Graph) dist prox vs alerts (i j : nat) (u v : Z) :
  well_formed g → floyd_warshall g = Ok (dist, prox, vs, alerts) →
  vs !! i = Some u → vs !! j = Some v →
  ((∃ d, mat_at Inf dist i j = Fin d) ↔
   (∃ p c, walk (edges_of g) p c ∧ head p = Some u ∧ last p = Some v)) ∧
  (mat_at None prox i j = None ↔ mat_at Inf dist i j = Inf).
Proof.
  intros Hwf Hrun Hu Hv. split; [split|].
  - intros [d Hd].
    destruct (results_sound g dist prox vs alerts Hwf Hrun i j u v d Hu Hv Hd) as (p & ?).
    by exists p, d.
  - intros (p & c & Hw & Hh & Hl).
    destruct (results_covers g dist prox vs alerts Hwf Hrun i j u v p c Hu Hv Hw Hh Hl)
      as (d & Hd & _).
    by exists d.
  - pose proof (results_gen g dist prox vs alerts Hwf Hrun) as [_ _ _ Hsome _].
    symmetry. apply Hsome; by eapply lookup_lt_Some.
Qed.

(** The matrices of the scenario of the [__main__] block. *)
Definition dist_main : list (list dist_t) :=
  Eval vm_compute in
    match floyd_warshall G_direcionado with Ok (dist, _, _, _) => dist | _ => [] end.

Definition prox_main : list (list (option nat)) :=
  Eval vm_compute in
    match floyd_warshall G_direcionado with Ok (_, prox, _, _) => prox | _ => [] end.

Lemma floyd_dist_set_iff_walk_witness :
  ((∃ d, mat_at Inf dist_main 4 1 = Fin d) ↔
   (∃ p c, walk (edges_of G_direcionado) p c ∧ head p = Some 5 ∧ last p = Some 2)) ∧
  (mat_at None prox_main 4 1 = None ↔ mat_at Inf dist_main 4 1 = Inf).
Proof.
  apply (floyd_dist_set_iff_walk G_direcionado dist_main prox_main [1; 2; 3; 4; 5; 6] []).
  - apply (bool_decide_unpack _). vm_compute. exact I.
  - vm_compute. reflexivity.
  - reflexivity.
  - reflexivity.
Defined.

(** X5: the alerts tell a negative cycle apart.  Every label alerted lies
    on a closed walk of negative weight; and when the graph has a closed
    walk of negative weight, an alert is given. *)
Theorem floyd_alert_negative_cycle (g : Graph) dist prox vs alerts :
  well_formed g → floyd_warshall g = Ok (dist, prox, vs, alerts) →
  (∀ u, u ∈ alerts →
     ∃ p c, walk (edges_of g) p c ∧ head p = Some u ∧ last p = Some u ∧ c < 0) ∧
  ((∃ p c u, walk (edges_of g) p c ∧ head p = Some u ∧ last p = Some u ∧ c < 0) →
   alerts ≠ []).
Proof.
  intros Hwf Hrun.
  destruct (floyd_facts g dist prox vs alerts Hwf Hrun)
    as (_ & Hnd & HE & Ealerts & s1 & Hsd & Efinal).
  split.
  - intros u Hu. rewrite Ealerts in Hu. apply elem_of_alerts_of in Hu as (i & Hi & Hlt).
    unfold dlt in Hlt. destruct (mat_at Inf dist i i) as [d|] eqn:Hd; [|done].
    apply bool_decide_eq_true in Hlt.
    destruct (results_sound g dist prox vs alerts Hwf Hrun i i u u d Hi Hi Hd)
      as (p & Hw & Hh & Hl).
    by exists p, d.
  - intros (p & c & u & Hw & Hh & Hl & Hc) Hnil.
    assert (2 ≤ length p)%nat as Hlen.
    { destruct p as [|x [|y p]]; [done| |simpl; lia].
      apply walk_single in Hw. lia. }
    destruct (walk_iwalk vs (edges_of g) p c Hnd HE Hw Hlen)
      as (i & l & j & u' & v' & Hh' & Hl' & Hi & Hj & _).
    assert (u' = u) as -> by congruence. assert (v' = u) as -> by congruence.
    destruct (results_covers g dist prox vs alerts Hwf Hrun i j u u p c Hi Hj Hw Hh Hl)
      as (d & Hd & Hdc).
    assert (i = j) as -> by (by eapply (NoDup_lookup vs)).
    assert (dle (Fin 0) (mat_at Inf dist j j)) as Hle.
    { apply (proj1 (alerts_of_nil dist vs)); [congruence|by eapply lookup_lt_Some]. }
    rewrite Hd in Hle. simpl in Hle. specialize (Hdc Hnil). lia.
Qed.

Lemma floyd_alert_negative_cycle_witness :
  (∀ u, u ∈ [1; 2] →
     ∃ p c, walk (edges_of G_ciclo) p c ∧ head p = Some u ∧ last p = Some u ∧ c < 0) ∧
  ((∃ p c u, walk (edges_of G_ciclo) p c ∧ head p = Some u ∧ last p = Some u ∧ c < 0) →
   [1; 2] ≠ []).
Proof.
  eapply (floyd_alert_negative_cycle G_ciclo _ _ _ [1; 2]).
  - apply (bool_decide_unpack _). vm_compute. exact I.
  - vm_compute. reflexivity.
Defined.

(** X6: when no alert is given, [dist] holds the weight of a shortest
    walk: for any two vertices that a walk joins the entry is set, it is
    no more than the weight of that walk, and it is the weight of some
    walk between them. *)
Theorem floyd_dist_shortest (g : Graph) dist prox vs (i j : nat) (u v : Z)
    (p : list Z) (c : Z) :
  well_formed g → floyd_warshall g = Ok (dist, prox, vs, []) →
  vs !! i = Some u → vs !! j = Some v →
  walk (edges_of g) p c → head p = Some u → last p = Some v →
  ∃ d, mat_at Inf dist i j = Fin d ∧ d ≤ c ∧
    ∃ p', walk (edges_of g) p' d ∧ head p' = Some u ∧ last p' = Some v.
Proof.
  intros Hwf Hrun Hu Hv Hw Hh Hl.
  destruct (results_covers g dist prox vs [] Hwf Hrun i j u v p c Hu Hv Hw Hh Hl)
    as (d & Hd & Hdc).
  exists d. split_and!; [done|by apply Hdc|].
  by apply (results_sound g dist prox vs [] Hwf Hrun i j u v d).
Qed.

Lemma floyd_dist_shortest_witness :
  ∃ d, mat_at Inf dist_main 4 1 = Fin d ∧ d ≤ 10 + 3 ∧
    ∃ p', walk (edges_of G_direcionado) p' d ∧ head p' = Some 5 ∧ last p' = Some 2.
Proof.
  apply (floyd_dist_shortest G_direcionado dist_main prox_main [1; 2; 3; 4; 5; 6]
           4 1 5 2 [5; 3; 2] (10 + 3)).
  - apply (bool_decide_unpack _). vm_compute. exact I.
  - vm_compute. reflexivity.
  - reflexivity.
  - reflexivity.
  - apply (walk_step _ 5 3 10 [2] 3); [vm_compute; set_solver|].
    replace 3 with (3 + 0) at 2 by reflexivity.
    apply (walk_step _ 3 2 3 [] 0); [vm_compute; set_solver|constructor].
  - reflexivity.
  - reflexivity.
Defined.

(** X7: when no alert is given, [reconstruir_caminho_floyd] returns within
    as many tests of its loop as there are vertices.  Where [dist] is
    infinite it returns the pair [(None, inf)]; where [dist] is set it
    returns the labels of a walk of the graph from the one vertex to the
    other that visits no vertex twice and weighs what [dist] holds, a
    shortest walk. *)
Theorem floyd_path_shortest (g : Graph) dist prox vs (i j : nat) (u v : Z) (fuel : nat) :
  well_formed g → floyd_warshall g = Ok (dist, prox, vs, []) →
  vs !! i = Some u → vs !! j = Some v → (length vs ≤ fuel)%nat →
  match mat_at Inf dist i j with
  | Inf => reconstruir_caminho_floyd fuel i j prox vs = Ok no_path
  | Fin d =>
      ∃ p, reconstruir_caminho_floyd fuel i j prox vs = Ok (PyList p) ∧
        walk (edges_of g) p d ∧ head p = Some u ∧ last p = Some v ∧ NoDup p
  end.
Proof. intros Hwf Hrun. by apply (results_route g dist prox vs []). Qed.

Lemma floyd_path_shortest_witness :
  match mat_at Inf dist_main 4 1 with
  | Inf => reconstruir_caminho_floyd 6 4 1 prox_main [1; 2; 3; 4; 5; 6] = Ok no_path
  | Fin d =>
      ∃ p, reconstruir_caminho_floyd 6 4 1 prox_main [1; 2; 3; 4; 5; 6] = Ok (PyList p) ∧
        walk (edges_of G_direcionado) p d ∧ head p = Some 5 ∧ last p = Some 2 ∧ NoDup p
  end.
Proof.
  apply (floyd_path_shortest G_direcionado dist_main prox_main [1; 2; 3; 4; 5; 6] 4 1 5 2 6).
  - apply (bool_decide_unpack _). vm_compute. exact I.
  - vm_compute. reflexivity.
  - reflexivity.
  - reflexivity.
  - simpl. lia.
Defined.

(** X8: [criar_grafo] keeps the names as the vertices, in order, and the
    edges whose two endpoints are among the names, in order: each as the
    one directed edge in a directed graph, and as the pair of the two
    directed edges in an undirected one.  It leaves out every other edge,
    with one warning each. *)
Theorem criar_grafo_keeps_known (vertices_nomes : list Z) (arestas_dados : list (Z * Z * Z))
    (direcionado : bool) :
  criar_grafo vertices_nomes arestas_dados direcionado
  = (mkGraph direcionado vertices_nomes
       (filter (known vertices_nomes) arestas_dados ≫= arcs_of_edge direcionado),
     vertices_nomes,
     (λ e, (e.1.1, e.1.2)) <$> filter (λ e, ¬ known vertices_nomes e) arestas_dados).
Proof. apply criar_grafo_eq. Qed.

(** An undirected graph holds the way back of each edge. *)
Example criar_grafo_undirected :
  edges_of (criar_grafo [1; 2] [(1, 2, 5); (2, 7, 1)] false).1.1 = [(1, 2, 5); (2, 1, 5)].
Proof. reflexivity. Qed.

(** X9: the engine accepts what [criar_grafo] builds from distinct names
    and from weights that are light for their number [n] (each [|w| * 6^n]
    below [2^1024 - 2^970]): [floyd_warshall] returns on it, directed or
    not, edges with unknown endpoints having been left out. *)
Theorem criar_grafo_then_floyd (vertices_nomes : list Z) (arestas_dados : list (Z * Z * Z))
    (direcionado : bool) :
  NoDup vertices_nomes →
  Forall (λ e, Z.abs e.2 * 6 ^ Z.of_nat (length vertices_nomes) < double_limit)
         arestas_dados →
  ∃ dist prox alerts,
    floyd_warshall (criar_grafo vertices_nomes arestas_dados direcionado).1.1
    = Ok (dist, prox, merge_sort Z.le vertices_nomes, alerts).
Proof.
  intros Hnd Hlight.
  destruct (floyd_run _ (criar_grafo_well_formed vertices_nomes arestas_dados direcionado Hnd)
              (criar_grafo_light vertices_nomes arestas_dados direcionado Hlight))
    as (_ & s1 & _ & Hrun).
  rewrite criar_grafo_eq in Hrun. simpl in Hrun. rewrite criar_grafo_eq. simpl.
  by eexists _, _, _.
Qed.

Lemma criar_grafo_then_floyd_witness :
  ∃ dist prox alerts,
    floyd_warshall (criar_grafo [3; 1; 2] [(1, 2, 5); (2, 7, 1); (3, 1, -2)] false).1.1
    = Ok (dist, prox, merge_sort Z.le [3; 1; 2], alerts).
Proof.
  apply (criar_grafo_then_floyd [3; 1; 2] [(1, 2, 5); (2, 7, 1); (3, 1, -2)] false).
  - apply (bool_decide_unpack _). vm_compute. exact I.
  - apply (bool_decide_unpack _). vm_compute. exact I.
Defined.

(** * The lattice of [grid_graph] *)

(** The cells [grid_step] looks for from the cell [(r, c)]. *)
Definition neighbours (connect_diagonals : bool) (r c : Z) : list (Z * Z) :=
  [(r, c + 1); (r + 1, c)] ++
  (if connect_diagonals then [(r + 1, c + 1); (r + 1, c - 1)] else []).

(** [v] is the label next to, below, or diagonally below [u] on rows of
    [cols] labels. *)
Definition adjacent (connect_diagonals : bool) (cols u v : Z) : Prop :=
  (v = u + 1 ∧ u `mod` cols ≠ 0) ∨
  v = u + cols ∨
  (connect_diagonals = true ∧
   ((v = u + cols + 1 ∧ u `mod` cols ≠ 0) ∨ (v = u + cols - 1 ∧ (u - 1) `mod` cols ≠ 0))).

Lemma mod_row (cols r c : Z) : 1 ≤ cols → 0 ≤ c < cols → (r * cols + c) `mod` cols = c.
Proof.
  intros Hcols Hc. rewrite Z.add_comm, Z.mod_add by lia. apply Z.mod_small. lia.
Qed.

Lemma div_row (cols r c : Z) : 1 ≤ cols → 0 ≤ c < cols → (r * cols + c) / cols = r.
Proof.
  intros Hcols Hc. rewrite Z.add_comm, Z.div_add by lia.
  rewrite Z.div_small by lia. lia.
Qed.

Section lattice.
Variables (rows cols n : Z).
Hypothesis Hcols : 1 ≤ cols.
Hypothesis Hn : 0 ≤ n.
Hypothesis Hcover : n ≤ rows * cols.

Let coords := grid_coords rows cols n.
Let index_of := index_items coords.

Lemma coords_iff (i : nat) (r c : Z) :
  coords !! i = Some (r, c) ↔
  0 ≤ r ∧ 0 ≤ c < cols ∧ Z.of_nat i = r * cols + c ∧ Z.of_nat i < n.
Proof using Hcols Hn Hcover.
  split.
  - intros H. apply (grid_coords_inv rows cols n Hcols Hn Hcover) in H. lia.
  - intros (Hr & Hc & Hi & Hlt).
    rewrite <-(grid_coords_lookup rows cols n Hcols Hn Hcover r c) by lia.
    f_equal. lia.
Qed.

Lemma link_edges_elem (i : nat) (key : Z * Z) (u v : Z) :
  (u, v) ∈ link_edges index_of i key ↔
  ∃ k : nat, coords !! k = Some key ∧ u = Z.of_nat i + 1 ∧ v = Z.of_nat k + 1.
Proof using Hcols Hn Hcover.
  unfold link_edges. split.
  - destruct (assoc key index_of) as [k|] eqn:E; [|by intros ?%elem_of_nil].
    intros [= -> ->]%list_elem_of_singleton. exists k.
    split; [by apply index_items_Some|done].
  - intros (k & Hk & -> & ->). unfold index_of, coords.
    rewrite (index_of_lookup rows cols n Hcols Hn Hcover k key Hk).
    by apply list_elem_of_singleton.
Qed.

Lemma cell_edges_elem (cd : bool) (r c : Z) (i : nat) (u v : Z) :
  (u, v) ∈ cell_edges index_of cd ((r, c), i) ↔
  ∃ key (k : nat), key ∈ neighbours cd r c ∧ coords !! k = Some key ∧
    u = Z.of_nat i + 1 ∧ v = Z.of_nat k + 1.
Proof using Hcols Hn Hcover.
  unfold cell_edges, neighbours. destruct cd.
  - rewrite !elem_of_app, !link_edges_elem. split.
    + intros [H|[H|[H|H]]]; destruct H as (k & Hk & -> & ->); eexists _, k;
        (split; [|done]); set_solver.
    + intros (key & k & Hkey & Hk & -> & ->).
      apply elem_of_app in Hkey as [Hkey|Hkey];
        apply elem_of_cons in Hkey as [->|Hkey%list_elem_of_singleton]; subst;
        [left|right; left|right; right; left|right; right; right]; by exists k.
  - rewrite app_nil_r, !elem_of_app, !link_edges_elem. split.
    + intros [H|H]; destruct H as (k & Hk & -> & ->); eexists _, k;
        (split; [|done]); set_solver.
    + intros (key & k & Hkey & Hk & -> & ->). rewrite app_nil_r in Hkey.
      apply elem_of_cons in Hkey as [->|Hkey%list_elem_of_singleton]; subst;
        [left|right]; by exists k.
Qed.

(** The edges of the lattice, by the labels they join. *)
Lemma lattice_edges (cd : bool) (u v : Z) :
  (u, v) ∈ index_of ≫= cell_edges index_of cd ↔ 1 ≤ u ∧ v ≤ n ∧ adjacent cd cols u v.
Proof using Hcols Hn Hcover.
  rewrite list_elem_of_bind. split.
  - intros ([[r c] i] & Hin & Hitem). apply index_items_elem in Hitem.
    apply cell_edges_elem in Hin as (key & k & Hkey & Hk & -> & ->).
    apply coords_iff in Hitem as (Hr & Hc & Hi & Hlt). destruct key as [r' c'].
    apply coords_iff in Hk as (Hr' & Hc' & Hk & Hlt').
    split; [lia|]. split; [lia|]. unfold adjacent, neighbours in *.
    assert ((Z.of_nat i + 1 - 1) `mod` cols = c) as Hmod.
    { replace (Z.of_nat i + 1 - 1) with (r * cols + c) by lia. by apply mod_row. }
    apply elem_of_app in Hkey as [Hkey|Hkey].
    + apply elem_of_cons in Hkey as [[= -> ->]|[= -> ->]%list_elem_of_singleton].
      * left. split; [lia|].
        replace (Z.of_nat i + 1) with (r * cols + (c + 1)) by lia.
        rewrite mod_row by lia. lia.
      * right. left. lia.
    + destruct cd; [|by apply elem_of_nil in Hkey]. right. right. split; [done|].
      apply elem_of_cons in Hkey as [[= -> ->]|[= -> ->]%list_elem_of_singleton].
      * left. split; [lia|].
        replace (Z.of_nat i + 1) with (r * cols + (c + 1)) by lia.
        rewrite mod_row by lia. lia.
      * right. split; [lia|]. rewrite Hmod. lia.
  - intros (Hu & Hv & Hadj).
    set (i := Z.to_nat (u - 1)). set (r := (u - 1) / cols). set (c := (u - 1) `mod` cols).
    pose proof (Z.div_mod (u - 1) cols ltac:(lia)) as Hdm.
    pose proof (Z.mod_pos_bound (u - 1) cols ltac:(lia)) as Hc.
    assert (0 ≤ r) as Hr by (apply Z.div_pos; lia).
    fold r c in Hdm, Hc.
    assert (u `mod` cols ≠ 0 → c + 1 < cols) as Hright.
    { intros Hne. destruct (decide (c + 1 < cols)) as [|Hge]; [done|]. exfalso. apply Hne.
      replace u with ((r + 1) * cols + 0) by lia. apply mod_row; lia. }
    assert (∀ r' c', 0 ≤ r' → 0 ≤ c' < cols → v = r' * cols + c' + 1 → u ≤ n →
              (r', c') ∈ neighbours cd r c →
              ∃ x, ((u, v) ∈ cell_edges index_of cd x) ∧ x ∈ index_of) as Hfound.
    { intros r' c' Hr' Hc' Hv' Hun Hkey. exists ((r, c), i). split.
      - apply cell_edges_elem. exists (r', c'), (Z.to_nat (v - 1)).
        split_and!; [done| |lia|lia]. apply coords_iff. lia.
      - apply index_items_elem. apply coords_iff. lia. }
    unfold adjacent in Hadj. unfold neighbours in Hfound.
    destruct Hadj as [[-> Hne]|[->|[-> [[-> Hne]|[-> Hne]]]]].
    + apply (Hfound r (c + 1)); [lia|specialize (Hright Hne); lia|lia|lia|].
      apply elem_of_app. left. by left.
    + apply (Hfound (r + 1) c); [lia|lia|lia|lia|].
      apply elem_of_app. left. right. by left.
    + apply (Hfound (r + 1) (c + 1)); [lia|specialize (Hright Hne); lia|lia|lia|].
      apply elem_of_app. right. by left.
    + fold c in Hne. apply (Hfound (r + 1) (c - 1)); [lia|lia|lia|lia|].
      apply elem_of_app. right. right. by left.
Qed.

(** No edge of the lattice is listed twice. *)
Lemma lattice_NoDup (cd : bool) : NoDup (index_of ≫= cell_edges index_of cd).
Proof using Hcols Hn Hcover.
  apply NoDup_bind.
  - intros [[r1 c1] i1] [[r2 c2] i2] [u v] H1 H2 Hin1 Hin2.
    apply index_items_elem in H1, H2.
    apply cell_edges_elem in Hin1 as (_ & _ & _ & _ & Hu1 & _).
    apply cell_edges_elem in Hin2 as (_ & _ & _ & _ & Hu2 & _).
    assert (i1 = i2) as -> by lia. assert ((r1, c1) = (r2, c2)) as [= -> ->] by congruence.
    done.
  - intros [[r c] i] Hitem. apply index_items_elem in Hitem.
    apply coords_iff in Hitem as (Hr & Hc & Hi & Hlt).
    assert (∀ key, NoDup (link_edges index_of i key)) as Hone.
    { intros key. unfold link_edges. destruct (assoc key index_of);
        [apply NoDup_singleton|apply NoDup_nil_2]. }
    assert (∀ key1 key2 e,
              e ∈ link_edges index_of i key1 → e ∈ link_edges index_of i key2 →
              key1 = key2) as Hsame.
    { intros key1 key2 [u v] (k1 & Hk1 & _ & ->)%link_edges_elem
             (k2 & Hk2 & _ & Hv)%link_edges_elem.
      assert (k1 = k2) as -> by lia. congruence. }
    unfold cell_edges. destruct cd.
    + apply NoDup_app. split_and!; [apply Hone| |].
      { intros e He Hin. rewrite !elem_of_app in Hin.
        destruct Hin as [Hin|[Hin|Hin]];
          pose proof (Hsame _ _ _ He Hin) as Heq; injection Heq; intros; lia. }
      apply NoDup_app. split_and!; [apply Hone| |].
      { intros e He Hin. rewrite !elem_of_app in Hin.
        destruct Hin as [Hin|Hin];
          pose proof (Hsame _ _ _ He Hin) as Heq; injection Heq; intros; lia. }
      apply NoDup_app. split_and!; [apply Hone| |apply Hone].
      intros e He Hin. pose proof (Hsame _ _ _ He Hin) as Heq. injection Heq; intros; lia.
    + rewrite app_nil_r. apply NoDup_app. split_and!; [apply Hone| |apply Hone].
      intros e He Hin. pose proof (Hsame _ _ _ He Hin) as Heq. injection Heq; intros; lia.
  - unfold index_of, index_items. apply NoDup_alt. intros a b [rc k] Ha Hb.
    rewrite list_lookup_imap in Ha, Hb.
    destruct (coords !! a); [|done]. destruct (coords !! b); [|done].
    simpl in *. congruence.
Qed.
End lattice.

(** [grid_graph] on a positive count, with the shape of its lattice. *)
Lemma grid_dims (n : Z) :
  1 ≤ n → 1 ≤ Z.sqrt_up n ∧ n ≤ - (- n / Z.sqrt_up n) * Z.sqrt_up n.
Proof.
  intros Hn. destruct (ceil_sqrt_pos n Hn) as (cols & Hcols & Hc1).
  destruct (ceil_div_covers n cols Hc1) as (rows & Hrows & Hcov).
  unfold ceil_sqrt in Hcols. rewrite bool_decide_eq_false_2 in Hcols by lia.
  unfold ceil_div in Hrows. rewrite bool_decide_eq_false_2 in Hrows by lia.
  injection Hcols as <-. injection Hrows as <-. done.
Qed.

Lemma cell_edges_diagonals index_of item e :
  e ∈ cell_edges index_of false item → e ∈ cell_edges index_of true item.
Proof.
  destruct item as [[r c] i]. unfold cell_edges. rewrite app_nil_r, !elem_of_app.
  intros [?|?]; [by left|right; by left].
Qed.

(** X10: on a positive count [grid_graph] returns the labels [1..n] laid
    row by row on [ceil(sqrt(n))] columns, and lists once each the edges
    from a label to the label on its right and to the label below it,
    and when diagonals are asked for to the two labels diagonally below
    it, in so far as those labels exist. *)
Theorem grid_graph_lattice (R : RandomCore) (os_entropy : Z) (n : Z) (seed : option Z)
    (connect_diagonals : bool) :
  1 ≤ n →
  ∃ edges,
    grid_graph R os_entropy n seed connect_diagonals = Ok (labels (Z.to_nat n), edges) ∧
    NoDup edges ∧
    ∀ u v, (u, v) ∈ edges ↔ 1 ≤ u ∧ v ≤ n ∧ adjacent connect_diagonals (Z.sqrt_up n) u v.
Proof.
  intros Hn. destruct (grid_dims n Hn) as [Hc1 Hcov].
  rewrite grid_graph_Ok by done. eexists. split; [done|]. unfold grid_index. split.
  - apply (lattice_NoDup _ _ n Hc1 ltac:(lia) Hcov).
  - intros u v. apply (lattice_edges _ _ n Hc1 ltac:(lia) Hcov).
Qed.

Lemma grid_graph_lattice_witness :
  ∃ edges,
    grid_graph MersenneTwister 0 9 (Some 1) true = Ok (labels (Z.to_nat 9), edges) ∧
    NoDup edges ∧
    ∀ u v, (u, v) ∈ edges ↔ 1 ≤ u ∧ v ≤ 9 ∧ adjacent true (Z.sqrt_up 9) u v.
Proof. apply (grid_graph_lattice MersenneTwister 0 9 (Some 1) true). lia. Defined.

(** X11: on a positive count the graph [grid_graph] returns is connected:
    its edges link every two of its labels, with or without diagonals. *)
Theorem grid_graph_connected (R : RandomCore) (os_entropy : Z) (n : Z) (seed : option Z)
    (connect_diagonals : bool) :
  1 ≤ n →
  ∃ edges,
    grid_graph R os_entropy n seed connect_diagonals = Ok (labels (Z.to_nat n), edges) ∧
    ∀ u v, u ∈ labels (Z.to_nat n) → v ∈ labels (Z.to_nat n) → linked edges u v.
Proof.
  intros Hn. destruct (grid_dims n Hn) as [Hc1 Hcov].
  rewrite grid_graph_Ok by done. eexists. split; [done|].
  assert (∀ u, u ∈ labels (Z.to_nat n) →
            linked (grid_index n ≫= cell_edges (grid_index n) connect_diagonals) 1 u) as Hone.
  { intros u Hu%elem_of_labels.
    replace u with (label_of (Z.to_nat (u - 1))) by (unfold label_of; lia).
    eapply linked_mono;
      [|apply (possible_connected _ _ n Hc1 ltac:(lia) Hcov (Z.to_nat (u - 1))); lia].
    intros e He. destruct connect_diagonals; [|done].
    apply list_elem_of_bind in He as (item & He & Hitem). apply list_elem_of_bind.
    exists item. split; [|done]. by apply cell_edges_diagonals. }
  intros u v Hu Hv. transitivity 1; [symmetry|]; by apply Hone.
Qed.

Lemma grid_graph_connected_witness :
  ∃ edges,
    grid_graph MersenneTwister 0 10 (Some 1) false = Ok (labels (Z.to_nat 10), edges) ∧
    ∀ u v, u ∈ labels (Z.to_nat 10) → v ∈ labels (Z.to_nat 10) → linked edges u v.
Proof. apply (grid_graph_connected MersenneTwister 0 10 (Some 1) false). lia. Defined.

(** X12: a count that is not positive is caught by no check.  On [0]
    [grid_graph] and [grid_maze_like] divide by the zero columns they
    compute, and [random_geometric_graph] divides by zero in its default
    radius; on a negative count the first two fail in [math.sqrt] and
    [hypercube_graph] in [sample], each with [ValueError]; given a radius,
    [random_geometric_graph] returns the empty graph on either. *)
Theorem generators_on_nonpositive (R : PyRandom) (os_entropy : Z) (math_log : Z → float)
    (n : Z) (seed : option Z) (connect_diagonals : bool) (radius : float) :
  n ≤ 0 →
  grid_graph R os_entropy n seed connect_diagonals
  = Raise (if decide (n = 0) then ZeroDivisionError else ValueError) ∧
  grid_maze_like R os_entropy n seed
  = Raise (if decide (n = 0) then ZeroDivisionError else ValueError) ∧
  random_geometric_graph R os_entropy math_log n seed (Some radius) = Ok ([], []) ∧
  (n = 0 → random_geometric_graph R os_entropy math_log n seed None = Raise ZeroDivisionError) ∧
  (n < 0 → hypercube_graph R os_entropy n seed = Raise ValueError).
Proof. apply nonpositive_count. Qed.

Lemma generators_on_nonpositive_witness :
  grid_graph Twister 0 (-3) (Some 42) true = Raise ValueError ∧
  grid_maze_like Twister 0 (-3) (Some 42) = Raise ValueError ∧
  random_geometric_graph Twister 0 (λ _, 0%float) (-3) (Some 42) (Some 0.5%float) = Ok ([], []) ∧
  (-3 = 0 →
   random_geometric_graph Twister 0 (λ _, 0%float) (-3) (Some 42) None = Raise ZeroDivisionError) ∧
  (-3 < 0 → hypercube_graph Twister 0 (-3) (Some 42) = Raise ValueError).
Proof.
  apply (generators_on_nonpositive Twister 0 (λ _, 0%float) (-3) (Some 42) true 0.5%float). lia.
Defined.

(** * The spanning tree of [grid_maze_like] *)

(** [climb p a r k]: [k] parent links lead from [a] to the root [r]. *)
Inductive climb (p : list nat) : nat → nat → nat → Prop :=
  | climb_root a : p !! a = Some a → climb p a a 0
  | climb_up a b r k : p !! a = Some b → b ≠ a → climb p b r k → climb p a r (S k).

Lemma climb_fun p a r1 k1 r2 k2 : climb p a r1 k1 → climb p a r2 k2 → r1 = r2 ∧ k1 = k2.
Proof.
  intros H. revert r2 k2. induction H as [a Ha|a b r k Ha Hb _ IH]; intros r2 k2 H2.
  - inversion H2; subst; [done|congruence].
  - inversion H2 as [|? b' ? k' Ha' Hb' Hc']; subst; [congruence|].
    assert (b' = b) as -> by congruence. destruct (IH _ _ Hc') as [-> ->]. done.
Qed.

Lemma climb_is_root p a r k : climb p a r k → p !! r = Some r.
Proof. induction 1; done. Qed.

Lemma climb_lt p a r k : climb p a r k → (a < length p)%nat.
Proof. destruct 1; by eapply lookup_lt_Some. Qed.

Lemma climb_self p a k : climb p a a k → p !! a = Some a.
Proof. apply climb_is_root. Qed.

(** Path halving moves no index to another root. *)
Lemma halve_climb p a pa gp :
  p !! a = Some pa → pa ≠ a → p !! pa = Some gp →
  ∀ k x r, climb p x r k → ∃ k', (k' ≤ k)%nat ∧ climb (<[a := gp]> p) x r k'.
Proof.
  intros Ha Hpa Hgp k.
  induction (lt_wf k) as [k _ IH]. intros x r Hx.
  pose proof (lookup_lt_Some _ _ _ Ha) as Hlt.
  inversion Hx as [? Hroot|? b ? k0 Hxb Hb Hc]; subst.
  - exists 0%nat. split; [done|]. constructor.
    rewrite list_lookup_insert_ne; [done|]. intros ->. congruence.
  - destruct (decide (x = a)) as [->|Hxa].
    + assert (b = pa) as -> by congruence.
      inversion Hc as [? Hroot|? gp' ? k1 Hpb Hg Hc1]; subst.
      * assert (gp = r) as -> by congruence.
        destruct (IH 0%nat ltac:(lia) r r Hc) as (k' & Hk' & Hc').
        exists (S k'). split; [lia|]. econstructor; [|done|done].
        by rewrite list_lookup_insert_eq.
      * assert (gp' = gp) as -> by congruence.
        assert (gp ≠ a) as Hgpa.
        { intros ->. destruct (climb_fun _ _ _ _ _ _ Hx Hc1) as [_ ?]. lia. }
        destruct (IH k1 ltac:(lia) gp r Hc1) as (k' & Hk' & Hc').
        exists (S k'). split; [lia|]. econstructor; [|done|done].
        by rewrite list_lookup_insert_eq.
    + destruct (IH k0 ltac:(lia) b r Hc) as (k' & Hk' & Hc').
      exists (S k'). split; [lia|]. econstructor; [|done|done].
      by rewrite list_lookup_insert_ne.
Qed.

(** [parent[ra] = rb] on two roots sends the indices under [ra] to [rb]
    and leaves the others where they were. *)
Lemma link_climb p ra rb :
  p !! ra = Some ra → p !! rb = Some rb → ra ≠ rb →
  ∀ x r k, climb p x r k →
    ∃ k', climb (<[ra := rb]> p) x (if decide (r = ra) then rb else r) k'.
Proof.
  intros Hra Hrb Hne. pose proof (lookup_lt_Some _ _ _ Hra) as Hlt.
  induction 1 as [x Hx|x b r k Hx Hb Hc [k' IH]].
  - destruct (decide (x = ra)) as [->|Hxa].
    + exists 1%nat. econstructor; [by rewrite list_lookup_insert_eq|done|].
      constructor. by rewrite list_lookup_insert_ne.
    + exists 0%nat. constructor. by rewrite list_lookup_insert_ne.
  - exists (S k'). econstructor; [|done|done].
    rewrite list_lookup_insert_ne; [done|]. intros ->. congruence.
Qed.

(** Every index of the forest has a root. *)
Definition rooted (p : list nat) : Prop :=
  ∀ x, (x < length p)%nat → ∃ r k, climb p x r k.

Lemma rooted_range n : rooted (range n).
Proof.
  intros x Hx. unfold range in *. rewrite length_seq in Hx.
  exists x, 0%nat. constructor. by rewrite lookup_seq_lt.
Qed.

(** What a call of [find] that returns has done. *)
Lemma find_climb fuel : ∀ p a r p',
  rooted p → (a < length p)%nat → find fuel p a = Ok (r, p') →
  (∃ k, climb p a r k) ∧ length p' = length p ∧
  (∀ x r' k, climb p x r' k → ∃ k', climb p' x r' k').
Proof.
  induction fuel as [|fuel IH]; intros p a r p' Hrooted Ha; [done|].
  cbn [find]. destruct (lookup_lt_is_Some_2 p a Ha) as [pa Hpa].
  rewrite (lget_Some _ _ _ Hpa). obind.
  destruct (decide (pa ≠ a)) as [Hne|Heq].
  - destruct (Hrooted a Ha) as (ra & ka & Hca).
    inversion Hca as [? Hroot|? b ? k0 Hab Hb Hcb]; subst; [congruence|].
    assert (b = pa) as -> by congruence.
    pose proof (climb_lt _ _ _ _ Hcb) as Hpalt.
    destruct (lookup_lt_is_Some_2 p pa Hpalt) as [gp Hgp].
    rewrite (lget_Some _ _ _ Hgp). obind. rewrite lset_lt by done. obind.
    rewrite (lget_Some (<[a := gp]> p) a gp) by (by rewrite list_lookup_insert_eq). obind.
    intros Hfind.
    assert (rooted (<[a := gp]> p)) as Hrooted'.
    { intros x Hx. rewrite length_insert in Hx.
      destruct (Hrooted x Hx) as (rx & kx & Hcx).
      destruct (halve_climb p a pa gp Hpa Hne Hgp kx x rx Hcx) as (k' & _ & ?). eauto. }
    assert (gp < length p)%nat as Hgplt.
    { inversion Hcb; subst; [congruence|].
      assert (b = gp) as -> by congruence. by eapply climb_lt. }
    destruct (IH (<[a := gp]> p) gp r p' Hrooted' ltac:(by rewrite length_insert) Hfind)
      as ((k & Hk) & Hlen & Hkeep).
    rewrite length_insert in Hlen. split_and!; [|done|].
    + destruct (halve_climb p a pa gp Hpa Hne Hgp _ a ra Hca) as (k' & _ & Hca').
      inversion Hca' as [? Hroot|? b ? k1 Hab' Hb' Hcb']; subst.
      { rewrite list_lookup_insert_eq in Hroot by done. injection Hroot as ->.
        destruct (climb_fun _ _ _ _ _ _ Hk Hca') as [-> _]. eauto. }
      rewrite list_lookup_insert_eq in Hab' by done. injection Hab' as <-.
      destruct (climb_fun _ _ _ _ _ _ Hk Hcb') as [-> _]. eauto.
    + intros x r' k1 Hcx.
      destruct (halve_climb p a pa gp Hpa Hne Hgp k1 x r' Hcx) as (k' & _ & Hcx').
      by eapply Hkeep.
  - assert (pa = a) as -> by (destruct (decide (pa = a)); [done|contradiction]).
    intros [= <- <-]. split_and!; [|done|eauto].
    exists 0%nat. by constructor.
Qed.

(** The roots of the forest. *)
Definition roots (p : list nat) : list nat :=
  filter (λ a, p !! a = Some a) (seq 0 (length p)).

Lemma elem_of_roots p a : a ∈ roots p ↔ p !! a = Some a.
Proof.
  unfold roots. rewrite list_elem_of_filter, elem_of_seq. split; [by intros [? _]|].
  intros H. split; [done|]. apply lookup_lt_Some in H. lia.
Qed.

Lemma NoDup_roots p : NoDup (roots p).
Proof. apply NoDup_filter, NoDup_seq. Qed.

(** Forests with the same roots have as many. *)
Lemma roots_same p p' :
  (∀ a, p' !! a = Some a ↔ p !! a = Some a) → length (roots p') = length (roots p).
Proof.
  intros H. apply Permutation_length. apply NoDup_Permutation; [apply NoDup_roots..|].
  intros a. by rewrite !elem_of_roots.
Qed.

(** Linking a root under another takes one root away. *)
Lemma roots_link p ra rb :
  p !! ra = Some ra → p !! rb = Some rb → ra ≠ rb →
  S (length (roots (<[ra := rb]> p))) = length (roots p).
Proof.
  intros Hra Hrb Hne. pose proof (lookup_lt_Some _ _ _ Hra) as Hlt.
  assert (roots p ≡ₚ ra :: roots (<[ra := rb]> p)) as ->; [|done].
  apply NoDup_Permutation.
  - apply NoDup_roots.
  - apply NoDup_cons. split; [|apply NoDup_roots].
    rewrite elem_of_roots, list_lookup_insert_eq by done. congruence.
  - intros a. rewrite elem_of_cons, !elem_of_roots.
    destruct (decide (a = ra)) as [->|Hna].
    + split; [by left|done].
    + rewrite list_lookup_insert_ne by done. split; [by right|]. by intros [?|?].
Qed.

(** The forest against the edges kept: the ends of an edge kept are under
    one root, and each edge kept has taken one root away. *)
Record tree_inv (n : nat) (p : list nat) (E : list (Z * Z)) : Prop := {
  ti_length : length p = n;
  ti_rooted : rooted p;
  ti_edges : ∀ u v, (u, v) ∈ E →
    ∃ r k1 k2, climb p (Z.to_nat (u - 1)) r k1 ∧ climb p (Z.to_nat (v - 1)) r k2;
  ti_count : (length (roots p) + length E = n)%nat
}.

Lemma tree_inv_init n : tree_inv n (range n) [].
Proof.
  split.
  - unfold range. apply length_seq.
  - apply rooted_range.
  - intros u v H. by apply elem_of_nil in H.
  - simpl. rewrite Nat.add_0_r.
    assert (roots (range n) ≡ₚ seq 0 n) as ->; [|apply length_seq].
    apply NoDup_Permutation; [apply NoDup_roots|apply NoDup_seq|].
    intros a. rewrite elem_of_roots, elem_of_seq. unfold range. split.
    + intros Ha%lookup_lt_Some. rewrite length_seq in Ha. lia.
    + intros Ha. by rewrite lookup_seq_lt by lia.
Qed.

Lemma tree_inv_same n p p' E :
  length p' = length p →
  (∀ x r k, climb p x r k → ∃ k', climb p' x r k') →
  tree_inv n p E → tree_inv n p' E.
Proof.
  intros Hlen Hkeep [Hn Hrooted Hedges Hcount]. split.
  - lia.
  - intros x Hx. rewrite Hlen in Hx. destruct (Hrooted x Hx) as (r & k & Hc).
    destruct (Hkeep x r k Hc) as [k' ?]. eauto.
  - intros u v Huv. destruct (Hedges u v Huv) as (r & k1 & k2 & H1 & H2).
    destruct (Hkeep _ _ _ H1) as [k1' ?]. destruct (Hkeep _ _ _ H2) as [k2' ?]. eauto 6.
  - rewrite (roots_same p p'); [done|]. intros a. split.
    + intros Ha. assert (a < length p)%nat as Halt.
      { rewrite <-Hlen. by eapply lookup_lt_Some. }
      destruct (Hrooted a Halt) as (r & k & Hc). destruct (Hkeep a r k Hc) as [k' Hc'].
      assert (climb p' a a 0) as H0 by (by constructor).
      destruct (climb_fun _ _ _ _ _ _ Hc' H0) as [-> _]. by eapply climb_self.
    + intros Ha. assert (climb p a a 0) as H0 by (by constructor).
      destruct (Hkeep a a 0%nat H0) as [k' Hc']. by eapply climb_self.
Qed.

(** One pass of the loop keeps the invariant. *)
Lemma kruskal_step_tree n p E u v p' E' :
  1 ≤ u ≤ Z.of_nat n → 1 ≤ v ≤ Z.of_nat n →
  tree_inv n p E → kruskal_step (p, E) (u, v) = Ok (p', E') → tree_inv n p' E'.
Proof.
  intros Hu Hv Hinv. unfold kruskal_step.
  set (ui := Z.to_nat (u - 1)). set (vi := Z.to_nat (v - 1)).
  pose proof (ti_length _ _ _ Hinv) as Hlen.
  intros ([ru p1] & Hf1 & H)%bind_Ok_inv.
  destruct (find_climb _ p ui ru p1 (ti_rooted _ _ _ Hinv) ltac:(lia) Hf1)
    as ([ku Hcu] & Hlen1 & Hkeep1).
  pose proof (tree_inv_same n p p1 E Hlen1 Hkeep1 Hinv) as Hinv1.
  apply bind_Ok_inv in H as ([rv p2] & Hf2 & H).
  destruct (find_climb _ p1 vi rv p2 (ti_rooted _ _ _ Hinv1) ltac:(lia) Hf2)
    as ([kv Hcv] & Hlen2 & Hkeep2).
  pose proof (tree_inv_same n p1 p2 E Hlen2 Hkeep2 Hinv1) as Hinv2.
  destruct (decide (ru ≠ rv)) as [Hne|Heq]; [|by injection H as <- <-].
  apply bind_Ok_inv in H as (p5 & Hunion & H). injection H as <- <-.
  unfold union in Hunion.
  apply bind_Ok_inv in Hunion as ([ra p3] & Hf3 & Hunion).
  destruct (find_climb _ p2 ui ra p3 (ti_rooted _ _ _ Hinv2) ltac:(lia) Hf3)
    as ([ka Hca] & Hlen3 & Hkeep3).
  pose proof (tree_inv_same n p2 p3 E Hlen3 Hkeep3 Hinv2) as Hinv3.
  apply bind_Ok_inv in Hunion as ([rb p4] & Hf4 & Hunion).
  destruct (find_climb _ p3 vi rb p4 (ti_rooted _ _ _ Hinv3) ltac:(lia) Hf4)
    as ([kb Hcb] & Hlen4 & Hkeep4).
  pose proof (tree_inv_same n p3 p4 E Hlen4 Hkeep4 Hinv3) as Hinv4.
  (* the roots found for the union are those found for the test *)
  destruct (Hkeep1 _ _ _ Hcu) as [ku1 Hcu1]. destruct (Hkeep2 _ _ _ Hcu1) as [ku2 Hcu2].
  destruct (climb_fun _ _ _ _ _ _ Hca Hcu2) as [-> _].
  destruct (Hkeep3 _ _ _ Hcu2) as [ku3 Hcu3]. destruct (Hkeep4 _ _ _ Hcu3) as [ku4 Hcu4].
  destruct (Hkeep2 _ _ _ Hcv) as [kv2 Hcv2]. destruct (Hkeep3 _ _ _ Hcv2) as [kv3 Hcv3].
  destruct (climb_fun _ _ _ _ _ _ Hcb Hcv3) as [-> _].
  destruct (Hkeep4 _ _ _ Hcv3) as [kv4 Hcv4].
  pose proof (climb_is_root _ _ _ _ Hcu4) as Hru. pose proof (climb_is_root _ _ _ _ Hcv4) as Hrv.
  unfold lset in Hunion. destruct (decide (ru < length p4)%nat) as [Hlt|]; [|done].
  injection Hunion as <-.
  destruct Hinv4 as [Hn4 Hrooted4 Hedges4 Hcount4]. split.
  - by rewrite length_insert.
  - intros x Hx. rewrite length_insert in Hx. destruct (Hrooted4 x Hx) as (r & k & Hc).
    destruct (link_climb p4 ru rv Hru Hrv Hne x r k Hc) as [k' ?]. eauto.
  - intros a b [Hab|Hab%list_elem_of_singleton]%elem_of_app.
    + destruct (Hedges4 a b Hab) as (r & k1 & k2 & H1 & H2).
      destruct (link_climb p4 ru rv Hru Hrv Hne _ r k1 H1) as [k1' ?].
      destruct (link_climb p4 ru rv Hru Hrv Hne _ r k2 H2) as [k2' ?]. eauto 6.
    + injection Hab as -> ->. fold ui vi.
      destruct (link_climb p4 ru rv Hru Hrv Hne _ ru ku4 Hcu4) as [k1' H1].
      destruct (link_climb p4 ru rv Hru Hrv Hne _ rv kv4 Hcv4) as [k2' H2].
      rewrite decide_True in H1 by done. rewrite decide_False in H2 by done. eauto 6.
  - rewrite length_app. simpl.
    pose proof (roots_link p4 ru rv Hru Hrv Hne). lia.
Qed.

Lemma for_each_partial_in {A S} (P : S → Prop) (xs : list A) (body : S → A → outcome S)
    (s s' : S) :
  P s → (∀ s x s1, x ∈ xs → P s → body s x = Ok s1 → P s1) →
  for_each xs body s = Ok s' → P s'.
Proof.
  intros H0 Hstep. revert s H0. induction xs as [|x xs IH]; intros s H0; simpl.
  - by intros [= <-].
  - intros (s1 & H1 & Hrest)%bind_Ok_inv. eapply IH; [| |done].
    + intros s2 y s3 Hy. apply Hstep. by right.
    + eapply Hstep; [by left|done|done].
Qed.

(** The edges the loop keeps, when they link all the labels, are one
    fewer than the labels. *)
Lemma kruskal_tree_size n (es : list (Z * Z)) p E :
  (1 ≤ n)%nat →
  (∀ u v, (u, v) ∈ es → 1 ≤ u ≤ Z.of_nat n ∧ 1 ≤ v ≤ Z.of_nat n) →
  for_each es kruskal_step (range n, []) = Ok (p, E) →
  (∀ e, e ∈ E → e ∈ es) →
  (∀ k : nat, (k < n)%nat → linked E 1 (label_of k)) →
  S (length E) = n.
Proof.
  intros Hn Hes Hloop Hsub Hlinked.
  assert (tree_inv n p E) as [Hlen Hrooted Hedges Hcount].
  { apply (for_each_partial_in (λ s, tree_inv n s.1 s.2) es kruskal_step (range n, []) (p, E));
      [apply tree_inv_init| |done].
    intros [p0 E0] [u v] [p1 E1] Hin Hinv Hstep. cbn [fst snd] in *.
    destruct (Hes u v Hin). by apply (kruskal_step_tree n p0 E0 u v p1 E1). }
  destruct (Hrooted 0%nat ltac:(lia)) as (r0 & k0 & Hc0).
  assert (∀ u v, linked E u v → 1 ≤ u ≤ Z.of_nat n →
            ∀ r k, climb p (Z.to_nat (u - 1)) r k →
              1 ≤ v ≤ Z.of_nat n ∧ ∃ k', climb p (Z.to_nat (v - 1)) r k') as Hclass.
  { intros u v H. induction H as [u|u w v Huw _ IH]; intros Hu r k Hc; [eauto|].
    assert (1 ≤ w ≤ Z.of_nat n ∧ ∃ k', climb p (Z.to_nat (w - 1)) r k') as [Hw [k' Hcw]].
    { destruct Huw as [Huw|Hwu].
      - destruct (Hes u w (Hsub _ Huw)) as [_ Hw]. split; [done|].
        destruct (Hedges u w Huw) as (r' & k1 & k2 & H1 & H2).
        destruct (climb_fun _ _ _ _ _ _ Hc H1) as [-> _]. eauto.
      - destruct (Hes w u (Hsub _ Hwu)) as [Hw _]. split; [done|].
        destruct (Hedges w u Hwu) as (r' & k1 & k2 & H1 & H2).
        destruct (climb_fun _ _ _ _ _ _ Hc H2) as [-> _]. eauto. }
    by apply (IH Hw r k'). }
  assert (roots p ≡ₚ [r0]) as Hroots.
  { apply NoDup_Permutation; [apply NoDup_roots|apply NoDup_singleton|].
    intros a. rewrite elem_of_roots, list_elem_of_singleton. split.
    - intros Ha.
      assert (a < n)%nat as Halt by (rewrite <-Hlen; by eapply lookup_lt_Some).
      destruct (Hclass 1 (label_of a) (Hlinked a Halt) ltac:(lia) r0 k0 Hc0) as [_ [k' Hc]].
      replace (Z.to_nat (label_of a - 1)) with a in Hc by (unfold label_of; lia).
      assert (climb p a a 0) as H0 by (by constructor).
      by destruct (climb_fun _ _ _ _ _ _ H0 Hc) as [-> _].
    - intros ->. by eapply climb_is_root. }
  rewrite Hroots in Hcount. simpl in Hcount. lia.
Qed.

(** The candidates left: those of the grid, less the edges of the tree. *)
Lemma candidates_length (possible tree : list (Z * Z)) :
  NoDup possible → NoDup tree → (∀ e, e ∈ tree → e ∈ possible) →
  (∀ e, e ∈ possible → (e.2, e.1) ∉ possible) →
  (length (filter (λ e : Z * Z, (e ∉ tree) ∧ ((e.2, e.1) ∉ tree)) possible) + length tree
   = length possible)%nat.
Proof.
  intros Hnd Hndt Hsub Hrev.
  pose proof (filter_app_complement (λ e : Z * Z, (e ∉ tree) ∧ ((e.2, e.1) ∉ tree)) possible)
    as Hsplit.
  apply Permutation_length in Hsplit. rewrite length_app in Hsplit.
  assert (filter (λ e : Z * Z, ¬ ((e ∉ tree) ∧ ((e.2, e.1) ∉ tree))) possible ≡ₚ tree) as Htree.
  { apply NoDup_Permutation; [by apply NoDup_filter|done|].
    intros e. rewrite list_elem_of_filter. split.
    - intros [Hnot He]. destruct (decide (e ∈ tree)) as [|Hnin]; [done|]. exfalso.
      apply Hnot. split; [done|]. intros Hin. by apply (Hrev e He), Hsub.
    - intros He. split; [by intros [? _]|by apply Hsub]. }
  rewrite Htree in Hsplit. done.
Qed.

Section maze_tree.
Context (R : PyRandom) (os_entropy : Z).

(** A run of [grid_maze_like] on a positive count, with its tree. *)
Lemma maze_trace_tree (n : Z) (seed : option Z) :
  1 ≤ n →
  ∃ t, maze_trace R os_entropy n seed = Ok t ∧
       mz_vertices t = labels (Z.to_nat n) ∧
       mz_possible t = grid_possible n ∧
       NoDup (mz_possible t) ∧
       (∀ u v, (u, v) ∈ mz_possible t ↔ 1 ≤ u ∧ v ≤ n ∧ adjacent false (Z.sqrt_up n) u v) ∧
       NoDup (mz_tree t) ∧ (∀ e, e ∈ mz_tree t → e ∈ mz_possible t) ∧
       S (length (mz_tree t)) = Z.to_nat n ∧
       (∀ u v, u ∈ labels (Z.to_nat n) → v ∈ labels (Z.to_nat n) → linked (mz_tree t) u v) ∧
       mz_extras t = int_15_percent (length (mz_possible t)) ∧
       mz_candidates t ≡ₚ
         filter (λ e : Z * Z, (e ∉ mz_tree t) ∧ ((e.2, e.1) ∉ mz_tree t)) (mz_possible t).
Proof.
  intros Hn. rewrite maze_trace_unfold by done. cbn zeta.
  destruct (grid_dims n Hn) as [Hc1 Hcov].
  set (possible := grid_possible n).
  assert (NoDup possible) as Hnd.
  { apply (lattice_NoDup _ _ n Hc1 ltac:(lia) Hcov). }
  assert (∀ u v, (u, v) ∈ possible ↔ 1 ≤ u ∧ v ≤ n ∧ adjacent false (Z.sqrt_up n) u v)
    as Hposs.
  { intros u v. apply (lattice_edges _ _ n Hc1 ltac:(lia) Hcov). }
  assert (∀ u v, (u, v) ∈ possible → 1 ≤ u ≤ n ∧ 1 ≤ v ≤ n ∧ u < v) as Hlab.
  { intros u v. apply (possible_labels _ _ n Hc1 ltac:(lia) Hcov). }
  pose proof (rng_shuffle_perm R _ possible (Random R os_entropy seed)) as Hperm.
  destruct (rng_shuffle R possible (Random R os_entropy seed)) as [shuffled rnd1].
  simpl in Hperm.
  destruct (kruskal_loop (Z.to_nat n) shuffled) as (p & E & Hloop & Hlinked & Hsub).
  { intros u v Huv. rewrite Hperm in Huv. apply Hlab in Huv. lia. }
  rewrite Hloop. obind.
  pose proof (rng_shuffle_perm R _
    (filter (λ e : Z * Z, (e ∉ E) ∧ ((e.2, e.1) ∉ E)) possible) rnd1) as Hperm2.
  destruct (rng_shuffle R (filter _ possible) rnd1) as [candidates rnd2].
  simpl in Hperm2.
  assert (∀ e, e ∈ E → e ∈ possible) as HsubE.
  { intros e He. rewrite <-Hperm. by eapply elem_of_sublist. }
  assert (∀ k : nat, (k < Z.to_nat n)%nat → linked E 1 (label_of k)) as Hone.
  { intros k Hk. eapply linked_within;
      [|apply (possible_connected _ _ n Hc1 ltac:(lia) Hcov k Hk)].
    intros a b Hab. apply Hlinked. rewrite Hperm. exact Hab. }
  eexists. split; [done|]. cbn [mz_vertices mz_possible mz_tree mz_extras mz_candidates].
  split_and!; [done|done|done|done| |done| | |done|done].
  - eapply sublist_NoDup; [|exact Hsub]. by rewrite Hperm.
  - apply (kruskal_tree_size (Z.to_nat n) shuffled p E); [lia| |done| |done].
    + intros u v Huv. rewrite Hperm in Huv. apply Hlab in Huv. lia.
    + intros e He. by eapply elem_of_sublist.
  - intros u v Hu%elem_of_labels Hv%elem_of_labels.
    transitivity 1; [symmetry|].
    + replace u with (label_of (Z.to_nat (u - 1))) by (unfold label_of; lia).
      apply Hone. lia.
    + replace v with (label_of (Z.to_nat (v - 1))) by (unfold label_of; lia).
      apply Hone. lia.
Qed.
End maze_tree.

(** X13: on a positive count the union-find loop of [grid_maze_like]
    keeps a spanning tree of the grid: exactly [n - 1] of its edges, none
    twice, that link every two labels.  The maze returned adds to the
    tree the first [int(0.15 * len(possible))] of the shuffled candidates
    left, or all of them when they are fewer. *)
Theorem grid_maze_like_spanning_tree (R : PyRandom) (os_entropy : Z) (n : Z)
    (seed : option Z) :
  1 ≤ n →
  ∃ t edges,
    maze_trace R os_entropy n seed = Ok t ∧
    grid_maze_like R os_entropy n seed = Ok (labels (Z.to_nat n), edges) ∧
    S (length (mz_tree t)) = Z.to_nat n ∧ NoDup (mz_tree t) ∧
    (∀ u v, u ∈ labels (Z.to_nat n) → v ∈ labels (Z.to_nat n) → linked (mz_tree t) u v) ∧
    edges = mz_tree t ++ take (mz_extras t) (mz_candidates t) ∧
    length edges
    = (Z.to_nat n - 1 +
       (int_15_percent (length (mz_possible t))
        `min` (length (mz_possible t) - (Z.to_nat n - 1))))%nat.
Proof.
  intros Hn.
  destruct (maze_trace_tree R os_entropy n seed Hn)
    as (t & Ht & Hv & Hp & Hnd & Hposs & Hndt & Hsub & Hsize & Hlinked & Hextras & Hcand).
  exists t, (mz_tree t ++ take (mz_extras t) (mz_candidates t)).
  unfold grid_maze_like. rewrite Ht. obind. rewrite Hv.
  split_and!; [done|done|done|done|done|done|].
  rewrite length_app, length_take, Hextras.
  pose proof (candidates_length (mz_possible t) (mz_tree t) Hnd Hndt Hsub) as Hlen.
  rewrite <-Hcand in Hlen. rewrite <-Hlen; [lia|].
  intros [u v] He Hrev. simpl in Hrev.
  apply Hposs in He as (? & ? & Hadj). apply Hposs in Hrev as (? & ? & Hadj').
  pose proof (Z.sqrt_up_pos n).
  unfold adjacent in Hadj, Hadj'.
  destruct Hadj as [[-> _]|[->|[? _]]]; [| |done];
    destruct Hadj' as [[? _]|[?|[? _]]]; (done || lia).
Qed.

Lemma grid_maze_like_spanning_tree_witness :
  ∃ t edges,
    maze_trace Twister 0 16 (Some 42) = Ok t ∧
    grid_maze_like Twister 0 16 (Some 42) = Ok (labels (Z.to_nat 16), edges) ∧
    S (length (mz_tree t)) = Z.to_nat 16 ∧ NoDup (mz_tree t) ∧
    (∀ u v, u ∈ labels (Z.to_nat 16) → v ∈ labels (Z.to_nat 16) → linked (mz_tree t) u v) ∧
    edges = mz_tree t ++ take (mz_extras t) (mz_candidates t) ∧
    length edges
    = (Z.to_nat 16 - 1 +
       (int_15_percent (length (mz_possible t))
        `min` (length (mz_possible t) - (Z.to_nat 16 - 1))))%nat.
Proof. apply (grid_maze_like_spanning_tree Twister 0 16 (Some 42)). lia. Defined.

(** X14: the maze is a part of the grid: on a positive count every edge
    [grid_maze_like] returns is an edge [grid_graph] returns without
    diagonals, joining a label to the one on its right or below it, and
    no edge is returned twice. *)
Theorem grid_maze_like_within_grid (R : PyRandom) (os_entropy : Z) (n : Z)
    (seed : option Z) :
  1 ≤ n →
  ∃ edges grid_edges,
    grid_maze_like R os_entropy n seed = Ok (labels (Z.to_nat n), edges) ∧
    grid_graph R os_entropy n seed false = Ok (labels (Z.to_nat n), grid_edges) ∧
    NoDup edges ∧
    (∀ e, e ∈ edges → e ∈ grid_edges) ∧
    (∀ u v, (u, v) ∈ edges → 1 ≤ u ∧ v ≤ n ∧ adjacent false (Z.sqrt_up n) u v).
Proof.
  intros Hn.
  destruct (maze_trace_tree R os_entropy n seed Hn)
    as (t & Ht & Hv & Hp & Hnd & Hposs & Hndt & Hsub & Hsize & Hlinked & Hextras & Hcand).
  exists (mz_tree t ++ take (mz_extras t) (mz_candidates t)), (grid_possible n).
  unfold grid_maze_like. rewrite Ht. obind. rewrite Hv.
  assert (∀ e, e ∈ take (mz_extras t) (mz_candidates t) →
            e ∈ mz_possible t ∧ e ∉ mz_tree t) as Hextra.
  { intros e He. eapply elem_of_sublist in He; [|apply sublist_take]. rewrite Hcand in He.
    apply list_elem_of_filter in He as [[? _] ?]. done. }
  assert (∀ e, e ∈ mz_tree t ++ take (mz_extras t) (mz_candidates t) → e ∈ mz_possible t)
    as Hin.
  { intros e [?|He]%elem_of_app; [by apply Hsub|by apply Hextra]. }
  split_and!; [done|by rewrite grid_graph_Ok| | |].
  - apply NoDup_app. split_and!; [done| |].
    + intros e He He'. by destruct (Hextra e He').
    + eapply sublist_NoDup; [|apply sublist_take]. rewrite Hcand. by apply NoDup_filter.
  - intros e He. rewrite <-Hp. by apply Hin.
  - intros u v Huv. by apply Hposs, Hin.
Qed.

Lemma grid_maze_like_within_grid_witness :
  ∃ edges grid_edges,
    grid_maze_like Twister 0 16 (Some 42) = Ok (labels (Z.to_nat 16), edges) ∧
    grid_graph Twister 0 16 (Some 42) false = Ok (labels (Z.to_nat 16), grid_edges) ∧
    NoDup edges ∧
    (∀ e, e ∈ edges → e ∈ grid_edges) ∧
    (∀ u v, (u, v) ∈ edges → 1 ≤ u ∧ v ≤ 16 ∧ adjacent false (Z.sqrt_up 16) u v).
Proof. apply (grid_maze_like_within_grid Twister 0 16 (Some 42)). lia. Defined.

(** * The edges of the random geometric graph *)

(** The order of the pairs [(i, j)] in the double loop. *)
Definition pair_lt (e1 e2 : Z * Z) : Prop := e1.1 < e2.1 ∨ (e1.1 = e2.1 ∧ e1.2 < e2.2).

Lemma StronglySorted_bind_seq {A} (R : relation A) (f : nat → list A) (s n : nat) :
  (∀ i, StronglySorted R (f i)) →
  (∀ i j a b, (i < j)%nat → a ∈ f i → b ∈ f j → R a b) →
  StronglySorted R (seq s n ≫= f).
Proof.
  intros Hin Hcross. revert s. induction n as [|n IH]; intros s; [constructor|].
  simpl. apply StronglySorted_app_2; [|done|done].
  intros a b Ha (j & Hb & Hj%elem_of_seq)%list_elem_of_bind.
  apply (Hcross s j); [lia|done|done].
Qed.

Lemma pair_edge_elem points radius i j e :
  e ∈ pair_edge points radius i j → e = (Z.of_nat i + 1, Z.of_nat j + 1).
Proof.
  unfold pair_edge. destruct (points !! i); [|by intros ?%elem_of_nil].
  destruct (points !! j); [|by intros ?%elem_of_nil].
  destruct (within _ _ _); [|by intros ?%elem_of_nil].
  by intros ->%list_elem_of_singleton.
Qed.

Lemma pair_edge_sorted points radius i j : StronglySorted pair_lt (pair_edge points radius i j).
Proof.
  unfold pair_edge. destruct (points !! i); [|constructor].
  destruct (points !! j); [|constructor].
  destruct (within _ _ _); repeat constructor.
Qed.

Lemma pair_edge_length points radius i j : (length (pair_edge points radius i j) ≤ 1)%nat.
Proof.
  unfold pair_edge. destruct (points !! i); [|simpl; lia].
  destruct (points !! j); [|simpl; lia].
  destruct (within _ _ _); simpl; lia.
Qed.

Lemma pairs_sorted n points radius :
  StronglySorted pair_lt
    (range n ≫= λ i, seq (S i) (n - S i) ≫= pair_edge points radius i).
Proof.
  unfold range. apply StronglySorted_bind_seq.
  - intros i. apply StronglySorted_bind_seq; [intros; apply pair_edge_sorted|].
    intros j1 j2 a b Hj ->%pair_edge_elem ->%pair_edge_elem.
    unfold pair_lt. cbn [fst snd]. lia.
  - intros i1 i2 a b Hi (j1 & ->%pair_edge_elem & _)%list_elem_of_bind
           (j2 & ->%pair_edge_elem & _)%list_elem_of_bind.
    unfold pair_lt. cbn [fst snd]. lia.
Qed.

Lemma pairs_inner_length points radius i (s k : nat) :
  (length (seq s k ≫= pair_edge points radius i) ≤ k)%nat.
Proof.
  revert s. induction k as [|k IH]; intros s; [simpl; lia|].
  cbn [seq]. rewrite bind_cons, length_app. pose proof (pair_edge_length points radius i s).
  specialize (IH (S s)). lia.
Qed.

Lemma pairs_length n points radius :
  (2 * length (range n ≫= λ i, seq (S i) (n - S i) ≫= pair_edge points radius i)
   ≤ n * (n - 1))%nat.
Proof.
  assert (∀ m : nat, (m ≤ n)%nat →
            2 * Z.of_nat (length (seq 0 m ≫= λ i,
                                    seq (S i) (n - S i) ≫= pair_edge points radius i))
            ≤ Z.of_nat m * (2 * Z.of_nat n - Z.of_nat m - 1)) as Hgen.
  { induction m as [|m IH]; intros Hm; [simpl; lia|].
    rewrite seq_S, bind_app, length_app. simpl. rewrite app_nil_r.
    pose proof (pairs_inner_length points radius m (S m) (n - S m)).
    specialize (IH ltac:(lia)). nia. }
  specialize (Hgen n ltac:(lia)). unfold range. nia.
Qed.

Section geometric_edges.
Context (R : RandomCore) (os_entropy : Z) (math_log : Z → float).

(** Whatever radius it is given or computes, a return of
    [random_geometric_graph] is the labels and the pairs within it. *)
Lemma geometric_returns n seed radius vertices edges :
  random_geometric_graph R os_entropy math_log n seed radius = Ok (vertices, edges) →
  ∃ r, vertices = labels (Z.to_nat n) ∧
    edges = (range (Z.to_nat n) ≫= λ i,
               seq (S i) (Z.to_nat n - S i) ≫=
                 pair_edge (points_of R os_entropy n seed) r i).
Proof.
  destruct radius as [r|].
  - rewrite geometric_given_radius. intros [= <- <-]. by exists r.
  - unfold random_geometric_graph, points_of.
    pose proof (geometric_given_radius R os_entropy math_log n seed) as Hgiven.
    unfold random_geometric_graph, points_of in Hgiven.
    destruct (draw_points R (Z.to_nat n) (Random R os_entropy seed)) as [points g].
    destruct (default_radius math_log n) as [r| |]; [|done..].
    obind. intros H. specialize (Hgiven r). simpl in Hgiven. rewrite Hgiven in H.
    injection H as <- <-. by exists r.
Qed.
End geometric_edges.

(** X15: whenever [random_geometric_graph] returns, with the radius it is
    given or the one it computes, the vertices are the labels [1..n] and
    every edge goes from a smaller label to a greater one; the edges come
    in the order of the double loop, first by the smaller label and then
    by the greater, so none comes twice, and they are at most
    [n (n - 1) / 2]. *)
Theorem geometric_edges_ordered (R : RandomCore) (os_entropy : Z) (math_log : Z → float)
    (n : Z) (seed : option Z) (radius : option float) (vertices : list Z)
    (edges : list (Z * Z)) :
  random_geometric_graph R os_entropy math_log n seed radius = Ok (vertices, edges) →
  vertices = labels (Z.to_nat n) ∧
  (∀ u v, (u, v) ∈ edges → 1 ≤ u ∧ u < v ∧ v ≤ n) ∧
  StronglySorted pair_lt edges ∧ NoDup edges ∧
  (2 * length edges ≤ Z.to_nat n * (Z.to_nat n - 1))%nat.
Proof.
  intros (r & -> & ->)%geometric_returns. split_and!.
  - done.
  - intros u v (i & j & p & q & Hij & _ & _ & _ & -> & ->)%elem_of_pairs. lia.
  - apply pairs_sorted.
  - pose proof (pairs_sorted (Z.to_nat n) (points_of R os_entropy n seed) r) as Hs.
    induction Hs as [|e l Hs IH Hall]; constructor; [|done].
    intros Hin. pose proof (proj1 (Forall_forall _ _) Hall e Hin) as Hlt.
    unfold pair_lt in Hlt. lia.
  - apply pairs_length.
Qed.

Lemma geometric_edges_ordered_witness :
  [1; 2; 3] = labels (Z.to_nat 3) ∧
  (∀ u v, (u, v) ∈ [(1, 2)] → 1 ≤ u ∧ u < v ∧ v ≤ 3) ∧
  StronglySorted pair_lt [(1, 2)] ∧ NoDup [(1, 2)] ∧
  (2 * length [(1, 2)] ≤ Z.to_nat 3 * (Z.to_nat 3 - 1))%nat.
Proof.
  apply (geometric_edges_ordered MersenneTwister 0 (λ _, 1.0986122886681098%float) 3
           (Some 42) None).
  vm_compute. reflexivity.
Defined.

(** * The weights and the runner *)

(** The two endpoints of each weighted edge. *)
Definition endpoints (weighted : list (Z * Z * Z)) : list (Z * Z) :=
  (λ e, (e.1.1, e.1.2)) <$> weighted.

Section weights_facts.
Context (R : RandomCore) (os_entropy : Z).

Lemma weigh_loop w_min w_max controlled ltf (edges : list (Z * Z)) :
  ∀ rnd acc rnd' weighted,
    for_each edges (weigh R w_min w_max controlled ltf) (rnd, acc) = Ok (rnd', weighted) →
    endpoints weighted = endpoints acc ++ edges.
Proof.
  induction edges as [|[u v] edges IH]; intros rnd acc rnd' weighted; simpl.
  - intros [= <- <-]. by rewrite app_nil_r.
  - intros ([rnd1 acc1] & Hstep & Hrest)%bind_Ok_inv.
    apply IH in Hrest. rewrite Hrest. clear Hrest IH.
    unfold weigh in Hstep.
    apply bind_Ok_inv in Hstep as ([w rnd2] & _ & Hstep).
    apply bind_Ok_inv in Hstep as (k & _ & Hstep). injection Hstep as <- <-.
    unfold endpoints. rewrite fmap_app. simpl. by rewrite <-(assoc_L (++)).
Qed.

Lemma assign_weights_endpoints edges seed w_min w_max controlled ltf weighted :
  _assign_weights R os_entropy edges seed w_min w_max controlled ltf = Ok weighted →
  endpoints weighted = edges.
Proof.
  unfold _assign_weights. intros ([rnd' w] & Hloop & H)%bind_Ok_inv.
  injection H as <-. by apply weigh_loop in Hloop.
Qed.

Lemma build_weighted_graph_endpoints vertices edges seed w_min w_max controlled vs ws :
  build_weighted_graph R os_entropy vertices edges seed w_min w_max controlled = Ok (vs, ws) →
  vs = vertices ∧ endpoints ws = edges.
Proof.
  unfold build_weighted_graph. intros (w & Hw & H)%bind_Ok_inv. injection H as <- <-.
  split; [done|]. by eapply assign_weights_endpoints.
Qed.
End weights_facts.

(** X16: whenever [_assign_weights] returns, it has put a weight on every
    edge and changed nothing else: the weighted list has the endpoints of
    the edge list, in the same order. *)
Theorem assign_weights_keeps_edges (R : RandomCore) (os_entropy : Z) (edges : list (Z * Z))
    (seed : option Z) (w_min w_max : Z) (controlled : bool) (long_tail_frac : float)
    (weighted : list (Z * Z * Z)) :
  _assign_weights R os_entropy edges seed w_min w_max controlled long_tail_frac = Ok weighted →
  endpoints weighted = edges ∧ length weighted = length edges.
Proof.
  intros H%assign_weights_endpoints. split; [done|].
  rewrite <-H. unfold endpoints. by rewrite length_fmap.
Qed.

Lemma assign_weights_keeps_edges_witness :
  endpoints [(1, 2, 13); (2, 3, 1); (1, 3, 6)] = [(1, 2); (2, 3); (1, 3)] ∧
  length [(1, 2, 13); (2, 3, 1); (1, 3, 6)] = length [(1, 2); (2, 3); (1, 3)].
Proof.
  apply (assign_weights_keeps_edges MersenneTwister 0 [(1, 2); (2, 3); (1, 3)] (Some 42)
           1 20 false 0.05%float).
  vm_compute. reflexivity.
Defined.

(** Bounds beyond [2^53]: [uniform] subtracts the ints before it
    multiplies, and a bound too large for a float raises. *)
Example assign_weights_large_bounds :
  _assign_weights MersenneTwister 0 [(1, 2)] (Some 0) 1 (2 ^ 53 + 1) false 0.05%float
  = Ok [(1, 2, 7605875871743423)] ∧
  _assign_weights MersenneTwister 0 [(1, 2)] (Some 7) 1 (10 ^ 400) true 0.05%float
  = Raise OverflowError.
Proof. split; by vm_compute. Qed.

Lemma for_each_partial_done {A S} (P : list A → S → Prop) (xs : list A)
    (body : S → A → outcome S) (s s' : S) :
  P [] s →
  (∀ done x s s1, P done s → body s x = Ok s1 → P (done ++ [x]) s1) →
  for_each xs body s = Ok s' → P xs s'.
Proof.
  intros H0 Hstep.
  assert (∀ rest done s, P done s → for_each rest body s = Ok s' → P (done ++ rest) s')
    as Hgen.
  { induction rest as [|x rest IH]; intros done s0 HP; simpl.
    - intros [= <-]. by rewrite app_nil_r.
    - intros (s1 & H1 & Hrest)%bind_Ok_inv.
      replace (done ++ x :: rest) with ((done ++ [x]) ++ rest)
        by (by rewrite <-(assoc_L (++))).
      eapply IH; [|done]. by eapply Hstep. }
  apply (Hgen xs [] s H0).
Qed.

(** What an entry of the result records of the return of a generator. *)
Definition records (gen : outcome (list Z * list (Z * Z))) (actual : bool) (e : entry) : Prop :=
  ∃ vertices edges,
    gen = Ok (vertices, edges) ∧
    en_vertices e = vertices ∧ endpoints (en_edges e) = edges ∧
    raw_edges (en_meta e) = length (en_edges e) ∧
    actual_vertices (en_meta e) = if actual then Some (length vertices) else None.

(** The keys of the four dicts at once. *)
Definition keys_are (res : all_graphs) (sizes : list Z) : Prop :=
  dom (ag_grid res) = (list_to_set sizes : gset Z) ∧
  dom (ag_maze res) = (list_to_set sizes : gset Z) ∧
  dom (ag_geometric res) = (list_to_set sizes : gset Z) ∧
  dom (ag_hypercube res) = (list_to_set sizes : gset Z).

Section runner_entries.
Context (R : PyRandom) (os_entropy : Z) (math_log : Z → float).

Definition entries_ok (seed : Z) (res : all_graphs) : Prop :=
  (∀ n e, ag_grid res !! n = Some e →
     records (grid_graph R os_entropy n (Some seed) false) false e) ∧
  (∀ n e, ag_maze res !! n = Some e →
     records (grid_maze_like R os_entropy n (Some seed)) false e) ∧
  (∀ n e, ag_geometric res !! n = Some e →
     records (random_geometric_graph R os_entropy math_log n (Some seed) None) false e) ∧
  (∀ n e, ag_hypercube res !! n = Some e →
     records (hypercube_graph R os_entropy n (Some seed)) true e).

Lemma records_insert (gen : Z → outcome (list Z * list (Z * Z))) (actual : bool)
    (m : gmap Z entry) (n : Z) (v : list Z) (es : list (Z * Z)) (vs : list Z)
    (ws : list (Z * Z * Z)) seed w_min w_max controlled :
  (∀ k e, m !! k = Some e → records (gen k) actual e) →
  gen n = Ok (v, es) →
  build_weighted_graph R os_entropy v es seed w_min w_max controlled = Ok (vs, ws) →
  ∀ k e,
    <[n := mkEntry vs ws (mkMeta (length es)
                                 (if actual then Some (length v) else None))]> m !! k
    = Some e →
    records (gen k) actual e.
Proof.
  intros Hm Hgen Hb k e. apply build_weighted_graph_endpoints in Hb as [-> Hends].
  destruct (decide (k = n)) as [->|Hne].
  - rewrite lookup_insert_eq. intros [= <-]. exists v, es. simpl.
    split_and!; [done|done|done| |done].
    rewrite <-Hends. unfold endpoints. by rewrite length_fmap.
  - rewrite lookup_insert_ne by done. apply Hm.
Qed.

Lemma make_all_graphs_spec sizes seed w_min w_max controlled res :
  make_all_graphs R os_entropy math_log sizes seed w_min w_max controlled = Ok res →
  keys_are res sizes ∧ entries_ok seed res.
Proof.
  unfold make_all_graphs.
  apply (for_each_partial_done (λ done res, keys_are res done ∧ entries_ok seed res)).
  - split.
    + unfold keys_are. simpl. by rewrite !dom_empty_L.
    + unfold entries_ok. simpl. split_and!; intros n e; by rewrite lookup_empty.
  - clear res. intros done n res res' [(Kg & Km & Kr & Kh) (Eg & Em & Er & Eh)].
    unfold make_graphs_for.
    intros ([v_g e_g] & Hg & H)%bind_Ok_inv.
    apply bind_Ok_inv in H as ([vs1 ws1] & Hb1 & H).
    apply bind_Ok_inv in H as ([v_m e_m] & Hm & H).
    apply bind_Ok_inv in H as ([vs2 ws2] & Hb2 & H).
    apply bind_Ok_inv in H as ([v_r e_r] & Hr & H).
    apply bind_Ok_inv in H as ([vs3 ws3] & Hb3 & H).
    apply bind_Ok_inv in H as ([v_h e_h] & Hh & H).
    apply bind_Ok_inv in H as ([vs4 ws4] & Hb4 & H).
    injection H as <-. split.
    + unfold keys_are. simpl. rewrite !dom_insert_L, Kg, Km, Kr, Kh.
      rewrite list_to_set_app_L. simpl.
      rewrite (right_id_L (∅ : gset Z) (∪)), (comm_L (∪) (list_to_set done : gset Z)).
      done.
    + unfold entries_ok. simpl. split_and!.
      * apply (records_insert (λ k, grid_graph R os_entropy k (Some seed) false) false
                 _ n v_g e_g vs1 ws1 _ _ _ _ Eg Hg Hb1).
      * apply (records_insert (λ k, grid_maze_like R os_entropy k (Some seed)) false
                 _ n v_m e_m vs2 ws2 _ _ _ _ Em Hm Hb2).
      * apply (records_insert
                 (λ k, random_geometric_graph R os_entropy math_log k (Some seed) None) false
                 _ n v_r e_r vs3 ws3 _ _ _ _ Er Hr Hb3).
      * apply (records_insert (λ k, hypercube_graph R os_entropy k (Some seed)) true
                 _ n v_h e_h vs4 ws4 _ _ _ _ Eh Hh Hb4).
Qed.
End runner_entries.

(** X17: whenever [make_all_graphs] returns, each of its four dicts has
    the sizes asked for as its keys, and the entry for a size holds what
    the generator of its kind returns for that size on the seed given:
    its vertices, its edges with a weight each, their number as
    ['raw_edges'], and for the hypercube the number of vertices as
    ['actual_vertices']. *)
Theorem make_all_graphs_entries (R : PyRandom) (os_entropy : Z) (math_log : Z → float)
    (sizes : list Z) (seed w_min w_max : Z) (controlled : bool) (res : all_graphs) :
  make_all_graphs R os_entropy math_log sizes seed w_min w_max controlled = Ok res →
  keys_are res sizes ∧
  (∀ n e, ag_grid res !! n = Some e →
     records (grid_graph R os_entropy n (Some seed) false) false e) ∧
  (∀ n e, ag_maze res !! n = Some e →
     records (grid_maze_like R os_entropy n (Some seed)) false e) ∧
  (∀ n e, ag_geometric res !! n = Some e →
     records (random_geometric_graph R os_entropy math_log n (Some seed) None) false e) ∧
  (∀ n e, ag_hypercube res !! n = Some e →
     records (hypercube_graph R os_entropy n (Some seed)) true e).
Proof. apply make_all_graphs_spec. Qed.

(** The result of a run on the sizes 1 and 2. *)
Definition graphs_two : all_graphs :=
  Eval vm_compute in
    match make_all_graphs Twister 0 log_at_two [1; 2] 42 1 30 true with
    | Ok res => res
    | _ => mkAll ∅ ∅ ∅ ∅
    end.

Lemma make_all_graphs_entries_witness :
  keys_are graphs_two [1; 2] ∧
  (∀ n e, ag_grid graphs_two !! n = Some e →
     records (grid_graph Twister 0 n (Some 42) false) false e) ∧
  (∀ n e, ag_maze graphs_two !! n = Some e →
     records (grid_maze_like Twister 0 n (Some 42)) false e) ∧
  (∀ n e, ag_geometric graphs_two !! n = Some e →
     records (random_geometric_graph Twister 0 log_at_two n (Some 42) None) false e) ∧
  (∀ n e, ag_hypercube graphs_two !! n = Some e →
     records (hypercube_graph Twister 0 n (Some 42)) true e).
Proof.
  apply (make_all_graphs_entries Twister 0 log_at_two [1; 2] 42 1 30 true graphs_two).
  vm_compute. reflexivity.
Defined.

(** * The search reaches the whole component *)

(** [adj] records the neighbour [y] of [x]. *)
Definition records_nb (adj : gmap Z (list Z)) (x y : Z) : Prop :=
  ∃ nbs, adj !! x = Some nbs ∧ y ∈ nbs.

Lemma add_adjacent_records adj u v adj' :
  add_adjacent adj (u, v) = Ok adj' →
  records_nb adj' u v ∧ records_nb adj' v u ∧
  ∀ x y, records_nb adj x y → records_nb adj' x y.
Proof.
  unfold add_adjacent. intros (lu & Hlu & H)%bind_Ok_inv.
  apply bind_Ok_inv in H as (lv & Hlv & H). injection H as <-.
  unfold dict_at in Hlu, Hlv.
  destruct (adj !! u) as [lu'|] eqn:Eu; [|done]. injection Hlu as ->.
  destruct (<[u := lu ++ [v]]> adj !! v) as [lv'|] eqn:Ev; [|done]. injection Hlv as ->.
  assert (∀ x y, records_nb (<[u := lu ++ [v]]> adj) x y →
            records_nb (<[v := lv ++ [u]]> (<[u := lu ++ [v]]> adj)) x y) as Hstep2.
  { intros x y (nbs & Hx & Hy). destruct (decide (x = v)) as [->|Hne].
    - exists (lv ++ [u]). rewrite lookup_insert_eq. split; [done|].
      rewrite Ev in Hx. injection Hx as ->. apply elem_of_app. by left.
    - exists nbs. by rewrite lookup_insert_ne. }
  assert (∀ x y, records_nb adj x y → records_nb (<[u := lu ++ [v]]> adj) x y) as Hstep1.
  { intros x y (nbs & Hx & Hy). destruct (decide (x = u)) as [->|Hne].
    - exists (lu ++ [v]). rewrite lookup_insert_eq. split; [done|].
      rewrite Eu in Hx. injection Hx as ->. apply elem_of_app. by left.
    - exists nbs. by rewrite lookup_insert_ne. }
  split_and!.
  - apply Hstep2. exists (lu ++ [v]). rewrite lookup_insert_eq. split; [done|].
    apply elem_of_app. right. by left.
  - exists (lv ++ [u]). rewrite lookup_insert_eq. split; [done|].
    apply elem_of_app. right. by left.
  - intros x y H. by apply Hstep2, Hstep1.
Qed.

(** The dict [adj] holds every edge, at both its ends. *)
Lemma adj_complete (edges : list (Z * Z)) adj0 adj :
  for_each edges add_adjacent adj0 = Ok adj →
  ∀ u v, (u, v) ∈ edges → records_nb adj u v ∧ records_nb adj v u.
Proof.
  apply (for_each_partial_done
    (λ done adj, ∀ u v, (u, v) ∈ done → records_nb adj u v ∧ records_nb adj v u)).
  - intros u v H. by apply elem_of_nil in H.
  - intros done [a b] adj1 adj2 Hinv Hstep.
    apply add_adjacent_records in Hstep as (Hab & Hba & Hkeep).
    intros u v [Huv|Huv%list_elem_of_singleton]%elem_of_app.
    + destruct (Hinv u v Huv). split; by apply Hkeep.
    + by injection Huv as -> ->.
Qed.

Lemma visit_fold_closed nbs : ∀ visited q visited' q',
  foldl visit (visited, q) nbs = (visited', q') →
  visited ⊆ visited' ∧ (∀ y, y ∈ nbs → y ∈ visited') ∧ (∀ y, y ∈ q → y ∈ q') ∧
  (∀ z, z ∈ visited' → z ∈ visited ∨ z ∈ q').
Proof.
  induction nbs as [|nb nbs IH]; intros visited q visited' q'; cbn [foldl].
  { intros [= <- <-]. split_and!; [done| |done|by left].
    intros y Hy. by apply elem_of_nil in Hy. }
  unfold visit at 2. destruct (decide (nb ∈ visited)) as [Hin|Hnin].
  - intros H. destruct (IH _ _ _ _ H) as (Hsub & Hnbs & Hq & Hnew).
    split_and!; [done| |done|done].
    intros y [->|Hy]%elem_of_cons; [by apply Hsub|by apply Hnbs].
  - intros H. destruct (IH _ _ _ _ H) as (Hsub & Hnbs & Hq & Hnew).
    split_and!.
    + etrans; [apply union_subseteq_r|done].
    + intros y [->|Hy]%elem_of_cons; [|by apply Hnbs].
      apply Hsub. apply elem_of_union. left. by apply elem_of_singleton.
    + intros y Hy. apply Hq. apply elem_of_app. by left.
    + intros z Hz. destruct (Hnew z Hz) as [[Hz'%elem_of_singleton|Hz']%elem_of_union|Hz'].
      * subst. right. apply Hq. apply elem_of_app. right. by left.
      * by left.
      * by right.
Qed.

(** A vertex visited and gone from the queue has all its neighbours
    visited; so when the search returns, every neighbour of a visited
    vertex is visited. *)
Lemma bfs_closed adj fuel : ∀ q visited visited',
  bfs fuel adj q visited = Ok visited' →
  (∀ x y, x ∈ visited → x ∉ q → records_nb adj x y → y ∈ visited) →
  visited ⊆ visited' ∧ ∀ x y, x ∈ visited' → records_nb adj x y → y ∈ visited'.
Proof.
  induction fuel as [|fuel IH]; intros q visited visited'.
  { destruct q; [|done]. intros [= <-] Hinv. split; [done|].
    intros x y Hx. apply Hinv; [done|]. apply not_elem_of_nil. }
  destruct q as [|x q].
  { intros [= <-] Hinv. split; [done|].
    intros x y Hx. apply Hinv; [done|]. apply not_elem_of_nil. }
  cbn [bfs]. intros (nbs & Hnbs & H)%bind_Ok_inv Hinv.
  unfold dict_at in Hnbs. destruct (adj !! x) as [nbs'|] eqn:Ex; [|done]. injection Hnbs as ->.
  destruct (foldl visit (visited, q) nbs) as [visited1 q1] eqn:Efold.
  destruct (visit_fold_closed _ _ _ _ _ Efold) as (Hsub & Hall & Hq & Hnew).
  destruct (IH q1 visited1 visited' H) as [Hsub' Hclosed].
  { intros z y Hz Hzq (nbz & Hnbz & Hy).
    destruct (decide (z = x)) as [->|Hne].
    - rewrite Ex in Hnbz. injection Hnbz as <-. by apply Hall.
    - destruct (Hnew z Hz) as [Hz'|Hz']; [|done].
      apply Hsub. apply (Hinv z y Hz'); [|by exists nbz].
      intros [?|Hzq']%elem_of_cons; [done|]. by apply Hzq, Hq. }
  split; [by etrans|done].
Qed.

Lemma filter_all {A} (P : A → Prop) `{!∀ x, Decision (P x)} (l : list A) :
  Forall P l → filter P l = l.
Proof.
  induction 1 as [|x l Hx _ IH]; [done|]. by rewrite filter_cons_True, IH.
Qed.

(** [keep_component] keeps the vertices linked to the first one, all of
    them, and the edges between them. *)
Lemma keep_component_whole (vertices : list Z) (edges : list (Z * Z)) (start : Z) rest :
  vertices = start :: rest → NoDup vertices →
  (∀ u v, (u, v) ∈ edges → u ∈ vertices ∧ v ∈ vertices) →
  ∃ kept_vertices kept_edges,
    keep_component vertices edges = Ok (kept_vertices, kept_edges) ∧
    kept_vertices = filter (λ v, v ∈ kept_vertices) vertices ∧
    kept_edges = filter (λ e : Z * Z, (e.1 ∈ kept_vertices) ∧ (e.2 ∈ kept_vertices)) edges ∧
    (∀ v, v ∈ kept_vertices ↔ v ∈ vertices ∧ linked edges start v).
Proof.
  intros Hv Hnodup Hends.
  assert (start ∈ vertices) as Hstart by (rewrite Hv; by left).
  destruct (adj_loop vertices edges Hends) as (adj & Hadjeq & Hadj).
  pose proof (adj_complete edges _ adj Hadjeq) as Hcomplete.
  assert (keep_component vertices edges =
            (visited ← bfs (length vertices) adj [start] {[start]};
             if decide (size visited < length vertices)%nat then
               Ok (filter (λ v, v ∈ visited) vertices,
                   filter (λ e : Z * Z, (e.1 ∈ visited) ∧ (e.2 ∈ visited)) edges)
             else Ok (vertices, edges))) as ->.
  { unfold keep_component. rewrite Hv at 1. by rewrite Hadjeq. }
  destruct (bfs_spec vertices edges Hends start adj Hadj (length vertices) [start] {[start]})
    as (visited & Hbfs & Hsub & HV & Hreach).
  { split_and!.
    - intros y ->%list_elem_of_singleton. by apply elem_of_singleton.
    - intros y ->%elem_of_singleton. by apply elem_of_list_to_set.
    - intros y ->%elem_of_singleton. done. }
  { rewrite size_difference, size_singleton, size_list_to_set by
      (done || (intros y ->%elem_of_singleton; by apply elem_of_list_to_set)).
    simpl. assert (1 ≤ length vertices)%nat by (rewrite Hv; simpl; lia). lia. }
  destruct (bfs_closed adj _ _ _ _ Hbfs) as [_ Hclosed].
  { intros x y ->%elem_of_singleton Hx. exfalso. apply Hx. by left. }
  rewrite Hbfs. obind.
  assert (start ∈ visited) as Hsv by (apply Hsub; by apply elem_of_singleton).
  assert (∀ v, v ∈ visited ↔ v ∈ vertices ∧ linked edges start v) as Hiff.
  { intros v. split.
    - intros Hin. split.
      + apply (elem_of_list_to_set (C:=gset Z)). by apply HV.
      + eapply linked_mono; [|by apply Hreach].
        intros e He. unfold inside in He. by apply list_elem_of_filter in He as [_ ?].
    - intros [_ Hl]. revert Hsv. generalize start v Hl. clear -Hcomplete Hclosed.
      intros a b Hl. induction Hl as [x|x y z Hxy _ IH]; [done|].
      intros Hx. apply IH. destruct Hxy as [Hxy|Hyx].
      + destruct (Hcomplete x y Hxy) as [Hr _]. by apply (Hclosed x y).
      + destruct (Hcomplete y x Hyx) as [_ Hr]. by apply (Hclosed x y). }
  destruct (decide (size visited < length vertices)%nat) as [Hlt|Hge].
  - eexists _, _. split; [done|].
    assert (∀ v, v ∈ filter (λ v, v ∈ visited) vertices ↔ v ∈ visited) as Hkept.
    { intros v. rewrite list_elem_of_filter. split; [by intros [? _]|].
      intros Hin. split; [done|]. by apply Hiff. }
    split_and!.
    + apply list_filter_iff. intros v. by rewrite Hkept.
    + apply list_filter_iff. intros e. by rewrite !Hkept.
    + intros v. by rewrite Hkept.
  - assert (visited = list_to_set vertices) as Heq.
    { apply set_subseteq_size_eq; [done|]. rewrite size_list_to_set by done. lia. }
    eexists _, _. split; [done|].
    assert (∀ v, v ∈ vertices ↔ v ∈ visited) as Hall.
    { intros v. rewrite Heq. by rewrite elem_of_list_to_set. }
    split_and!.
    + symmetry. apply filter_all. by apply Forall_forall.
    + symmetry. apply filter_all. apply Forall_forall.
      intros [u v] Huv. destruct (Hends u v Huv). done.
    + intros v. rewrite <- Hiff. apply Hall.
Qed.

(** * The cube on a power of two *)

Lemma elem_of_zrange k x : x ∈ zrange k ↔ 0 ≤ x < k.
Proof.
  unfold zrange. rewrite list_elem_of_fmap. split.
  - intros (i & -> & Hi%elem_of_seq). lia.
  - intros Hx. exists (Z.to_nat x). split; [lia|]. apply elem_of_seq. lia.
Qed.

Lemma zrange_lookup k (i : nat) : (i < Z.to_nat k)%nat → zrange k !! i = Some (Z.of_nat i).
Proof. intros Hi. unfold zrange. by rewrite list_lookup_fmap, lookup_seq_lt. Qed.

Lemma length_zrange k : length (zrange k) = Z.to_nat k.
Proof. unfold zrange. by rewrite length_fmap, length_seq. Qed.

(** With nothing removed, the vertex [x] of the cube has the label [x + 1]. *)
Lemma index_map_zrange n x y :
  index_map_of (zrange n) !! x = Some y ↔ 0 ≤ x < n ∧ y = x + 1.
Proof.
  assert (0 ≤ x < n → index_map_of (zrange n) !! x = Some (x + 1)) as Hin.
  { intros Hx. rewrite (index_map_lookup (zrange n) (Z.to_nat x) x).
    - f_equal. lia.
    - apply NoDup_zrange.
    - rewrite zrange_lookup by lia. f_equal. lia. }
  split.
  - intros H. destruct (decide (x ∈ zrange n)) as [Hx%elem_of_zrange|Hnin].
    + rewrite Hin in H by done. by injection H as <-.
    + pose proof (proj1 (index_map_from (zrange n) 0 ∅ x) Hnin) as H0.
      change (index_map_of (zrange n) !! x = (∅ : gmap Z Z) !! x) in H0. by rewrite H0 in H.
  - intros [Hx ->]. by apply Hin.
Qed.

Lemma lxor_cancel b x y : Z.lxor b x = Z.lxor b y → x = y.
Proof.
  intros H. rewrite <- (Z.lxor_0_l x), <- (Z.lxor_0_l y), <- (Z.lxor_nilpotent b), !Z.lxor_assoc.
  by rewrite H.
Qed.

Lemma lxor_twice b x : Z.lxor (Z.lxor b x) x = b.
Proof. by rewrite Z.lxor_assoc, Z.lxor_nilpotent, Z.lxor_0_r. Qed.

(** Flipping the highest bit set in [b] takes it away. *)
Lemma clear_top_bit b : 0 < b → Z.lxor b (2 ^ Z.log2 b) = b - 2 ^ Z.log2 b.
Proof.
  intros Hb. pose proof (Z.log2_nonneg b) as Hk.
  assert (Z.land (Z.lxor b (2 ^ Z.log2 b)) (2 ^ Z.log2 b) = 0) as Hland.
  { apply Z.bits_inj'. intros i Hi.
    rewrite Z.land_spec, Z.lxor_spec, Z.pow2_bits_eqb, Z.bits_0 by done.
    destruct (Z.eqb_spec (Z.log2 b) i) as [<-|Hne].
    - by rewrite Z.bit_log2.
    - by rewrite andb_false_r. }
  apply Z.add_nocarry_lxor in Hland. rewrite lxor_twice in Hland. lia.
Qed.

(** The upper ends of the edges that leave [b] along the bits [bits]. *)
Definition hop_in (bits : list Z) (n b v : Z) : Prop :=
  ∃ bit, bit ∈ bits ∧ b < Z.lxor b (2 ^ bit) < n ∧ v = Z.lxor b (2 ^ bit) + 1.

Lemma cube_bits_loop (n d b : Z) (edges0 : list (Z * Z)) :
  0 ≤ b < n → NoDup edges0 → (∀ v, (b + 1, v) ∉ edges0) →
  ∃ edges, cube_edges_from (index_map_of (zrange n)) d edges0 b = Ok edges ∧ NoDup edges ∧
    ∀ u v, (u, v) ∈ edges ↔ (u, v) ∈ edges0 ∨ (u = b + 1 ∧ hop_in (zrange d) n b v).
Proof.
  intros Hb Hnd Hfresh. unfold cube_edges_from.
  destruct (for_each_ind
    (λ (done : list Z) (edges : list (Z * Z)),
       NoDup edges ∧
       ∀ u v, (u, v) ∈ edges ↔ (u, v) ∈ edges0 ∨ (u = b + 1 ∧ hop_in done n b v))
    (zrange d)
    (λ edges bit,
       let nb := Z.lxor b (Z.shiftl 1 bit) in
       if bool_decide (is_Some (index_map_of (zrange n) !! nb)) && bool_decide (b < nb) then
         u ← dict_at (index_map_of (zrange n)) b;
         v ← dict_at (index_map_of (zrange n)) nb;
         Ok (edges ++ [(u, v)])
       else Ok edges)
    edges0) as (edges & Hloop & Hnd' & Hiff); [| |by exists edges].
  { split; [done|]. intros u v. split; [by left|].
    intros [?|[_ (bit & Hbit & _)]]; [done|]. by apply elem_of_nil in Hbit. }
  intros done bit rest edges Hsplit [Hnd1 Hinv]. cbn zeta.
  assert (∀ x, x ∈ done → 0 ≤ x) as Hdone.
  { intros x Hx. assert (x ∈ zrange d) as Hx'%elem_of_zrange; [|lia].
    rewrite Hsplit. apply elem_of_app. by left. }
  assert (0 ≤ bit) as Hbit.
  { assert (bit ∈ zrange d) as Hx'%elem_of_zrange; [|lia].
    rewrite Hsplit. apply elem_of_app. right. by left. }
  assert (bit ∉ done) as Hnew.
  { pose proof (NoDup_zrange d) as H. rewrite Hsplit in H.
    apply NoDup_app in H as (_ & H & _). intros Hin. apply (H bit Hin). by left. }
  rewrite Z.shiftl_1_l.
  assert (∀ u v, (u, v) ∈ edges0 ∨ u = b + 1 ∧ hop_in (done ++ [bit]) n b v ↔
                 ((u, v) ∈ edges0 ∨ u = b + 1 ∧ hop_in done n b v) ∨
                 (u = b + 1 ∧ b < Z.lxor b (2 ^ bit) < n ∧ v = Z.lxor b (2 ^ bit) + 1)) as Hsnoc.
  { intros u v. split.
    - intros [?|[-> (bit' & [Hin| ->%list_elem_of_singleton]%elem_of_app & H1 & H2)]].
      + left. by left.
      + left. right. split; [done|]. by exists bit'.
      + by right.
    - intros [[?|[-> (bit' & Hin & H1 & H2)]]|(-> & H1 & H2)].
      + by left.
      + right. split; [done|]. exists bit'. split; [apply elem_of_app; by left|done].
      + right. split; [done|]. exists bit. split; [|done].
        apply elem_of_app. right. by left. }
  destruct (bool_decide (is_Some (index_map_of (zrange n) !! Z.lxor b (2 ^ bit)))) eqn:E1;
    [destruct (bool_decide (b < Z.lxor b (2 ^ bit))) eqn:E2|]; simpl.
  - apply bool_decide_eq_true_1 in E1 as [y Hy]. apply bool_decide_eq_true_1 in E2.
    pose proof Hy as [Hnb _]%index_map_zrange.
    rewrite (dict_at_Some _ b (b + 1)) by (by apply index_map_zrange). obind.
    rewrite (dict_at_Some _ _ (Z.lxor b (2 ^ bit) + 1)) by (by apply index_map_zrange). obind.
    eexists. split; [done|]. split.
    + apply NoDup_app. split_and!; [done| |apply NoDup_singleton].
      intros e He ->%list_elem_of_singleton.
      apply Hinv in He as [He|[_ (bit' & Hbit' & _ & Heq)]]; [by apply (Hfresh _ He)|].
      assert (bit' = bit) as ->; [|done].
      apply (Z.pow_inj_r 2); [lia|by apply Hdone|done|]. apply (lxor_cancel b). lia.
    + intros u v. rewrite Hsnoc, elem_of_app, list_elem_of_singleton, Hinv. split.
      * intros [?|[= -> ->]]; [by left|]. right. split; [done|]. split; [lia|done].
      * intros [?|(-> & _ & ->)]; [by left|by right].
  - apply bool_decide_eq_false_1 in E2.
    eexists. split; [done|]. split; [done|]. intros u v. rewrite Hsnoc, Hinv. split.
    + by left.
    + intros [?|(_ & ? & _)]; [done|lia].
  - apply bool_decide_eq_false_1 in E1.
    eexists. split; [done|]. split; [done|]. intros u v. rewrite Hsnoc, Hinv. split.
    + by left.
    + intros [?|(_ & ? & _)]; [done|]. exfalso. apply E1.
      exists (Z.lxor b (2 ^ bit) + 1). apply index_map_zrange. split; [|done].
      lia.
Qed.

Lemma cube_edges_full (n d : Z) :
  ∃ edges,
    for_each (zrange n) (cube_edges_from (index_map_of (zrange n)) d) [] = Ok edges ∧
    NoDup edges ∧
    ∀ u v, (u, v) ∈ edges ↔ ∃ b, 0 ≤ b < n ∧ u = b + 1 ∧ hop_in (zrange d) n b v.
Proof.
  destruct (for_each_ind
    (λ (done : list Z) (edges : list (Z * Z)),
       NoDup edges ∧
       ∀ u v, (u, v) ∈ edges ↔ ∃ b, b ∈ done ∧ u = b + 1 ∧ hop_in (zrange d) n b v)
    (zrange n) (cube_edges_from (index_map_of (zrange n)) d) [])
    as (edges & Hloop & Hnd & Hiff).
  - split; [apply NoDup_nil_2|]. intros u v. split; [by intros H%elem_of_nil|].
    by intros (b & H%elem_of_nil & _).
  - intros done b rest edges Hsplit [Hnd Hinv].
    assert (0 ≤ b < n) as Hb.
    { apply elem_of_zrange. rewrite Hsplit. apply elem_of_app. right. by left. }
    assert (b ∉ done) as Hnew.
    { pose proof (NoDup_zrange n) as H. rewrite Hsplit in H.
      apply NoDup_app in H as (_ & H & _). intros Hin. apply (H b Hin). by left. }
    destruct (cube_bits_loop n d b edges Hb Hnd) as (edges' & -> & Hnd' & Hiff').
    { intros v (b' & Hb' & Heq & _)%Hinv. assert (b' = b) as -> by lia. done. }
    exists edges'. split; [done|]. split; [done|]. intros u v. rewrite Hiff', Hinv. split.
    + intros [(b' & Hb' & H)|[-> H]].
      * exists b'. split; [apply elem_of_app; by left|done].
      * exists b. split; [|done]. apply elem_of_app. right. by left.
    + intros (b' & [Hb'| ->%list_elem_of_singleton]%elem_of_app & H).
      * left. by exists b'.
      * by right.
  - exists edges. split; [done|]. split; [done|]. intros u v. rewrite Hiff.
    split; intros (b & Hb & H); exists b; (split; [by apply elem_of_zrange|done]).
Qed.

(** In the full cube every vertex is linked to the first: take away the
    highest bit set, one bit after the other. *)
Lemma cube_linked (d : Z) (edges : list (Z * Z)) :
  0 ≤ d →
  (∀ u v, 1 ≤ u → u < v ≤ 2 ^ d →
          (∃ bit, 0 ≤ bit < d ∧ v - 1 = Z.lxor (u - 1) (2 ^ bit)) → (u, v) ∈ edges) →
  ∀ b, 0 ≤ b < 2 ^ d → linked edges 1 (b + 1).
Proof.
  intros Hd Hedge b Hb.
  assert (∀ (k : nat) b, 0 ≤ b < 2 ^ d → b ≤ Z.of_nat k → linked edges 1 (b + 1)) as H;
    [|by apply (H (Z.to_nat b)); lia].
  clear b Hb. induction k as [|k IH]; intros b Hb Hk.
  { assert (b = 0) as -> by lia. done. }
  destruct (decide (b = 0)) as [->|Hne]; [done|].
  assert (0 < b) as Hpos by lia.
  pose proof (Z.log2_spec b Hpos) as Hspec.
  pose proof (clear_top_bit b Hpos) as Hclr.
  pose proof (Z.log2_nonneg b) as Hk0.
  assert (Z.log2 b < d) as Hkd by (apply Z.log2_lt_pow2; lia).
  pose proof (Z.pow_pos_nonneg 2 (Z.log2 b)) as Hpow.
  transitivity (b - 2 ^ Z.log2 b + 1).
  - apply IH; lia.
  - apply linked_edge, Hedge; [lia|lia|]. exists (Z.log2 b). split; [lia|].
    replace (b - 2 ^ Z.log2 b + 1 - 1) with (Z.lxor b (2 ^ Z.log2 b)) by lia.
    rewrite lxor_twice. lia.
Qed.

(** X18: the pruning step of [hypercube_graph] keeps the whole component of
    the first vertex: given distinct vertices and edges between them, it
    returns the vertices linked to the first one by the edges (all of them,
    in their order) and the edges between two such vertices. *)
Theorem keep_component_is_component (vertices : list Z) (edges : list (Z * Z))
    (start : Z) (rest : list Z) :
  vertices = start :: rest → NoDup vertices →
  (∀ u v, (u, v) ∈ edges → u ∈ vertices ∧ v ∈ vertices) →
  ∃ kept_vertices kept_edges,
    keep_component vertices edges = Ok (kept_vertices, kept_edges) ∧
    kept_vertices `sublist_of` vertices ∧ kept_edges `sublist_of` edges ∧
    (∀ v, v ∈ kept_vertices ↔ v ∈ vertices ∧ linked edges start v) ∧
    (∀ u v, (u, v) ∈ kept_edges ↔ (u, v) ∈ edges ∧ linked edges start u).
Proof.
  intros Hv Hnd Hends.
  destruct (keep_component_whole vertices edges start rest Hv Hnd Hends)
    as (V' & E' & Hrun & HV & HE & Hmem).
  exists V', E'. split; [done|].
  split; [rewrite HV; apply sublist_filter|]. split; [rewrite HE; apply sublist_filter|].
  split; [done|]. intros u v. rewrite HE, list_elem_of_filter. cbn [fst snd]. split.
  - intros [[Hu _] Huv]. split; [done|]. by apply Hmem.
  - intros [Huv Hu]. destruct (Hends u v Huv) as [Hu' Hv']. split; [|done].
    split; apply Hmem; [by split|]. split; [done|].
    transitivity u; [done|]. by apply linked_edge.
Qed.

Lemma keep_component_is_component_witness :
  ∃ kept_vertices kept_edges,
    keep_component [1; 2; 3; 4; 5] [(2, 3); (5, 1); (3, 4); (2, 4)]
      = Ok (kept_vertices, kept_edges) ∧
    kept_vertices `sublist_of` [1; 2; 3; 4; 5] ∧
    kept_edges `sublist_of` [(2, 3); (5, 1); (3, 4); (2, 4)] ∧
    (∀ v, v ∈ kept_vertices ↔
          v ∈ [1; 2; 3; 4; 5] ∧ linked [(2, 3); (5, 1); (3, 4); (2, 4)] 1 v) ∧
    (∀ u v, (u, v) ∈ kept_edges ↔
            (u, v) ∈ [(2, 3); (5, 1); (3, 4); (2, 4)] ∧
            linked [(2, 3); (5, 1); (3, 4); (2, 4)] 1 u).
Proof.
  apply (keep_component_is_component [1; 2; 3; 4; 5] [(2, 3); (5, 1); (3, 4); (2, 4)]
           1 [2; 3; 4; 5]).
  - reflexivity.
  - apply (bool_decide_unpack _). vm_compute. exact I.
  - intros u v Huv. revert u v Huv.
    assert (Forall (λ e : Z * Z, e.1 ∈ [1; 2; 3; 4; 5] ∧ e.2 ∈ [1; 2; 3; 4; 5])
                   [(2, 3); (5, 1); (3, 4); (2, 4)]) as H.
    { apply (bool_decide_unpack _). vm_compute. exact I. }
    intros u v Huv. exact (proj1 (Forall_forall _ _) H (u, v) Huv).
Defined.

(** X19: on a power of two, [hypercube_graph] removes nothing and prunes
    nothing: whatever the generator and the seed, it returns the labels
    1 .. 2^d and the edges of the d-cube, each once: [(u, v)] with [u < v]
    where [u - 1] and [v - 1] differ in one bit below [d]. *)
Theorem hypercube_graph_power_of_two (d : Z) :
  0 ≤ d →
  ∃ edges,
    (∀ (R : PyRandom) (os_entropy : Z) (seed : option Z),
       hypercube_graph R os_entropy (2 ^ d) seed = Ok (labels (Z.to_nat (2 ^ d)), edges)) ∧
    NoDup edges ∧
    ∀ u v, (u, v) ∈ edges ↔
           1 ≤ u ∧ u < v ≤ 2 ^ d ∧ ∃ bit, 0 ≤ bit < d ∧ v - 1 = Z.lxor (u - 1) (2 ^ bit).
Proof.
  intros Hd. pose proof (Z.pow_pos_nonneg 2 d) as Hn.
  destruct (cube_edges_full (2 ^ d) d) as (edges & Hloop & Hnd & Hiff).
  assert (∀ u v, (u, v) ∈ edges ↔
            1 ≤ u ∧ u < v ≤ 2 ^ d ∧ ∃ bit, 0 ≤ bit < d ∧ v - 1 = Z.lxor (u - 1) (2 ^ bit))
    as Hchar.
  { intros u v. rewrite Hiff. split.
    - intros (b & Hb & -> & bit & Hbit%elem_of_zrange & Hnb & ->).
      split; [lia|]. split; [lia|]. exists bit. split; [done|].
      replace (b + 1 - 1) with b by lia. lia.
    - intros (Hu & Hv & bit & Hbit & Heq). exists (u - 1). split; [lia|]. split; [lia|].
      exists bit. split; [by apply elem_of_zrange|]. lia. }
  exists edges. split; [|done]. intros R os_entropy seed.
  unfold hypercube_graph. cbn zeta.
  assert (ceil_log2 (Z.max 1 (2 ^ d)) = d) as ->.
  { unfold ceil_log2. rewrite Z.max_r by lia. by apply Z.log2_up_pow2. }
  rewrite bool_decide_eq_false_2 by lia. obind.
  fold (index_map_of (zrange (2 ^ d))).
  rewrite index_map_vertices by apply NoDup_zrange. obind.
  rewrite Hloop. obind. rewrite length_zrange.
  assert (∃ rest, labels (Z.to_nat (2 ^ d)) = 1 :: rest) as [rest Hlab].
  { destruct (Z.to_nat (2 ^ d)) as [|k] eqn:E; [lia|]. simpl. eauto. }
  destruct (keep_component_whole (labels (Z.to_nat (2 ^ d))) edges 1 rest Hlab
              (NoDup_labels _)) as (V' & E' & -> & HV & HE & Hmem).
  { intros u v (Hu & Hv & _)%Hchar. split; apply elem_of_labels; lia. }
  assert (∀ v, v ∈ labels (Z.to_nat (2 ^ d)) → v ∈ V') as Hall.
  { intros v Hv. apply Hmem. split; [done|]. apply elem_of_labels in Hv.
    replace v with (v - 1 + 1) by lia. apply (cube_linked d); [done| |lia].
    intros u' v' Hu' Hv' Hbit. by apply Hchar. }
  do 2 f_equal.
  - etrans; [exact HV|]. apply filter_all. by apply Forall_forall.
  - etrans; [exact HE|]. apply filter_all. apply Forall_forall.
    intros [u v] (Hu & Hv & _)%Hchar. split; apply Hall, elem_of_labels; cbn [fst snd]; lia.
Qed.

Lemma hypercube_graph_power_of_two_witness :
  ∃ edges,
    (∀ (R : PyRandom) (os_entropy : Z) (seed : option Z),
       hypercube_graph R os_entropy (2 ^ 3) seed = Ok (labels (Z.to_nat (2 ^ 3)), edges)) ∧
    NoDup edges ∧
    ∀ u v, (u, v) ∈ edges ↔
           1 ≤ u ∧ u < v ≤ 2 ^ 3 ∧ ∃ bit, 0 ≤ bit < 3 ∧ v - 1 = Z.lxor (u - 1) (2 ^ bit).
Proof. apply (hypercube_graph_power_of_two 3). lia. Defined.

(** * What a run records, and two runs on one seed *)

(** C4: on a positive count [hypercube_graph] returns; the vertices it
    returns are not none, every edge it returns joins two of them, and
    every two of them are linked by the edges it returns.  Whenever
    [make_all_graphs] returns, it has recorded a hypercube entry for every
    size asked for and for no other; the entry holds the vertex list
    [hypercube_graph] returns for that size and records its length as
    ['actual_vertices']. *)
Theorem hypercube_single_component (R : PyRandom) (os_entropy : Z) (math_log : Z → float)
    (n : Z) (seed : option Z) :
  1 ≤ n →
  (∃ vertices edges,
     hypercube_graph R os_entropy n seed = Ok (vertices, edges) ∧
     vertices ≠ [] ∧ NoDup vertices ∧
     (∀ u v, (u, v) ∈ edges → u ∈ vertices ∧ v ∈ vertices) ∧
     (∀ u v, u ∈ vertices → v ∈ vertices → linked edges u v)) ∧
  (∀ sizes seed' w_min w_max controlled res,
     make_all_graphs R os_entropy math_log sizes seed' w_min w_max controlled = Ok res →
     (∀ k, k ∈ sizes → is_Some (ag_hypercube res !! k)) ∧
     (∀ k e, ag_hypercube res !! k = Some e →
        k ∈ sizes ∧
        ∃ edges,
          hypercube_graph R os_entropy k (Some seed') = Ok (en_vertices e, edges) ∧
          actual_vertices (en_meta e) = Some (length (en_vertices e)))).
Proof.
  intros Hn. split; [by apply hypercube_graph_spec|].
  intros sizes seed' w_min w_max controlled res Hres.
  destruct (make_all_graphs_spec R os_entropy math_log sizes seed' w_min w_max controlled
              res Hres) as [(_ & _ & _ & Hkeys) (_ & _ & _ & Hentries)].
  assert (∀ k, k ∈ sizes ↔ is_Some (ag_hypercube res !! k)) as Hdom.
  { intros k. rewrite <-elem_of_dom, Hkeys. by rewrite elem_of_list_to_set. }
  split.
  - intros k Hk. by apply Hdom.
  - intros k e Hk. split; [apply Hdom; by exists e|].
    destruct (Hentries k e Hk) as (vertices & edges & Hgen & <- & _ & _ & Hact).
    by exists edges.
Qed.

Lemma hypercube_single_component_witness :
  (∃ vertices edges,
     hypercube_graph Twister 0 9 (Some 4) = Ok (vertices, edges) ∧
     vertices ≠ [] ∧ NoDup vertices ∧
     (∀ u v, (u, v) ∈ edges → u ∈ vertices ∧ v ∈ vertices) ∧
     (∀ u v, u ∈ vertices → v ∈ vertices → linked edges u v)) ∧
  (∀ k, k ∈ [1; 2] → is_Some (ag_hypercube graphs_two !! k)) ∧
  (∀ k e, ag_hypercube graphs_two !! k = Some e →
     k ∈ [1; 2] ∧
     ∃ edges,
       hypercube_graph Twister 0 k (Some 42) = Ok (en_vertices e, edges) ∧
       actual_vertices (en_meta e) = Some (length (en_vertices e))).
Proof.
  destruct (hypercube_single_component Twister 0 log_at_two 9 (Some 4)) as [Hone Hrun].
  - lia.
  - split; [exact Hone|].
    apply (Hrun [1; 2] 42 1 30 true graphs_two). vm_compute. reflexivity.
Defined.

Section runs.
Context (R : PyRandom) (math_log : Z → float).

(** The four dicts with an entry each put at [n]. *)
Definition with_entries (res : all_graphs) (n : Z) (eg em er eh : entry) : all_graphs :=
  mkAll (<[n := eg]> (ag_grid res)) (<[n := em]> (ag_maze res))
        (<[n := er]> (ag_geometric res)) (<[n := eh]> (ag_hypercube res)).

(** A pass of the loop of [make_all_graphs] puts four entries at its
    size; which entries is decided by the size, the seed and the bounds
    of the weights, whatever the dicts held and whatever the entropy. *)
Lemma make_graphs_for_entries ent seed w_min w_max controlled res n res' :
  make_graphs_for R ent math_log seed w_min w_max controlled res n = Ok res' →
  ∃ eg em er eh,
    res' = with_entries res n eg em er eh ∧
    ∀ ent' res0,
      make_graphs_for R ent' math_log seed w_min w_max controlled res0 n
      = Ok (with_entries res0 n eg em er eh).
Proof.
  unfold make_graphs_for.
  intros ([v_g e_g] & Hg & H)%bind_Ok_inv.
  apply bind_Ok_inv in H as ([vs1 ws1] & Hb1 & H).
  apply bind_Ok_inv in H as ([v_m e_m] & Hm & H).
  apply bind_Ok_inv in H as ([vs2 ws2] & Hb2 & H).
  apply bind_Ok_inv in H as ([v_r e_r] & Hr & H).
  apply bind_Ok_inv in H as ([vs3 ws3] & Hb3 & H).
  apply bind_Ok_inv in H as ([v_h e_h] & Hh & H).
  apply bind_Ok_inv in H as ([vs4 ws4] & Hb4 & H).
  injection H as <-. eexists _, _, _, _. split; [done|].
  intros ent' res0.
  change (grid_graph R ent' n (Some seed) false) with (grid_graph R ent n (Some seed) false).
  rewrite Hg. obind.
  change (build_weighted_graph R ent' v_g e_g (Some (seed + 1 + n)) w_min w_max controlled)
    with (build_weighted_graph R ent v_g e_g (Some (seed + 1 + n)) w_min w_max controlled).
  rewrite Hb1. obind.
  change (grid_maze_like R ent' n (Some seed)) with (grid_maze_like R ent n (Some seed)).
  rewrite Hm. obind.
  change (build_weighted_graph R ent' v_m e_m (Some (seed + 2 + n)) w_min w_max controlled)
    with (build_weighted_graph R ent v_m e_m (Some (seed + 2 + n)) w_min w_max controlled).
  rewrite Hb2. obind.
  change (random_geometric_graph R ent' math_log n (Some seed) None)
    with (random_geometric_graph R ent math_log n (Some seed) None).
  rewrite Hr. obind.
  change (build_weighted_graph R ent' v_r e_r (Some (seed + 3 + n)) w_min w_max controlled)
    with (build_weighted_graph R ent v_r e_r (Some (seed + 3 + n)) w_min w_max controlled).
  rewrite Hb3. obind.
  change (hypercube_graph R ent' n (Some seed)) with (hypercube_graph R ent n (Some seed)).
  rewrite Hh. obind.
  change (build_weighted_graph R ent' v_h e_h (Some (seed + 4 + n)) w_min w_max controlled)
    with (build_weighted_graph R ent v_h e_h (Some (seed + 4 + n)) w_min w_max controlled).
  rewrite Hb4. done.
Qed.

(** The entries a run holds for one of its sizes. *)
Definition holds (res : all_graphs) (n : Z) (eg em er eh : entry) : Prop :=
  ag_grid res !! n = Some eg ∧ ag_maze res !! n = Some em ∧
  ag_geometric res !! n = Some er ∧ ag_hypercube res !! n = Some eh.

Lemma make_all_graphs_holds ent sizes seed w_min w_max controlled res :
  make_all_graphs R ent math_log sizes seed w_min w_max controlled = Ok res →
  ∀ n, n ∈ sizes →
    ∃ eg em er eh,
      holds res n eg em er eh ∧
      ∀ ent' res0,
        make_graphs_for R ent' math_log seed w_min w_max controlled res0 n
        = Ok (with_entries res0 n eg em er eh).
Proof.
  unfold make_all_graphs.
  apply (for_each_partial_done
    (λ done res, ∀ n, n ∈ done →
       ∃ eg em er eh,
         holds res n eg em er eh ∧
         ∀ ent' res0,
           make_graphs_for R ent' math_log seed w_min w_max controlled res0 n
           = Ok (with_entries res0 n eg em er eh))).
  - intros n Hn. by apply elem_of_nil in Hn.
  - clear res. intros done x res res' Hinv Hstep n Hn.
    apply make_graphs_for_entries in Hstep as (eg & em & er & eh & -> & Hany).
    destruct (decide (n = x)) as [->|Hne].
    + exists eg, em, er, eh. split; [|done].
      unfold holds, with_entries. simpl. by rewrite !lookup_insert_eq.
    + apply elem_of_app in Hn as [Hn|Hn%list_elem_of_singleton]; [|done].
      destruct (Hinv n Hn) as (eg' & em' & er' & eh' & Hh & Hany').
      exists eg', em', er', eh'. split; [|done].
      unfold holds, with_entries. simpl. by rewrite !lookup_insert_ne.
Qed.

Lemma runs_agree ent1 ent2 sizes1 sizes2 seed w_min w_max controlled res1 res2 n :
  make_all_graphs R ent1 math_log sizes1 seed w_min w_max controlled = Ok res1 →
  make_all_graphs R ent2 math_log sizes2 seed w_min w_max controlled = Ok res2 →
  n ∈ sizes1 → n ∈ sizes2 →
  ∃ eg em er eh, holds res1 n eg em er eh ∧ holds res2 n eg em er eh.
Proof.
  intros H1 H2 Hn1 Hn2.
  destruct (make_all_graphs_holds _ _ _ _ _ _ _ H1 n Hn1)
    as (eg & em & er & eh & Hh1 & Hany1).
  destruct (make_all_graphs_holds _ _ _ _ _ _ _ H2 n Hn2)
    as (eg' & em' & er' & eh' & Hh2 & Hany2).
  exists eg, em, er, eh. split; [done|].
  specialize (Hany1 0 (mkAll ∅ ∅ ∅ ∅)). rewrite (Hany2 0 (mkAll ∅ ∅ ∅ ∅)) in Hany1.
  apply (f_equal (λ o : outcome all_graphs,
           match o with
           | Ok r => (ag_grid r !! n, ag_maze r !! n, ag_geometric r !! n, ag_hypercube r !! n)
           | _ => (None, None, None, None)
           end)) in Hany1.
  unfold with_entries in Hany1. cbn [ag_grid ag_maze ag_geometric ag_hypercube] in Hany1.
  rewrite !lookup_insert_eq in Hany1. by injection Hany1 as -> -> -> ->.
Qed.
End runs.

(** C8, as the code has it: every generator and [_assign_weights] build
    their own [random.Random(seed)].  Seeded with an int they depend on
    nothing but their arguments, whatever the entropy of the system: two
    calls with the same seed and parameters return the same vertices,
    edges and weights, in the same order, in either weight mode; and two
    runs of [make_all_graphs] on the same seed and bounds hold the same
    four entries for every size they share, whatever other sizes each was
    asked for.  With [seed=None], the default, the generator is seeded
    from the entropy of the system, and two calls with the same parameters
    return different edges and different weights. *)
Theorem seeded_runs_agree (R : PyRandom) (math_log : Z → float) (ent1 ent2 : Z)
    (seed w_min w_max : Z) (controlled : bool) :
  (∀ n connect_diagonals radius edges frac vertices,
     grid_graph R ent1 n (Some seed) connect_diagonals
       = grid_graph R ent2 n (Some seed) connect_diagonals ∧
     grid_maze_like R ent1 n (Some seed) = grid_maze_like R ent2 n (Some seed) ∧
     random_geometric_graph R ent1 math_log n (Some seed) radius
       = random_geometric_graph R ent2 math_log n (Some seed) radius ∧
     hypercube_graph R ent1 n (Some seed) = hypercube_graph R ent2 n (Some seed) ∧
     _assign_weights R ent1 edges (Some seed) w_min w_max controlled frac
       = _assign_weights R ent2 edges (Some seed) w_min w_max controlled frac ∧
     build_weighted_graph R ent1 vertices edges (Some seed) w_min w_max controlled
       = build_weighted_graph R ent2 vertices edges (Some seed) w_min w_max controlled) ∧
  (∀ sizes1 sizes2 res1 res2 n,
     make_all_graphs R ent1 math_log sizes1 seed w_min w_max controlled = Ok res1 →
     make_all_graphs R ent2 math_log sizes2 seed w_min w_max controlled = Ok res2 →
     n ∈ sizes1 → n ∈ sizes2 →
     ∃ eg em er eh,
       (ag_grid res1 !! n = Some eg ∧ ag_maze res1 !! n = Some em ∧
        ag_geometric res1 !! n = Some er ∧ ag_hypercube res1 !! n = Some eh) ∧
       (ag_grid res2 !! n = Some eg ∧ ag_maze res2 !! n = Some em ∧
        ag_geometric res2 !! n = Some er ∧ ag_hypercube res2 !! n = Some eh)) ∧
  (grid_maze_like Twister (2 ^ 19936) 4 None
   = Ok ([1; 2; 3; 4], [(3, 4); (2, 4); (1, 3)]) ∧
   grid_maze_like Twister (2 ^ 19936 + 1) 4 None
   = Ok ([1; 2; 3; 4], [(1, 3); (3, 4); (2, 4)]) ∧
   _assign_weights Twister (2 ^ 19936) [(1, 2)] None 1 20 false 0.05%float
   = Ok [(1, 2, 18)] ∧
   _assign_weights Twister (2 ^ 19936 + 1) [(1, 2)] None 1 20 false 0.05%float
   = Ok [(1, 2, 3)]).
Proof.
  split_and!.
  - intros n connect_diagonals radius edges frac vertices. split_and!; reflexivity.
  - intros sizes1 sizes2 res1 res2 n H1 H2 Hn1 Hn2.
    apply (runs_agree R math_log ent1 ent2 sizes1 sizes2 seed w_min w_max controlled); done.
  - by vm_compute.
  - by vm_compute.
  - by vm_compute.
  - by vm_compute.
Qed.

(** The result of a run on the size 2 alone, on another entropy. *)
Definition graphs_one : all_graphs :=
  Eval vm_compute in
    match make_all_graphs Twister 5 log_at_two [2] 42 1 30 true with
    | Ok res => res
    | _ => mkAll ∅ ∅ ∅ ∅
    end.

Lemma seeded_runs_agree_witness :
  ∃ eg em er eh,
    (ag_grid graphs_two !! 2 = Some eg ∧ ag_maze graphs_two !! 2 = Some em ∧
     ag_geometric graphs_two !! 2 = Some er ∧ ag_hypercube graphs_two !! 2 = Some eh) ∧
    (ag_grid graphs_one !! 2 = Some eg ∧ ag_maze graphs_one !! 2 = Some em ∧
     ag_geometric graphs_one !! 2 = Some er ∧ ag_hypercube graphs_one !! 2 = Some eh).
Proof.
  destruct (seeded_runs_agree Twister log_at_two 0 5 42 1 30 true) as (_ & Hruns & _).
  apply (Hruns [1; 2] [2] graphs_two graphs_one 2).
  - vm_compute. reflexivity.
  - vm_compute. reflexivity.
  - apply (bool_decide_unpack _). vm_compute. exact I.
  - apply (bool_decide_unpack _). vm_compute. exact I.
Defined.

(** C8 as stated fails for the seed every generator has by default: with
    [seed=None] two calls with the same parameters, made when the system
    gives another entropy, return other edges and other weights.  The two
    entropies are the words 0, ..., 0, 1 and 1, 0, ..., 0, 1. *)
Lemma unseeded_calls_differ :
  grid_maze_like Twister (2 ^ 19936) 4 None
  = Ok ([1; 2; 3; 4], [(3, 4); (2, 4); (1, 3)]) ∧
  grid_maze_like Twister (2 ^ 19936 + 1) 4 None
  = Ok ([1; 2; 3; 4], [(1, 3); (3, 4); (2, 4)]) ∧
  _assign_weights Twister (2 ^ 19936) [(1, 2)] None 1 20 false 0.05%float
  = Ok [(1, 2, 18)] ∧
  _assign_weights Twister (2 ^ 19936 + 1) [(1, 2)] None 1 20 false 0.05%float
  = Ok [(1, 2, 3)].
Proof. split_and!; by vm_compute. Qed.
